(** * pmf2bin: CD-ROM XA Mode 2 Form 1 sector encoder

    A shallow embedding of [pmf2bin.go] (the track-list validator, the
    sector encoder, the EDC engine and the GF(256) / Reed-Solomon parity
    engine) together with the properties stated about them.

    Conventions of the embedding.
    - Go's [int] is the 64-bit two's complement integer of the common
      targets; it is a [Z], and the result of an operation on values that
      come from the input (track fields, the cursor) goes through
      [wrap64].  Loop counters that run over a constant range and indices
      below [len(tracks)] are computed exactly.  Division and remainder
      truncate toward zero ([Z.quot], [Z.rem]).
    - [byte], [uint16] and [uint32] values are [Z]s in their range; a
      conversion to [byte] keeps the low eight bits.
    - Slices and arrays are lists; an index or slice expression out of
      range is the run-time panic of Go ([ErrPanic]).
    - Messages printed to stdout (progress lines, the advisory on a data
      track after an audio track) are not part of the model.  Opening and
      closing the files and creating, writing, flushing and syncing the
      output file cannot fail in it; reading the descriptor can (see
      [parseFF]).  The bytes handed to the buffered writer
      ([bw.Write]) are collected in order; they are the content of the
      output file once [bw.Flush] has run, on the way to a return without
      error or with the unconsumed-input error.  The returns with the
      truncation error come before the flush and leave in the file only
      what the writer has passed on by then. *)

From Stdlib Require Import Ascii.
From stdpp Require Import base numbers list strings pretty.

Local Open Scope Z_scope.

(** ** Machine integers *)

Definition wrap64 (z : Z) : Z := (z + 2 ^ 63) mod 2 ^ 64 - 2 ^ 63.
Definition add64 (a b : Z) : Z := wrap64 (a + b).
Definition sub64 (a b : Z) : Z := wrap64 (a - b).
Definition mul64 (a b : Z) : Z := wrap64 (a * b).

Definition minInt : Z := - 2 ^ 63.
Definition maxInt : Z := 2 ^ 63 - 1.
Definition is_int (z : Z) : Prop := minInt <= z <= maxInt.
Definition is_intb (z : Z) : bool := (minInt <=? z) && (z <=? maxInt).

Definition byte (z : Z) : Z := z mod 256.
Definition uint16 (z : Z) : Z := z mod 2 ^ 16.
Definition is_byte (z : Z) : Prop := 0 <= z < 256.
Definition is_byteb (z : Z) : bool := (0 <=? z) && (z <? 256).

(** [len(s)] of a slice. *)
Definition len {A} (l : list A) : Z := Z.of_nat (length l).

(** ** Errors *)

Inductive Error : Type :=
  | ErrRead
  | ErrNoTracks
  | ErrCountMismatch (expected found : Z)
  | ErrInvalidMode (num mode : Z)
  | ErrNumbering (got expected : Z)
  | ErrStartAfterEnd (num start end_ : Z)
  | ErrNegativePregap (num pregap : Z)
  | ErrOverlap (num start prevEnd : Z)
  | ErrLengthMismatch (expected got : Z)
  | ErrTruncated (need available : Z)
  | ErrNotConsumed (remaining : Z)
  | ErrPanic
  | ErrFuel.

Inductive Res (A : Type) : Type :=
  | Ok (a : A)
  | Err (e : Error).
Arguments Ok {A} a.
Arguments Err {A} e.

Definition bind {A B} (m : Res A) (k : A -> Res B) : Res B :=
  match m with
  | Ok a => k a
  | Err e => Err e
  end.

Notation "'do' x <- m ; k" := (bind m (fun x => k))
  (at level 10, x pattern, m at level 100, k at level 200).

(** [s[i]]: panics out of range. *)
Definition index (s : list Z) (i : Z) : Res Z :=
  if (0 <=? i) && (i <? len s) then
    match s !! Z.to_nat i with
    | Some x => Ok x
    | None => Err ErrPanic
    end
  else Err ErrPanic.

(** [s[lo:hi]]: panics unless [0 <= lo <= hi <= len(s)]. *)
Definition slice {A} (s : list A) (lo hi : Z) : Res (list A) :=
  if (0 <=? lo) && (lo <=? hi) && (hi <=? len s) then
    Ok (take (Z.to_nat (hi - lo)) (drop (Z.to_nat lo) s))
  else Err ErrPanic.

(** ** EDC lookup table ([init], first loop) *)

Definition polyEDC : Z := 0xD8018001.

Definition edcRound (r : Z) : Z :=
  if negb (Z.land r 1 =? 0) then Z.lxor (Z.shiftr r 1) polyEDC
  else Z.shiftr r 1.

Definition build_edcLUT : list Z :=
  foldl (fun lut i => <[Z.to_nat i := Nat.iter 8 edcRound i]> lut)
        (replicate 256 0) (seqZ 0 256).

Definition edcLUT : list Z := Eval vm_compute in build_edcLUT.

(** ** GF(256) tables ([init], second and third loop) *)

Definition gfInitStep (st : Z * list Z * list Z) (i : Z) : Z * list Z * list Z :=
  let '(b, pow, log) := st in
  let pow := <[Z.to_nat i := byte b]> pow in
  let log := <[Z.to_nat b := byte i]> log in
  let b := uint16 (Z.shiftl b 1) in
  let b := if negb (Z.land b 0x100 =? 0) then Z.lxor b 0x11d else b in
  (b, pow, log).

Definition gfMirrorStep (pow : list Z) (i : Z) : list Z :=
  <[Z.to_nat i := default 0 (pow !! Z.to_nat (i - 255))]> pow.

Definition build_gf : list Z * list Z :=
  let '(_, pow, log) :=
    foldl gfInitStep (1, replicate 509 0, replicate 256 0) (seqZ 0 255) in
  (foldl gfMirrorStep pow (seqZ 255 254), log).

Definition gfPow : list Z := Eval vm_compute in fst build_gf.
Definition gfLog : list Z := Eval vm_compute in snd build_gf.

(** ** Addressing *)

Definition toBCD (value : Z) : Z :=
  byte (Z.lor (wrap64 (Z.shiftl (Z.quot value 10) 4)) (Z.rem value 10)).

Definition lbaToMSF (lba : Z) : Z * Z * Z :=
  (Z.quot lba (60 * 75), Z.rem (Z.quot lba 75) 60, Z.rem lba 75).

(** ** EDC engine *)

Definition edcStep (edc b : Z) : Z :=
  let index := Z.lxor (byte edc) b in
  Z.lxor (Z.shiftr edc 8) (default 0 (edcLUT !! Z.to_nat index)).

Definition edcAcc (data : list Z) : Z := foldl edcStep 0 data.

Definition computeEDC (data : list Z) : list Z :=
  let edc := edcAcc data in
  [byte edc; byte (Z.shiftr edc 8); byte (Z.shiftr edc 16); byte (Z.shiftr edc 24)].

(** ** Galois field multiplication *)

Definition gfMult (a b : Z) : Z :=
  if (a =? 0) || (b =? 0) then 0
  else default 0 (gfPow !! Z.to_nat (default 0 (gfLog !! Z.to_nat a)
                                     + default 0 (gfLog !! Z.to_nat b))).

(** ** Reed-Solomon parity engine *)

(** [parity[i] = v] and the generic loop with early exit. *)
Definition store (s : list Z) (i v : Z) : Res (list Z) :=
  if (0 <=? i) && (i <? len s) then Ok (<[Z.to_nat i := v]> s) else Err ErrPanic.

Fixpoint foldM {A S : Type} (f : S -> A -> Res S) (l : list A) (s : S) : Res S :=
  match l with
  | [] => Ok s
  | a :: l' => do s' <- f s a; foldM f l' s'
  end.

(** The registers of one lane, in the order [r0Lsb, r0Msb, r1Lsb, r1Msb]. *)
Definition Regs : Type := Z * Z * Z * Z.

Definition g1 : Z := 3.
Definition g0 : Z := 2.

Definition lfsrShift (r : Regs) (dataLsb dataMsb : Z) : Regs :=
  let '(r0Lsb, r0Msb, r1Lsb, r1Msb) := r in
  let feedbackLsb := Z.lxor dataLsb r1Lsb in
  let feedbackMsb := Z.lxor dataMsb r1Msb in
  (gfMult feedbackLsb g0, gfMult feedbackMsb g0,
   Z.lxor r0Lsb (gfMult feedbackLsb g1), Z.lxor r0Msb (gfMult feedbackMsb g1)).

(** Header bytes 0-3 count as zeros. *)
Definition maskHeader (pos dataLsb dataMsb : Z) : Z * Z :=
  if pos <? 4 then (0, if pos <? 3 then 0 else dataMsb) else (dataLsb, dataMsb).

Fixpoint pRows (rows : nat) (sector : list Z) (pos : Z) (r : Regs) : Res Regs :=
  match rows with
  | O => Ok r
  | S rows' =>
      do dataLsb <- index sector pos;
      do dataMsb <- index sector (pos + 1);
      let '(dataLsb, dataMsb) := maskHeader pos dataLsb dataMsb in
      pRows rows' sector (pos + 86) (lfsrShift r dataLsb dataMsb)
  end.

Definition storeLane (base : Z) (parity : list Z) (lane : Z) (r : Regs) : Res (list Z) :=
  let '(r0Lsb, r0Msb, r1Lsb, r1Msb) := r in
  do parity <- store parity (lane * 2) r1Lsb;
  do parity <- store parity (lane * 2 + 1) r1Msb;
  do parity <- store parity (base + lane * 2) r0Lsb;
  store parity (base + lane * 2 + 1) r0Msb.

Definition pColumn (sector parity : list Z) (col : Z) : Res (list Z) :=
  do r <- pRows 24 sector (2 * col) (0, 0, 0, 0);
  storeLane 86 parity col r.

Definition pParityLFSR (sector : list Z) : Res (list Z) :=
  if negb (len sector =? 2064) then Err ErrPanic
  else foldM (pColumn sector) (seqZ 0 43) (replicate 172 0).

Fixpoint qSteps (steps : nat) (sector : list Z) (pos : Z) (r : Regs) : Res Regs :=
  match steps with
  | O => Ok r
  | S steps' =>
      let pos := if 2236 <=? pos then pos - 2236 else pos in
      do dataLsb <- index sector pos;
      do dataMsb <- index sector (pos + 1);
      let '(dataLsb, dataMsb) := maskHeader pos dataLsb dataMsb in
      qSteps steps' sector (pos + 88) (lfsrShift r dataLsb dataMsb)
  end.

Definition qDiagonal (sector parity : list Z) (diag : Z) : Res (list Z) :=
  do r <- qSteps 43 sector (2 * 43 * diag) (0, 0, 0, 0);
  storeLane 52 parity diag r.

Definition qParityLFSR (sector : list Z) : Res (list Z) :=
  if negb (len sector =? 2236) then Err ErrPanic
  else foldM (qDiagonal sector) (seqZ 0 26) (replicate 104 0).

(** ** Track table *)

Record Track : Type := mkTrack {
  Num : Z;
  Mode : Z;
  Start : Z;
  End : Z;
  Pregap : Z
}.

Definition pmfSector : Z := 2056.
Definition binSector : Z := 2352.

(** ** Descriptor scanning ([parseFF], the scanner loop)

    A line of the descriptor is taken after [strings.TrimSpace] and after
    the prefix tests have classified it.  The payload of a constructor is
    the decimal numbers written on the line, or [None] when the line does
    not have the shape the [fmt.Sscanf] format asks for.  [Sscanf] also
    fails, storing nothing that is kept, on a number outside the range of
    [int].

    The loop runs over the lines the scanner delivers.  The scanner stops
    at the end of the file or at its first error, a failed read or a line
    that does not fit its buffer of 64 KiB; [readErr] says that
    [scanner.Err()] is not nil after the loop, and [lines] are the lines
    delivered before that. *)

Inductive Line : Type :=
  | LineEmpty
  | LineByteOrder (isMSB : bool)
      (* "AUDIO_BYTE_ORDER:" prefix; [order == "AUDIO_MSB"] *)
  | LineTrackCount (n : option Z)
      (* "%NUMBER_OF_ADDED_TRACKS" prefix, scanned with "%d" *)
  | LineSectionStart
      (* "%START_OF_ADDED_TRACK_DATA" prefix *)
  | LineOther (fields : option (Z * Z * Z * Z)).
      (* any other line, scanned with "%d %d %d %d" *)

Definition scanInt (n : option Z) : option Z :=
  match n with
  | Some v => if is_intb v then Some v else None
  | None => None
  end.

Definition scanFields (fields : option (Z * Z * Z * Z)) : option (Z * Z * Z * Z) :=
  match fields with
  | Some (num, mode, start, end_) =>
      if is_intb num && is_intb mode && is_intb start && is_intb end_
      then Some (num, mode, start, end_) else None
  | None => None
  end.

Record Scan : Type := mkScan {
  scTracks : list Track;
  scNumExpected : Z;
  scInSection : bool;
  scAudioMSB : bool
}.

Definition scanLine (sc : Scan) (l : Line) : Scan :=
  match l with
  | LineEmpty => sc
  | LineByteOrder isMSB =>
      mkScan (scTracks sc) (scNumExpected sc) (scInSection sc) isMSB
  | LineTrackCount n =>
      mkScan (scTracks sc) (default (scNumExpected sc) (scanInt n))
             (scInSection sc) (scAudioMSB sc)
  | LineSectionStart =>
      mkScan (scTracks sc) (scNumExpected sc) true (scAudioMSB sc)
  | LineOther fields =>
      if negb (scInSection sc) then sc
      else match scanFields fields with
           | None => sc
           | Some (num, mode, start, end_) =>
               mkScan (scTracks sc ++ [mkTrack num mode start end_ 0])
                      (scNumExpected sc) (scInSection sc) (scAudioMSB sc)
           end
  end.

Definition scanLines (audioMSB : bool) (lines : list Line) : Scan :=
  foldl scanLine (mkScan [] 0 false audioMSB) lines.

(** ** Track validation ([parseFF], after the scanner loop) *)

Definition withPregap (t : Track) (pregap : Z) : Track :=
  mkTrack (Num t) (Mode t) (Start t) (End t) pregap.

(** The body of the validation loop for [tracks[i]]; [prev] is
    [tracks[i-1]], which the loop has already updated in place. *)
Definition validateTrack (i : Z) (prev : option Track) (t : Track) : Res Track :=
  if negb (Mode t =? 2) && negb (Mode t =? 4) then Err (ErrInvalidMode (Num t) (Mode t))
  else if negb (Num t =? i + 1) then Err (ErrNumbering (Num t) (i + 1))
  else if Start t >? End t then Err (ErrStartAfterEnd (Num t) (Start t) (End t))
  else if i =? 0 then Ok (withPregap t 0)
  else match prev with
       | None => Err ErrPanic
       | Some prev =>
           let pregap := sub64 (sub64 (Start t) (End prev)) 1 in
           if pregap <? 0 then Err (ErrNegativePregap (Num t) pregap)
           else if Start t <=? End prev then Err (ErrOverlap (Num t) (Start t) (End prev))
           else Ok (withPregap t pregap)
       end.

Fixpoint validateFrom (i : Z) (prev : option Track) (tracks : list Track)
  : Res (list Track) :=
  match tracks with
  | [] => Ok []
  | t :: rest =>
      do t' <- validateTrack i prev t;
      do rest' <- validateFrom (i + 1) (Some t') rest;
      Ok (t' :: rest')
  end.

Definition addTrackSize (expectedSize : Z) (t : Track) : Z :=
  let sectorCount := add64 (sub64 (End t) (Start t)) 1 in
  if Mode t =? 4 then add64 expectedSize (mul64 sectorCount binSector)
  else add64 expectedSize (mul64 sectorCount pmfSector).

Definition expectedSize (tracks : list Track) : Z := foldl addTrackSize 0 tracks.

Definition validate (numExpected : Z) (tracks : list Track) (pmfLen : Z)
  : Res (list Track) :=
  if len tracks =? 0 then Err ErrNoTracks
  else if (numExpected >? 0) && negb (len tracks =? numExpected)
  then Err (ErrCountMismatch numExpected (len tracks))
  else
    do tracks' <- validateFrom 0 None tracks;
    if negb (expectedSize tracks' =? pmfLen)
    then Err (ErrLengthMismatch (expectedSize tracks') pmfLen)
    else Ok tracks'.

(** [parseFF] on the lines of the descriptor: the value left in the
    global [audioMSB] and the result.  A scanner error is returned before
    anything is validated; the byte-order lines read before it have
    already set the global. *)
Definition parseFF (audioMSB : bool) (lines : list Line) (readErr : bool) (pmfLen : Z)
  : bool * Res (list Track) :=
  let sc := scanLines audioMSB lines in
  (scAudioMSB sc,
   if readErr then Err ErrRead
   else validate (scNumExpected sc) (scTracks sc) pmfLen).

(** ** Sector encoder ([buildBin]) *)

(** The encoder state: the payload buffer [pmf] (shared with the slices
    taken from it), the sector array, the cursor [offset] and the bytes
    handed to the writer so far. *)
Record Enc : Type := mkEnc {
  pmf : list Z;
  sector : list Z;
  offset : Z;
  out : list Z
}.

(** [empty := make([]byte, binSector)]. *)
Definition empty : list Z := replicate 2352 0.

Definition syncPattern : list Z :=
  [0x00; 0xFF; 0xFF; 0xFF; 0xFF; 0xFF; 0xFF; 0xFF; 0xFF; 0xFF; 0xFF; 0x00].

(** [copy(dst[lo:hi], src)]. *)
Definition copy {A} (lo hi : nat) (src dst : list A) : list A :=
  let n := Nat.min (hi - lo) (length src) in
  take lo dst ++ take n src ++ drop (lo + n) dst.

(** Sync pattern and 4-byte header. *)
Definition writeHeader (t : Track) (lba : Z) (sector : list Z) : list Z :=
  let '(min, sec, frame) := lbaToMSF lba in
  let sector := copy 0 12 syncPattern sector in
  let sector := <[12%nat := toBCD min]> sector in
  let sector := <[13%nat := toBCD sec]> sector in
  let sector := <[14%nat := toBCD frame]> sector in
  <[15%nat := byte (Mode t)]> sector.

Definition pregapSector (t : Track) (st : Enc) (s : Z) : Enc :=
  let lba := add64 (add64 (sub64 (Start t) (Pregap t)) s) 150 in
  let sector := copy 0 2352 empty (sector st) in
  let sector := if Mode t =? 2 then writeHeader t lba sector else sector in
  mkEnc (pmf st) sector (offset st) (out st ++ sector).

Definition pregapLoop (t : Track) (st : Enc) : Enc :=
  foldl (pregapSector t) st (seqZ 0 (Pregap t)).

(** The in-place swap of every pair of bytes. *)
Fixpoint swapPairs (data : list Z) : list Z :=
  match data with
  | a :: b :: rest => b :: a :: swapPairs rest
  | _ => data
  end.

(** Writing through a slice [buf[lo:lo+len(data)]] that aliases [buf]. *)
Definition writeBack (lo : Z) (data buf : list Z) : list Z :=
  take (Z.to_nat lo) buf ++ data ++ drop (Z.to_nat lo + length data) buf.

Definition audioSector (audioMSB : bool) (st : Enc) (sector : list Z) : Enc * option Error :=
  let end_ := add64 (offset st) binSector in
  if end_ >? len (pmf st)
  then (mkEnc (pmf st) sector (offset st) (out st), Some (ErrTruncated end_ (len (pmf st))))
  else
    match slice (pmf st) (offset st) end_ with
    | Err e => (mkEnc (pmf st) sector (offset st) (out st), Some e)
    | Ok data =>
        if audioMSB then
          let data := swapPairs data in
          (mkEnc (writeBack (offset st) data (pmf st)) sector end_ (out st ++ data), None)
        else (mkEnc (pmf st) sector end_ (out st ++ data), None)
    end.

(** Assembly of a data sector from the 2056 bytes [raw]. *)
Definition assembleData (t : Track) (lba : Z) (raw sector : list Z) : Res (list Z) :=
  do sub <- slice raw 0 8;
  do data <- slice raw 8 (len raw);
  let sector := writeHeader t lba sector in
  let sector := copy 16 24 sub sector in
  let sector := copy 24 2072 data sector in
  let edc := computeEDC (take 2056 (drop 16 sector)) in
  let sector := copy 2072 2076 edc sector in
  do pParity <- pParityLFSR (take 2064 (drop 12 sector));
  let sector := copy 2076 2248 pParity sector in
  do qParity <- qParityLFSR (take 2236 (drop 12 sector));
  Ok (copy 2248 2352 qParity sector).

Definition dataSector (t : Track) (lba : Z) (st : Enc) (sector : list Z)
  : Enc * option Error :=
  let end_ := add64 (offset st) pmfSector in
  if end_ >? len (pmf st)
  then (mkEnc (pmf st) sector (offset st) (out st), Some (ErrTruncated end_ (len (pmf st))))
  else
    match (do raw <- slice (pmf st) (offset st) end_; assembleData t lba raw sector) with
    | Err e => (mkEnc (pmf st) sector (offset st) (out st), Some e)
    | Ok sector' => (mkEnc (pmf st) sector' end_ (out st ++ sector'), None)
    end.

(** One iteration of the loop over the sectors [s] of a track. *)
Definition payloadSector (audioMSB : bool) (t : Track) (s : Z) (st : Enc)
  : Enc * option Error :=
  let lba := add64 s 150 in
  let sector := copy 0 2352 empty (sector st) in
  if Mode t =? 4 then audioSector audioMSB st sector
  else dataSector t lba st sector.

(** [for s := t.Start; s <= t.End; s++].  Every iteration that does not
    fail moves the cursor forward, so the loop stops after at most
    [len(pmf)+1] iterations whatever [t.End] is; [fuel] bounds the
    iterations and [buildBin] supplies enough of it. *)
Fixpoint payloadLoop (fuel : nat) (audioMSB : bool) (t : Track) (s : Z) (st : Enc)
  : Enc * option Error :=
  match fuel with
  | O => (st, Some ErrFuel)
  | S fuel' =>
      if s <=? End t then
        match payloadSector audioMSB t s st with
        | (st', None) => payloadLoop fuel' audioMSB t (add64 s 1) st'
        | (st', Some e) => (st', Some e)
        end
      else (st, None)
  end.

Definition encodeTrack (audioMSB : bool) (t : Track) (st : Enc) : Enc * option Error :=
  let st := pregapLoop t st in
  payloadLoop (S (length (pmf st))) audioMSB t (Start t) st.

Fixpoint encodeTracks (audioMSB : bool) (tracks : list Track) (st : Enc)
  : Enc * option Error :=
  match tracks with
  | [] => (st, None)
  | t :: rest =>
      match encodeTrack audioMSB t st with
      | (st', None) => encodeTracks audioMSB rest st'
      | (st', Some e) => (st', Some e)
      end
  end.

Definition initEnc (pmf : list Z) : Enc := mkEnc pmf (replicate 2352 0) 0 [].

Definition buildBin (audioMSB : bool) (pmf0 : list Z) (tracks : list Track)
  : Enc * option Error :=
  match encodeTracks audioMSB tracks (initEnc pmf0) with
  | (st, Some e) => (st, Some e)
  | (st, None) =>
      if negb (offset st =? len (pmf st))
      then (st, Some (ErrNotConsumed (sub64 (len (pmf st)) (offset st))))
      else (st, None)
  end.

(** ** Orchestration ([main], from the payload and the descriptor on)

    The bytes handed to the writer of the output file ([None] before the
    file is created) and the error, if any.  [audioMSB] starts as
    [false]. *)
Definition main (lines : list Line) (readErr : bool) (pmf0 : list Z)
  : option (list Z) * option Error :=
  match parseFF false lines readErr (len pmf0) with
  | (_, Err e) => (None, Some e)
  | (audioMSB, Ok tracks) =>
      let '(st, e) := buildBin audioMSB pmf0 tracks in (Some (out st), e)
  end.

(** ** Cue sheet ([writeCue], [lbaToMSFFormatted])

    The strings handed to [fmt.Fprintf], in order; the cue file holds
    their concatenation.  Creating and closing the file cannot fail in the
    model.  [%02d] prints at least two digits, the minus sign of a
    negative number counting as one of them. *)

Definition newline : string := String "010"%char EmptyString.
Definition quote : string := String "034"%char EmptyString.

Definition fmt02d (v : Z) : string :=
  if v <? 0 then pretty v
  else if v <? 10 then "0" +:+ pretty v
  else pretty v.

(** [%02d:%02d:%02d]. *)
Definition fmtMSF (msf : Z * Z * Z) : string :=
  let '(min, sec, frame) := msf in
  fmt02d min +:+ ":" +:+ fmt02d sec +:+ ":" +:+ fmt02d frame.

Definition lbaToMSFFormatted (lba : Z) : string := fmtMSF (lbaToMSF lba).

(** The body of the loop over the tracks. *)
Definition cueTrack (t : Track) : list string :=
  [if Mode t =? 4 then "  TRACK " +:+ fmt02d (Num t) +:+ " AUDIO" +:+ newline
   else "  TRACK " +:+ fmt02d (Num t) +:+ " MODE2/2352" +:+ newline]
  ++ (if Pregap t >? 0
      then ["    INDEX 00 " +:+ fmtMSF (lbaToMSF (sub64 (Start t) (Pregap t))) +:+ newline]
      else [])
  ++ ["    INDEX 01 " +:+ lbaToMSFFormatted (Start t) +:+ newline].

(** [binBase] is [filepath.Base(binName)]. *)
Definition writeCue (tracks : list Track) (binBase : string) : list string :=
  ("FILE " +:+ quote +:+ binBase +:+ quote +:+ " BINARY" +:+ newline)
  :: concat (cueTrack <$> tracks).

(** ** Specification-side definitions

    These follow the words of the specification; the theorems below
    compare them with the definitions above. *)

Module Spec.

(** EDC engine, in arithmetic: one shift-reduce round, the table entry
    after eight rounds, the accumulator recurrence and the four
    little-endian bytes of a 32-bit value. *)
Definition shiftReduce (r : Z) : Z :=
  if Z.odd r then Z.lxor (r / 2) 0xD8018001 else r / 2.

Definition table (i : Z) : Z := Nat.iter 8 shiftReduce i.

Fixpoint checksumFrom (acc : Z) (data : list Z) : Z :=
  match data with
  | [] => acc
  | b :: rest =>
      checksumFrom (Z.lxor (acc / 256) (table (Z.lxor (acc mod 256) b))) rest
  end.

Definition checksum (data : list Z) : Z := checksumFrom 0 data.

Definition littleEndian32 (w : Z) : list Z :=
  [w mod 256; w / 2 ^ 8 mod 256; w / 2 ^ 16 mod 256; w / 2 ^ 24 mod 256].

(** BCD of a value: the tens in the high nibble, the units in the low
    one, [((v/10) << 4) | (v % 10)]. *)
Definition bcd (v : Z) : Z := Z.lor (Z.shiftl (v / 10) 4) (v mod 10).

(** Track list: unit size, sector count and total expected payload
    size, over the integers. *)
Definition unitSize (t : Track) : Z := if Mode t =? 4 then 2352 else 2056.

Definition sectorCount (t : Track) : Z := End t - Start t + 1.

Definition totalSize (tracks : list Track) : Z :=
  foldr (fun t acc => sectorCount t * unitSize t + acc) 0 tracks.

(** The failure conditions of the validator. *)
Definition parseFails (declared : Z) (tracks : list Track) (pmfLen : Z) : Prop :=
  tracks = []
  \/ (declared > 0 /\ declared <> len tracks)
  \/ (exists t, t ∈ tracks /\ Mode t <> 2 /\ Mode t <> 4)
  \/ (exists (i : nat) t, tracks !! i = Some t /\ Num t <> Z.of_nat i + 1)
  \/ (exists t, t ∈ tracks /\ Start t > End t)
  \/ (exists (i : nat) p t,
        tracks !! i = Some p /\ tracks !! S i = Some t /\ Start t <= End p)
  \/ totalSize tracks <> pmfLen.

(** The per-track conditions in the order of the table: mode, numbering
    from [i + 1], [Start <= End], and a start after the end [prevEnd] of
    the track before. *)
Fixpoint wellFormed (i : Z) (prevEnd : option Z) (tracks : list Track) : bool :=
  match tracks with
  | [] => true
  | t :: rest =>
      ((Mode t =? 2) || (Mode t =? 4))
      && (Num t =? i + 1)
      && (Start t <=? End t)
      && match prevEnd with
         | Some e => e <? Start t
         | None => true
         end
      && wellFormed (i + 1) (Some (End t)) rest
  end.

(** The data-model invariants of a track table. *)
Definition invariants (tracks : list Track) : Prop :=
  (forall (i : nat) t, tracks !! i = Some t -> Num t = Z.of_nat i + 1)
  /\ (forall t, t ∈ tracks -> Start t <= End t)
  /\ (forall (i : nat) p t,
        tracks !! i = Some p -> tracks !! S i = Some t ->
        Start t > End p /\ Pregap t = Start t - End p - 1 /\ Pregap t >= 0).

(** The image: track by track, the pregap sectors and then the payload
    sectors, each payload sector made from the next chunk of the payload.
    The bytes of a sector are those the encoder assembles. *)
Definition pregapBytes (t : Track) (s : Z) : list Z :=
  if Mode t =? 2
  then writeHeader t (add64 (add64 (sub64 (Start t) (Pregap t)) s) 150) empty
  else empty.

Definition pregapImage (t : Track) : list Z :=
  concat (pregapBytes t <$> seqZ 0 (Pregap t)).

Definition sectorBytes (audioMSB : bool) (t : Track) (s : Z) (chunk : list Z) : list Z :=
  if Mode t =? 4 then (if audioMSB then swapPairs chunk else chunk)
  else match assembleData t (add64 s 150) chunk empty with
       | Ok sector => sector
       | Err _ => []
       end.

Fixpoint payloadImage (n : nat) (audioMSB : bool) (t : Track) (s : Z) (data : list Z)
  : list Z :=
  match n with
  | O => []
  | S n' =>
      sectorBytes audioMSB t s (take (Z.to_nat (unitSize t)) data)
      ++ payloadImage n' audioMSB t (s + 1) (drop (Z.to_nat (unitSize t)) data)
  end.

Fixpoint image (audioMSB : bool) (tracks : list Track) (data : list Z) : list Z :=
  match tracks with
  | [] => []
  | t :: rest =>
      pregapImage t
      ++ payloadImage (Z.to_nat (sectorCount t)) audioMSB t (Start t) data
      ++ image audioMSB rest (drop (Z.to_nat (sectorCount t * unitSize t)) data)
  end.

End Spec.

(** Payloads a Go slice can hold: its length, a non-negative [int], stays
    clear of the largest one by the size of a sector. *)
Definition payload_fits (pmf0 : list Z) : Prop := len pmf0 + binSector <= maxInt.

(** ** Auxiliary predicates of the proofs *)

(** The fields [fmt.Sscanf] stores are values of type [int]. *)
Definition track_int (t : Track) : Prop :=
  is_int (Num t) /\ is_int (Mode t) /\ is_int (Start t) /\ is_int (End t).

(** Congruence modulo [2^64]. *)
Definition eqm (a b : Z) : Prop := a mod 2 ^ 64 = b mod 2 ^ 64.

(** Every track starts after the end of the one before it, with the
    pregap the gap between them, and the first one has none. *)
Fixpoint chained (prev : option Track) (tracks : list Track) : Prop :=
  match tracks with
  | [] => True
  | t :: rest =>
      match prev with
      | Some p => Start t > End p /\ Pregap t = Start t - End p - 1 /\ Pregap t >= 0
      | None => Pregap t = 0
      end /\ chained (Some t) rest
  end.

(** [t] is [r] with its pregap filled in. *)
Definition samePlace (r t : Track) : Prop := t = withPregap r (Pregap t).

Definition prevEndOf (i : Z) (prev : option Track) : option Z :=
  if i =? 0 then None else End <$> prev.

Definition edcLUT_entry_ok (i : Z) : bool :=
  match edcLUT !! Z.to_nat i with
  | Some v => (v =? Spec.table i) && (0 <=? v) && (v <? 2 ^ 32)
  | None => false
  end.

Definition gfPow_mirrored (i : Z) : bool :=
  bool_decide (gfPow !! Z.to_nat i = gfPow !! Z.to_nat (i - 255)).

(** The four header bytes of a sector at [lba]. *)
Definition header (t : Track) (lba : Z) : list Z :=
  [toBCD (lbaToMSF lba).1.1; toBCD (lbaToMSF lba).1.2; toBCD (lbaToMSF lba).2;
   byte (Mode t)].

(** The states of a pass over the payload [pmf0]: the sector array has
    its 2352 bytes, the cursor lies within the payload, and the buffer has
    the length of [pmf0] and agrees with it from the cursor on. *)
Definition Inv (pmf0 : list Z) (st : Enc) : Prop :=
  length (sector st) = 2352%nat
  /\ 0 <= offset st <= len pmf0
  /\ length (pmf st) = length pmf0
  /\ drop (Z.to_nat (offset st)) (pmf st) = drop (Z.to_nat (offset st)) pmf0.

(** The iterations the loop over the sectors of [t] has left at [s]. *)
Definition remaining (t : Track) (s : Z) : Z :=
  if s <=? End t then End t - s + 1 else 0.

(** The bytes of payload the sectors of the tracks take, and the sectors
    they put into the image. *)
Definition payloadBytes (tracks : list Track) : Z :=
  foldr (fun t acc => Z.max 0 (Spec.sectorCount t) * Spec.unitSize t + acc) 0 tracks.

Definition imageSectors (tracks : list Track) : Z :=
  foldr (fun t acc => Z.max 0 (Pregap t) + Z.max 0 (Spec.sectorCount t) + acc) 0 tracks.

(** ** Concrete inputs *)

(** One audio track of [2^60] sectors: [1 4 0 1152921504606846975]. *)
Definition hugeDescriptor : list Line :=
  [LineSectionStart; LineOther (Some (1, 4, 0, 2 ^ 60 - 1))].

(** An MSB descriptor with one audio sector, [1 4 0 0], and a payload
    whose first two bytes differ. *)
Definition swapDescriptor : list Line :=
  [LineByteOrder true; LineSectionStart; LineOther (Some (1, 4, 0, 0))].

Definition swapPayload : list Z := 1 :: replicate 2351 0.

(** The overlap scenario: [1 4 0 5], [2 2 5 10]. *)
Definition overlapDescriptor : list Line :=
  [LineSectionStart; LineOther (Some (1, 4, 0, 5)); LineOther (Some (2, 2, 5, 10))].

(** A first track at the smallest [int] and a second one at block 1:
    [1 2 -9223372036854775808 -9223372036854775808], [2 2 1 1]. *)
Definition negativeDescriptor : list Line :=
  [LineSectionStart; LineOther (Some (1, 2, - 2 ^ 63, - 2 ^ 63));
   LineOther (Some (2, 2, 1, 1))].

(** A single data sector starting at block 5: [1 2 5 5]. *)
Definition lateStartDescriptor : list Line :=
  [LineSectionStart; LineOther (Some (1, 2, 5, 5))].
Definition lateStartTrack : Track := mkTrack 1 2 5 5 0.

(** The scenario of the one-sector gap: [1 2 0 10], [2 4 12 20]. *)
Definition gapDescriptor : list Line :=
  [LineSectionStart; LineOther (Some (1, 2, 0, 10)); LineOther (Some (2, 4, 12, 20))].
Definition gapTrack1 : Track := mkTrack 1 2 0 10 0.
Definition gapTrack2 : Track := mkTrack 2 4 12 20 1.
Definition gapPayload : list Z := replicate (Z.to_nat (11 * 2056 + 9 * 2352)) 0.

(** ** Definitions of the further properties *)

(** Table entries read as the code reads them, [gfLog[a]], [gfPow[i]]
    and [edcLUT[i]]. *)
Definition gfLogAt (a : Z) : Z := default 0 (gfLog !! Z.to_nat a).
Definition gfPowAt (i : Z) : Z := default 0 (gfPow !! Z.to_nat i).
Definition edcLUTAt (i : Z) : Z := default 0 (edcLUT !! Z.to_nat i).

(** Multiplication by [x] and the shift-and-add product of two
    polynomials over GF(2), reduced by [x^8 + x^4 + x^3 + x^2 + 1]
    (0x11D). *)
Definition xtime (a : Z) : Z :=
  let b := Z.shiftl a 1 in
  if negb (Z.land b 0x100 =? 0) then Z.lxor b 0x11d else b.

Fixpoint polyMulBits (n : nat) (a b : Z) : Z :=
  match n with
  | O => 0
  | S n' => Z.lxor (if Z.odd b then a else 0) (polyMulBits n' (xtime a) (Z.shiftr b 1))
  end.

Definition polyMul (a b : Z) : Z := polyMulBits 8 a b.

(** Checks over all bytes and all pairs of bytes, by evaluation. *)
Definition all_bytes (f : Z -> bool) : bool := forallb f (seqZ 0 256).
Definition all_byte_pairs (f : Z -> Z -> bool) : bool :=
  forallb (fun a => forallb (f a) (seqZ 0 256)) (seqZ 0 256).

Definition gfLog_entry_ok (a : Z) : bool :=
  (a =? 0) || ((0 <=? gfLogAt a) && (gfLogAt a <? 255) && (gfPowAt (gfLogAt a) =? a)).
Definition gfPow_entry_ok (i : Z) : bool :=
  (1 <=? gfPowAt i) && (gfPowAt i <? 256) && (gfLogAt (gfPowAt i) =? i).
Definition gfPow_doubles (i : Z) : bool := gfPowAt (i + 1) =? xtime (gfPowAt i).
Definition gfPow_periodic (i : Z) : bool := gfPowAt i =? gfPowAt (i mod 255).
Definition gfMult_polyMul_ok (a b : Z) : bool := gfMult a b =? polyMul a b.
Definition gfMult_log_ok (a b : Z) : bool :=
  (a =? 0) || (b =? 0)
  || (negb (gfMult a b =? 0)
      && (gfLogAt (gfMult a b) =? (gfLogAt a + gfLogAt b) mod 255)).
Definition gfMult_has_inverse (a : Z) : bool :=
  (a =? 0) || existsb (fun b => gfMult a b =? 1) (seqZ 1 255).

Definition edcLUT_linear (i j : Z) : bool :=
  edcLUTAt (Z.lxor i j) =? Z.lxor (edcLUTAt i) (edcLUTAt j).

(** An entry is a 32-bit value, and its top byte is zero only at index 0. *)
Definition edcLUT_top_ok (i : Z) : bool :=
  (0 <=? edcLUTAt i) && (edcLUTAt i <? 2 ^ 32)
  && ((i =? 0) || negb (Z.shiftr (edcLUTAt i) 24 =? 0)).

(** The byte the parity loops take at index [i] of their input: the four
    header bytes count as zeros. *)
Definition eccByte (sector : list Z) (i : Z) : Z :=
  if i <? 4 then 0 else default 0 (sector !! Z.to_nat i).

(** The registers after the rows of a P column and after the steps of a Q
    diagonal. *)
Definition pRegs (sector : list Z) (col : Z) : Regs :=
  foldl (fun r row => lfsrShift r (eccByte sector (2 * col + 86 * row))
                                  (eccByte sector (2 * col + 86 * row + 1)))
        (0, 0, 0, 0) (seqZ 0 24).

Definition qRegs (sector : list Z) (diag : Z) : Regs :=
  foldl (fun r step => lfsrShift r (eccByte sector ((86 * diag + 88 * step) mod 2236))
                                   (eccByte sector ((86 * diag + 88 * step) mod 2236 + 1)))
        (0, 0, 0, 0) (seqZ 0 43).

(** The two parity checks of a Reed-Solomon code word with the roots 1
    and 2 (that is [x], the element alpha): the sum of its bytes, and its
    value at alpha by Horner's rule. *)
Definition xorAll (cw : list Z) : Z := foldl Z.lxor 0 cw.
Definition evalAlpha (cw : list Z) : Z :=
  foldl (fun acc d => Z.lxor (gfMult acc 2) d) 0 cw.

(** The code word of P column [col] and of Q diagonal [diag] in the byte
    lane [b] (0 for the even bytes, 1 for the odd ones): the data bytes in
    the order the loops read them, then the two parity bytes. *)
Definition pCodeword (sector p : list Z) (col b : Z) : list Z :=
  ((fun row => eccByte sector (2 * col + 86 * row + b)) <$> seqZ 0 24)
  ++ [default 0 (p !! Z.to_nat (2 * col + b));
      default 0 (p !! Z.to_nat (86 + 2 * col + b))].

Definition qCodeword (sector q : list Z) (diag b : Z) : list Z :=
  ((fun step => eccByte sector ((86 * diag + 88 * step) mod 2236 + b)) <$> seqZ 0 43)
  ++ [default 0 (q !! Z.to_nat (2 * diag + b));
      default 0 (q !! Z.to_nat (52 + 2 * diag + b))].

(** The registers [(r0, r1)] of one lane and their shift. *)
Definition lane (b : Z) (r : Regs) : Z * Z :=
  let '(r0Lsb, r0Msb, r1Lsb, r1Msb) := r in
  if b =? 0 then (r0Lsb, r1Lsb) else (r0Msb, r1Msb).

Definition laneShift (r : Z * Z) (d : Z) : Z * Z :=
  let f := Z.lxor d r.2 in (gfMult f 2, Z.lxor r.1 (gfMult f 3)).

(** The registers of a lane after the bytes [data]. *)
Definition LaneInv (data : list Z) (r : Z * Z) : Prop :=
  is_byte r.1 /\ is_byte r.2
  /\ Z.lxor r.2 r.1 = xorAll data
  /\ Z.lxor (gfMult r.2 2) r.1 = gfMult (gfMult (evalAlpha data) 2) 2
  /\ is_byte (xorAll data) /\ is_byte (evalAlpha data).

Definition regs_bytes (r : Regs) : Prop :=
  is_byte r.1.1.1 /\ is_byte r.1.1.2 /\ is_byte r.1.2 /\ is_byte r.2.

(** The parity block holds the registers [regs c] of the lanes [c < k]:
    [r1] in its first half, [r0] in the half that starts at [base]. *)
Definition laneStored (base : Z) (regs : Z -> Regs) (k : Z) (p : list Z) : Prop :=
  forall c b, 0 <= c < k -> 0 <= b <= 1 ->
    p !! Z.to_nat (2 * c + b) = Some (lane b (regs c)).2
    /\ p !! Z.to_nat (base + 2 * c + b) = Some (lane b (regs c)).1.

(** The checks of a reader on a Mode 2 Form 1 sector: the EDC over the
    bytes 16..2075 leaves no remainder, and every P column and Q diagonal
    is a code word. *)
Definition sectorChecks (sec : list Z) : Prop :=
  edcAcc (take 2060 (drop 16 sec)) = 0
  /\ (forall col b, 0 <= col < 43 -> 0 <= b <= 1 ->
        xorAll (pCodeword (take 2064 (drop 12 sec)) (take 172 (drop 2076 sec)) col b) = 0
        /\ evalAlpha (pCodeword (take 2064 (drop 12 sec)) (take 172 (drop 2076 sec)) col b) = 0)
  /\ (forall diag b, 0 <= diag < 26 -> 0 <= b <= 1 ->
        xorAll (qCodeword (take 2236 (drop 12 sec)) (take 104 (drop 2248 sec)) diag b) = 0
        /\ evalAlpha (qCodeword (take 2236 (drop 12 sec)) (take 104 (drop 2248 sec)) diag b) = 0).

(** Reading a BCD byte and a minute, second, frame triple back. *)
Definition fromBCD (b : Z) : Z := 10 * (b / 16) + b mod 16.
Definition msfToLBA (msf : Z * Z * Z) : Z := msf.1.1 * (60 * 75) + msf.1.2 * 75 + msf.2.
Definition isBCD (b : Z) : Prop := 0 <= b / 16 <= 9 /\ 0 <= b mod 16 <= 9.

(** Reading the payload back from an image: the bytes of an audio sector,
    swapped back under the flag, and the bytes 16..2071 of a data sector;
    pregap sectors are skipped. *)
Definition unsector (audioMSB : bool) (t : Track) (sec : list Z) : list Z :=
  if Mode t =? 4 then (if audioMSB then swapPairs sec else sec)
  else take 2056 (drop 16 sec).

Fixpoint unpayload (n : nat) (audioMSB : bool) (t : Track) (img : list Z) : list Z :=
  match n with
  | O => []
  | S n' => unsector audioMSB t (take 2352 img) ++ unpayload n' audioMSB t (drop 2352 img)
  end.

Fixpoint unimage (audioMSB : bool) (tracks : list Track) (img : list Z) : list Z :=
  match tracks with
  | [] => []
  | t :: rest =>
      let img := drop (2352 * Z.to_nat (Pregap t)) img in
      let n := Z.to_nat (Spec.sectorCount t) in
      unpayload n audioMSB t img ++ unimage audioMSB rest (drop (2352 * n) img)
  end.

(** What the buffer holds in place of a chunk once its sector is written,
    and in place of the chunks of a track and of a table. *)
Definition kept (audioMSB : bool) (t : Track) (chunk : list Z) : list Z :=
  if (Mode t =? 4) && audioMSB then swapPairs chunk else chunk.

Fixpoint keptPayload (n : nat) (audioMSB : bool) (t : Track) (data : list Z) : list Z :=
  match n with
  | O => []
  | S n' =>
      kept audioMSB t (take (Z.to_nat (Spec.unitSize t)) data)
      ++ keptPayload n' audioMSB t (drop (Z.to_nat (Spec.unitSize t)) data)
  end.

Fixpoint keptImage (audioMSB : bool) (tracks : list Track) (data : list Z) : list Z :=
  match tracks with
  | [] => []
  | t :: rest =>
      keptPayload (Z.to_nat (Spec.sectorCount t)) audioMSB t data
      ++ keptImage audioMSB rest (drop (Z.to_nat (Spec.sectorCount t * Spec.unitSize t)) data)
  end.

(** The output so far consists of whole sectors. *)
Definition whole (st : Enc) : Prop := (2352 | len (out st)).

(** The scanner, line by line: the track a line adds inside the data
    section, the lines after the first section marker, the last byte-order
    line and the last count line that scans. *)
Definition trackOfLine (l : Line) : option Track :=
  match l with
  | LineOther fields =>
      match scanFields fields with
      | Some (num, mode, start, end_) => Some (mkTrack num mode start end_ 0)
      | None => None
      end
  | _ => None
  end.

Definition trackLines (lines : list Line) : list Track := omap trackOfLine lines.

Definition isSectionStart (l : Line) : bool :=
  match l with LineSectionStart => true | _ => false end.

Fixpoint afterMarker (lines : list Line) : list Line :=
  match lines with
  | [] => []
  | l :: rest => if isSectionStart l then rest else afterMarker rest
  end.

Definition byteOrderOf (audioMSB : bool) (lines : list Line) : bool :=
  foldl (fun b l => match l with LineByteOrder isMSB => isMSB | _ => b end) audioMSB lines.

Definition countOf (lines : list Line) : Z :=
  foldl (fun n l => match l with LineTrackCount c => default n (scanInt c) | _ => n end)
        0 lines.

(** The cue lines of a table by the place of each track after the one
    before it. *)
Fixpoint cueAfter (prev : option Track) (tracks : list Track) : list string :=
  match tracks with
  | [] => []
  | t :: rest =>
      [if Mode t =? 4 then "  TRACK " +:+ fmt02d (Num t) +:+ " AUDIO" +:+ newline
       else "  TRACK " +:+ fmt02d (Num t) +:+ " MODE2/2352" +:+ newline]
      ++ match prev with
         | Some p =>
             if End p + 1 <? Start t
             then ["    INDEX 00 " +:+ lbaToMSFFormatted (End p + 1) +:+ newline]
             else []
         | None => []
         end
      ++ ["    INDEX 01 " +:+ lbaToMSFFormatted (Start t) +:+ newline]
      ++ cueAfter (Some t) rest
  end.

(** Reading a time stamp [mm:ss:ff] back. *)
Definition digitVal (c : ascii) : Z := Z.of_nat (nat_of_ascii c) - 48.

Definition readMSF (s : string) : option Z :=
  match s with
  | String m1 (String m0 (String _ (String s1 (String s0 (String _
      (String f1 (String f0 EmptyString))))))) =>
      Some ((10 * digitVal m1 + digitVal m0) * (60 * 75)
            + (10 * digitVal s1 + digitVal s0) * 75
            + (10 * digitVal f1 + digitVal f0))
  | _ => None
  end.

Definition twoDigits (v : Z) : string :=
  String (ascii_of_nat (Z.to_nat (48 + v / 10)))
    (String (ascii_of_nat (Z.to_nat (48 + v mod 10))) EmptyString).

Definition fmt02d_two_digits (v : Z) : bool := bool_decide (fmt02d v = twoDigits v).

(** Further inputs.  A second track at the smallest [int] after a first
    one that ends at the largest: [1 2 0 9223372036854775807],
    [2 2 -9223372036854775808 0]. *)
Definition wrapDescriptor : list Line :=
  [LineSectionStart; LineOther (Some (1, 2, 0, 2 ^ 63 - 1));
   LineOther (Some (2, 2, - 2 ^ 63, 0))].

(** A payload of bytes that differ from their neighbours, and a parity
    input made of it. *)
Definition rampPayload (n : Z) : list Z := (fun i => (7 * i + 3) mod 256) <$> seqZ 0 n.

(** * Properties *)

(** ** Tactics *)

(** Linear arithmetic under the bounds of [int]. *)
Ltac int_lia :=
  unfold payload_fits, is_int, minInt, maxInt, binSector, pmfSector in *; lia.

(** The tests of [Spec.wellFormed] on a table with a first track. *)
Ltac wellFormed_cons H Hmode Hnum Hse Hprev Hrest :=
  simpl in H;
  apply andb_prop in H as [H Hrest]; apply andb_prop in H as [H Hprev];
  apply andb_prop in H as [H Hse]; apply andb_prop in H as [Hmode Hnum].

(** Lengths of concatenations and slices. *)
Create Rewrite HintDb lengths.
#[local] Hint Rewrite @length_app @length_take @length_drop @length_replicate : lengths.

Ltac len_lia := autorewrite with lengths; lia.

(** Equalities between XORs of the same terms, bit by bit. *)
Ltac lxor_bits :=
  apply Z.bits_inj'; intros ?n _; rewrite ?Z.lxor_spec, ?Z.bits_0;
  repeat match goal with
         | |- context [Z.testbit ?x ?n] => destruct (Z.testbit x n)
         end;
  reflexivity.

(** ** Arithmetic helpers *)

Lemma wrap64_id z : is_int z -> wrap64 z = z.
Proof.
  unfold is_int, minInt, maxInt, wrap64. intros H.
  rewrite Z.mod_small by lia. lia.
Qed.

Lemma wrap64_is_int z : is_int (wrap64 z).
Proof.
  unfold is_int, minInt, maxInt, wrap64.
  pose proof (Z.mod_pos_bound (z + 2 ^ 63) (2 ^ 64)). lia.
Qed.

Lemma wrap64_mod z : wrap64 z mod 2 ^ 64 = z mod 2 ^ 64.
Proof.
  unfold wrap64.
  rewrite Zminus_mod, Z.mod_mod by lia.
  rewrite <- Zminus_mod. f_equal. lia.
Qed.

Lemma wrap64_congr a b : a mod 2 ^ 64 = b mod 2 ^ 64 -> wrap64 a = wrap64 b.
Proof.
  unfold wrap64. intros H.
  rewrite (Zplus_mod a), (Zplus_mod b), H. reflexivity.
Qed.

Lemma wrap64_idem z : wrap64 (wrap64 z) = wrap64 z.
Proof. apply wrap64_id, wrap64_is_int. Qed.

Lemma byte_is_byte z : is_byte (byte z).
Proof. unfold is_byte, byte. apply Z.mod_pos_bound. lia. Qed.

Lemma is_byteb_spec z : is_byteb z = true <-> is_byte z.
Proof. unfold is_byteb, is_byte. lia. Qed.

Lemma lxor_bound n a b :
  0 <= n -> 0 <= a < 2 ^ n -> 0 <= b < 2 ^ n -> 0 <= Z.lxor a b < 2 ^ n.
Proof.
  intros Hn Ha Hb. split.
  - apply Z.lxor_nonneg. lia.
  - destruct (Z.eq_dec (Z.lxor a b) 0) as [->|Hne]; [lia|].
    assert (0 < Z.lxor a b) by (pose proof (proj2 (Z.lxor_nonneg a b)); lia).
    apply Z.log2_lt_pow2; [lia|].
    pose proof (Z.log2_lxor a b ltac:(lia) ltac:(lia)) as Hl.
    destruct (Z.eq_dec a 0) as [->|Ha0], (Z.eq_dec b 0) as [->|Hb0].
    + exfalso. apply Hne. reflexivity.
    + rewrite Z.lxor_0_l in *. apply Z.log2_lt_pow2; lia.
    + rewrite Z.lxor_0_r in *. apply Z.log2_lt_pow2; lia.
    + assert (Z.log2 a < n) by (apply Z.log2_lt_pow2; lia).
      assert (Z.log2 b < n) by (apply Z.log2_lt_pow2; lia).
      lia.
Qed.

Lemma lxor_byte a b : is_byte a -> is_byte b -> is_byte (Z.lxor a b).
Proof. unfold is_byte. intros. apply (lxor_bound 8); lia. Qed.

(** A property checked on every integer of a range by evaluation. *)
Lemma range_check (f : Z -> bool) (lo n : Z) :
  forallb f (seqZ lo n) = true -> forall i, lo <= i < lo + n -> f i = true.
Proof.
  intros Hall i Hi.
  rewrite forallb_forall in Hall. apply Hall.
  apply list_elem_of_In, elem_of_seqZ. exact Hi.
Qed.

Lemma lookup_default_byte (tbl : list Z) (i : nat) :
  Forall is_byte tbl -> is_byte (default 0 (tbl !! i)).
Proof.
  intros Hall. destruct (tbl !! i) as [v|] eqn:Hv; simpl.
  - eapply Forall_lookup_1; eauto.
  - unfold is_byte. lia.
Qed.

(** ** The lookup tables *)

Lemma edcLUT_built : edcLUT = build_edcLUT.
Proof. vm_compute. reflexivity. Qed.

Lemma gf_built : (gfPow, gfLog) = build_gf.
Proof. vm_compute. reflexivity. Qed.

Lemma edcRound_shiftReduce r : edcRound r = Spec.shiftReduce r.
Proof.
  unfold edcRound, Spec.shiftReduce.
  change 1 with (Z.ones 1) at 1. rewrite Z.land_ones by lia.
  rewrite Z.shiftr_div_pow2 by lia. change (2 ^ 1) with 2.
  rewrite Zodd_mod.
  pose proof (Z.mod_pos_bound r 2 ltac:(lia)) as Hb.
  destruct (Z.eqb_spec (r mod 2) 0) as [H0|H0]; simpl.
  - rewrite H0. reflexivity.
  - replace (r mod 2) with 1 by lia. reflexivity.
Qed.

Lemma edcLUT_checked : forallb edcLUT_entry_ok (seqZ 0 256) = true.
Proof. vm_compute. reflexivity. Qed.

Lemma edcLUT_lookup i :
  0 <= i < 256 ->
  edcLUT !! Z.to_nat i = Some (Spec.table i) /\ 0 <= Spec.table i < 2 ^ 32.
Proof.
  intros Hi.
  pose proof (range_check _ 0 256 edcLUT_checked i ltac:(lia)) as H.
  unfold edcLUT_entry_ok in H.
  destruct (edcLUT !! Z.to_nat i) as [v|]; [|discriminate].
  apply andb_prop in H as [H H3]. apply andb_prop in H as [H1 H2].
  apply Z.eqb_eq in H1. subst v. split; [reflexivity|lia].
Qed.

Lemma bytes_checked (tbl : list Z) : forallb is_byteb tbl = true -> Forall is_byte tbl.
Proof.
  intros H. rewrite forallb_forall in H.
  apply Forall_forall. intros x Hx. apply is_byteb_spec, H, list_elem_of_In, Hx.
Qed.

Lemma gfPow_bytes : Forall is_byte gfPow.
Proof. apply bytes_checked. vm_compute. reflexivity. Qed.

Lemma gfLog_bytes : Forall is_byte gfLog.
Proof. apply bytes_checked. vm_compute. reflexivity. Qed.

Lemma gfMult_byte a b : is_byte (gfMult a b).
Proof.
  unfold gfMult. destruct ((a =? 0) || (b =? 0)).
  - unfold is_byte. lia.
  - apply lookup_default_byte, gfPow_bytes.
Qed.

(** ** EDC engine *)

Lemma edcStep_checksum acc b :
  0 <= acc < 2 ^ 32 -> is_byte b ->
  edcStep acc b = Z.lxor (acc / 256) (Spec.table (Z.lxor (acc mod 256) b))
  /\ 0 <= edcStep acc b < 2 ^ 32.
Proof.
  intros Hacc Hb. unfold edcStep.
  assert (Hidx : is_byte (Z.lxor (byte acc) b)) by (apply lxor_byte; [apply byte_is_byte|done]).
  destruct (edcLUT_lookup _ Hidx) as [Hl Hr]. rewrite Hl. simpl.
  rewrite Z.shiftr_div_pow2 by lia. change (2 ^ 8) with 256.
  split; [reflexivity|].
  apply (lxor_bound 32); [lia| |exact Hr].
  split; [apply Z.div_pos; lia|].
  apply Z.div_lt_upper_bound; lia.
Qed.

Lemma edcAcc_checksumFrom data : forall acc,
  0 <= acc < 2 ^ 32 -> Forall is_byte data ->
  foldl edcStep acc data = Spec.checksumFrom acc data
  /\ 0 <= Spec.checksumFrom acc data < 2 ^ 32.
Proof.
  induction data as [|b rest IH]; intros acc Hacc Hall; simpl.
  - split; [reflexivity|lia].
  - inversion Hall as [|? ? Hb Hrest]; subst.
    destruct (edcStep_checksum acc b Hacc Hb) as [Heq Hbound].
    rewrite <- Heq. apply IH; assumption.
Qed.

(** C2. [computeEDC] returns, least significant byte first, the four bytes
    of the 32-bit checksum of the specification: the accumulator starts at
    0, every byte [b] replaces it by
    [(acc >> 8) XOR table[lowByte(acc) XOR b]], nothing is XORed in before
    or after, and the 256-entry table holds for each index the result of
    eight shift-reduce rounds with the reflected polynomial 0xD8018001. *)
Theorem computeEDC_is_checksum (data : list Z) :
  Forall is_byte data ->
  computeEDC data = Spec.littleEndian32 (Spec.checksum data)
  /\ 0 <= Spec.checksum data < 2 ^ 32
  /\ (exists b0 b1 b2 b3,
        computeEDC data = [b0; b1; b2; b3]
        /\ is_byte b0 /\ is_byte b1 /\ is_byte b2 /\ is_byte b3
        /\ b0 + 2 ^ 8 * b1 + 2 ^ 16 * b2 + 2 ^ 24 * b3 = Spec.checksum data)
  /\ edcLUT = build_edcLUT
  /\ length edcLUT = 256%nat
  /\ (forall i, 0 <= i < 256 -> edcLUT !! Z.to_nat i = Some (Spec.table i))
  /\ computeEDC [] = [0; 0; 0; 0].
Proof.
  intros Hall.
  destruct (edcAcc_checksumFrom data 0 ltac:(lia) Hall) as [Heq Hbound].
  fold (edcAcc data) in Heq. fold (Spec.checksum data) in Heq, Hbound.
  assert (Hle : computeEDC data = Spec.littleEndian32 (Spec.checksum data)).
  { unfold computeEDC, Spec.littleEndian32, byte. rewrite Heq.
    rewrite !Z.shiftr_div_pow2 by lia. reflexivity. }
  split; [exact Hle|]. split; [exact Hbound|]. split.
  - rewrite Hle. unfold Spec.littleEndian32.
    eexists _, _, _, _. split; [reflexivity|].
    repeat split; try (apply Z.mod_pos_bound; lia).
    change (2 ^ 8) with 256. change (2 ^ 16) with 65536.
    change (2 ^ 24) with 16777216. change (2 ^ 32) with 4294967296 in Hbound.
    Z.div_mod_to_equations. lia.
  - split; [exact edcLUT_built|]. split; [reflexivity|].
    split; [intros i Hi; apply edcLUT_lookup, Hi|reflexivity].
Qed.

(** A witness of C2 on the three bytes 1, 2, 3. *)
Lemma computeEDC_is_checksum_witness :
  computeEDC [1; 2; 3] = Spec.littleEndian32 (Spec.checksum [1; 2; 3]).
Proof.
  apply (computeEDC_is_checksum [1; 2; 3]).
  repeat constructor; unfold is_byte; lia.
Defined.

(** ** Galois field multiplication *)

Lemma gfPow_mirror_checked : forallb gfPow_mirrored (seqZ 255 254) = true.
Proof. vm_compute. reflexivity. Qed.

Lemma gfPow_mirror i :
  255 <= i < 509 -> gfPow !! Z.to_nat i = gfPow !! Z.to_nat (i - 255).
Proof.
  intros Hi.
  pose proof (range_check _ 255 254 gfPow_mirror_checked i ltac:(lia)) as H.
  unfold gfPow_mirrored in H. apply bool_decide_eq_true in H. exact H.
Qed.

(** C9. [gfMult] is commutative and absorbs zero, its result is a byte, and
    the tables it reads are the ones [init] builds from 0x11D, the entries
    255..508 of the exponent table repeating the entries 0..253. *)
Theorem gfMult_comm_zero (a b : Z) :
  is_byte a -> is_byte b ->
  gfMult a b = gfMult b a
  /\ gfMult a 0 = 0
  /\ gfMult 0 a = 0
  /\ is_byte (gfMult a b)
  /\ (gfPow, gfLog) = build_gf
  /\ length gfPow = 509%nat
  /\ length gfLog = 256%nat
  /\ (forall i, 255 <= i < 509 -> gfPow !! Z.to_nat i = gfPow !! Z.to_nat (i - 255)).
Proof.
  intros Ha Hb. split.
  { unfold gfMult. rewrite orb_comm, Z.add_comm. reflexivity. }
  split. { unfold gfMult. rewrite orb_true_r. reflexivity. }
  split. { reflexivity. }
  split. { apply gfMult_byte. }
  split. { exact gf_built. }
  split. { reflexivity. }
  split. { reflexivity. }
  exact gfPow_mirror.
Qed.

(** A witness of C9 at the bytes 3 and 7. *)
Lemma gfMult_comm_zero_witness : gfMult 3 7 = gfMult 7 3 /\ gfMult 3 0 = 0.
Proof.
  pose proof (gfMult_comm_zero 3 7 ltac:(unfold is_byte; lia) ltac:(unfold is_byte; lia)) as H.
  split; [apply H|apply H].
Defined.

(** ** Parity engine *)

Lemma index_ok (s : list Z) (i : Z) :
  0 <= i < len s -> exists x, index s i = Ok x.
Proof.
  intros Hi. unfold index, len in *.
  replace ((0 <=? i) && (i <? Z.of_nat (length s))) with true by lia.
  destruct (lookup_lt_is_Some_2 s (Z.to_nat i) ltac:(lia)) as [x Hx].
  rewrite Hx. eauto.
Qed.

Lemma store_ok (s : list Z) (i v : Z) :
  0 <= i < len s -> exists s', store s i v = Ok s' /\ length s' = length s.
Proof.
  intros Hi. unfold store.
  replace ((0 <=? i) && (i <? len s)) with true by lia.
  eexists. split; [reflexivity|]. apply length_insert.
Qed.

Lemma foldM_inv {A S : Type} (P : A -> Prop) (Inv : S -> Prop) (f : S -> A -> Res S) :
  (forall s a, P a -> Inv s -> exists s', f s a = Ok s' /\ Inv s') ->
  forall l s, Forall P l -> Inv s -> exists s', foldM f l s = Ok s' /\ Inv s'.
Proof.
  intros Hstep l. induction l as [|a l IH]; intros s Hl Hs; simpl.
  - eauto.
  - inversion Hl as [|? ? Ha Hl']; subst.
    destruct (Hstep s a Ha Hs) as (s' & -> & Hs'). simpl.
    apply IH; assumption.
Qed.

Lemma pRows_ok (sector : list Z) (rows : nat) : forall pos r,
  0 <= pos -> pos + 86 * Z.of_nat rows - 84 <= len sector ->
  exists r', pRows rows sector pos r = Ok r'.
Proof.
  induction rows as [|rows IH]; intros pos r Hpos Hend; simpl.
  - eauto.
  - destruct (index_ok sector pos ltac:(lia)) as [x ->].
    destruct (index_ok sector (pos + 1) ltac:(lia)) as [y ->]. simpl.
    destruct (maskHeader pos x y) as [dl dm].
    apply IH; lia.
Qed.

Lemma qSteps_ok (sector : list Z) (steps : nat) : forall pos r,
  len sector = 2236 -> 0 <= pos < 4472 -> pos mod 2 = 0 ->
  exists r', qSteps steps sector pos r = Ok r'.
Proof.
  induction steps as [|steps IH]; intros pos r Hlen Hpos Heven; simpl.
  - eauto.
  - set (pos' := if 2236 <=? pos then pos - 2236 else pos).
    assert (Hp : 0 <= pos' < 2235 /\ pos' mod 2 = 0).
    { subst pos'. destruct (Z.leb_spec 2236 pos); Z.div_mod_to_equations; lia. }
    destruct (index_ok sector pos' ltac:(lia)) as [x ->].
    destruct (index_ok sector (pos' + 1) ltac:(lia)) as [y ->]. simpl.
    destruct (maskHeader pos' x y) as [dl dm].
    apply IH; [assumption| lia |].
    Z.div_mod_to_equations. lia.
Qed.

Lemma storeLane_ok (base : Z) (parity : list Z) (lane : Z) (r : Regs) :
  0 <= lane -> 0 <= base -> base + lane * 2 + 1 < len parity ->
  exists parity', storeLane base parity lane r = Ok parity'
                  /\ length parity' = length parity.
Proof.
  intros Hl Hb Hlen. destruct r as [[[r0l r0m] r1l] r1m]. unfold storeLane.
  destruct (store_ok parity (lane * 2) r1l ltac:(lia)) as (p1 & -> & L1). simpl.
  destruct (store_ok p1 (lane * 2 + 1) r1m ltac:(unfold len in *; lia)) as (p2 & -> & L2). simpl.
  destruct (store_ok p2 (base + lane * 2) r0l ltac:(unfold len in *; lia)) as (p3 & -> & L3). simpl.
  destruct (store_ok p3 (base + lane * 2 + 1) r0m ltac:(unfold len in *; lia)) as (p4 & -> & L4).
  exists p4. split; [reflexivity|congruence].
Qed.

Lemma Forall_seqZ (P : Z -> Prop) (lo n : Z) :
  (forall i, lo <= i < lo + n -> P i) -> Forall P (seqZ lo n).
Proof. intros H. apply Forall_forall. intros i Hi. apply H, elem_of_seqZ, Hi. Qed.

Lemma pParityLFSR_ok (sector : list Z) :
  len sector = 2064 -> exists p, pParityLFSR sector = Ok p /\ length p = 172%nat.
Proof.
  intros Hlen. unfold pParityLFSR. rewrite Hlen.
  change (negb (2064 =? 2064)) with false. cbv iota.
  apply (foldM_inv (fun col => 0 <= col < 43) (fun p => length p = 172%nat)).
  - intros p col Hcol Hp. unfold pColumn.
    destruct (pRows_ok sector 24 (2 * col) (0, 0, 0, 0) ltac:(lia) ltac:(lia)) as [r ->].
    simpl.
    destruct (storeLane_ok 86 p col r ltac:(lia) ltac:(lia) ltac:(unfold len; lia))
      as (p' & -> & L).
    exists p'. split; [reflexivity|congruence].
  - apply Forall_seqZ. lia.
  - reflexivity.
Qed.

Lemma qParityLFSR_ok (sector : list Z) :
  len sector = 2236 -> exists p, qParityLFSR sector = Ok p /\ length p = 104%nat.
Proof.
  intros Hlen. unfold qParityLFSR. rewrite Hlen.
  change (negb (2236 =? 2236)) with false. cbv iota.
  apply (foldM_inv (fun d => 0 <= d < 26) (fun p => length p = 104%nat)).
  - intros p d Hd Hp. unfold qDiagonal.
    destruct (qSteps_ok sector 43 (2 * 43 * d) (0, 0, 0, 0) Hlen ltac:(lia)
                ltac:(Z.div_mod_to_equations; lia)) as [r ->].
    simpl.
    destruct (storeLane_ok 52 p d r ltac:(lia) ltac:(lia) ltac:(unfold len; lia))
      as (p' & -> & L).
    exists p'. split; [reflexivity|congruence].
  - apply Forall_seqZ. lia.
  - reflexivity.
Qed.

(** C8. On an input of exactly 2064 (P) or 2236 (Q) bytes the parity
    functions return a block of 172 or 104 bytes, a function of the input
    alone; on an input of any other length they panic and return
    nothing. *)
Theorem parity_fixed_length (sector : list Z) :
  (len sector = 2064 -> exists p, pParityLFSR sector = Ok p /\ length p = 172%nat)
  /\ (len sector <> 2064 -> pParityLFSR sector = Err ErrPanic)
  /\ (len sector = 2236 -> exists q, qParityLFSR sector = Ok q /\ length q = 104%nat)
  /\ (len sector <> 2236 -> qParityLFSR sector = Err ErrPanic)
  /\ (forall sector', sector' = sector ->
        pParityLFSR sector' = pParityLFSR sector
        /\ qParityLFSR sector' = qParityLFSR sector).
Proof.
  split; [apply pParityLFSR_ok|].
  split.
  { intros Hne. unfold pParityLFSR.
    destruct (Z.eqb_spec (len sector) 2064); [contradiction|reflexivity]. }
  split; [apply qParityLFSR_ok|].
  split.
  { intros Hne. unfold qParityLFSR.
    destruct (Z.eqb_spec (len sector) 2236); [contradiction|reflexivity]. }
  intros sector' ->. split; reflexivity.
Qed.

(** A witness of C8: an all-zero input of 2064 bytes. *)
Lemma parity_fixed_length_witness :
  len (replicate 2064 0) = 2064
  /\ (exists p, pParityLFSR (replicate 2064 0) = Ok p /\ length p = 172%nat)
  /\ pParityLFSR (replicate 2064 0) = Ok (replicate 172 0)
  /\ qParityLFSR (replicate 2064 0) = Err ErrPanic.
Proof.
  assert (H : len (replicate 2064 0) = 2064) by (vm_compute; reflexivity).
  split; [exact H|]. split.
  - apply (parity_fixed_length (replicate 2064 0)). exact H.
  - split; vm_compute; reflexivity.
Defined.

(** ** Track list parser and validator *)

Lemma is_intb_spec z : is_intb z = true <-> is_int z.
Proof. unfold is_intb, is_int. lia. Qed.

Lemma scanLine_ints sc l :
  Forall track_int (scTracks sc) ->
  Forall track_int (scTracks (scanLine sc l)).
Proof.
  intros Ht. destruct l as [| |n| |fields]; simpl; try assumption.
  destruct (scInSection sc); simpl; [|assumption].
  destruct fields as [[[[num mode] start] end_]|]; simpl; [|assumption].
  destruct (is_intb num && is_intb mode && is_intb start && is_intb end_) eqn:E;
    [|assumption].
  simpl. apply Forall_app. split; [assumption|].
  apply andb_prop in E as [E H4]. apply andb_prop in E as [E H3].
  apply andb_prop in E as [H1 H2].
  apply Forall_cons. split; [|constructor].
  unfold track_int. simpl. rewrite <- !is_intb_spec. auto.
Qed.

Lemma scanLines_ints msb lines : Forall track_int (scTracks (scanLines msb lines)).
Proof.
  unfold scanLines.
  assert (H : Forall track_int (scTracks (mkScan [] 0 false msb))) by constructor.
  revert H. generalize (mkScan [] 0 false msb).
  induction lines as [|l lines IH]; intros sc H; simpl; [assumption|].
  apply IH, scanLine_ints, H.
Qed.

Lemma eqm_wrap a : eqm (wrap64 a) a.
Proof. apply wrap64_mod. Qed.

Lemma eqm_add a a' b b' : eqm a a' -> eqm b b' -> eqm (a + b) (a' + b').
Proof. unfold eqm. intros H1 H2. rewrite (Zplus_mod a), (Zplus_mod a'), H1, H2. reflexivity. Qed.

Lemma eqm_sub a a' b b' : eqm a a' -> eqm b b' -> eqm (a - b) (a' - b').
Proof. unfold eqm. intros H1 H2. rewrite (Zminus_mod a), (Zminus_mod a'), H1, H2. reflexivity. Qed.

Lemma eqm_mul a a' b b' : eqm a a' -> eqm b b' -> eqm (a * b) (a' * b').
Proof. unfold eqm. intros H1 H2. rewrite (Zmult_mod a), (Zmult_mod a'), H1, H2. reflexivity. Qed.

Lemma eqm_refl a : eqm a a.
Proof. reflexivity. Qed.

Lemma eqm_trans a b c : eqm a b -> eqm b c -> eqm a c.
Proof. unfold eqm. congruence. Qed.

Lemma addTrackSize_eqm acc t :
  eqm (addTrackSize acc t) (acc + Spec.sectorCount t * Spec.unitSize t).
Proof.
  unfold addTrackSize, Spec.sectorCount, Spec.unitSize, add64, sub64, mul64,
    binSector, pmfSector.
  destruct (Mode t =? 4);
    (eapply eqm_trans; [apply eqm_wrap|]);
    (apply eqm_add; [apply eqm_refl|]);
    (eapply eqm_trans; [apply eqm_wrap|]);
    (apply eqm_mul; [|apply eqm_refl]);
    (eapply eqm_trans; [apply eqm_wrap|]);
    (apply eqm_add; [|apply eqm_refl]);
    apply eqm_wrap.
Qed.

Lemma foldl_addTrackSize_eqm tracks : forall acc,
  eqm (foldl addTrackSize acc tracks) (acc + Spec.totalSize tracks).
Proof.
  induction tracks as [|t rest IH]; intros acc; simpl.
  - rewrite Z.add_0_r. apply eqm_refl.
  - eapply eqm_trans; [apply IH|].
    rewrite Z.add_assoc. apply eqm_add; [apply addTrackSize_eqm|apply eqm_refl].
Qed.

Lemma addTrackSize_int acc t : is_int (addTrackSize acc t).
Proof. unfold addTrackSize, add64. destruct (Mode t =? 4); apply wrap64_is_int. Qed.

Lemma foldl_addTrackSize_int tracks : forall acc,
  is_int acc -> is_int (foldl addTrackSize acc tracks).
Proof.
  induction tracks as [|t rest IH]; intros acc Hacc; simpl; [assumption|].
  apply IH, addTrackSize_int.
Qed.

Lemma expectedSize_wrap tracks : expectedSize tracks = wrap64 (Spec.totalSize tracks).
Proof.
  unfold expectedSize.
  rewrite <- (wrap64_id (foldl addTrackSize 0 tracks)).
  - apply wrap64_congr. apply (foldl_addTrackSize_eqm tracks 0).
  - apply foldl_addTrackSize_int. unfold is_int, minInt, maxInt. lia.
Qed.

Lemma sub64_pregap s e :
  is_int s -> is_int e -> e < s -> 0 <= sub64 (sub64 s e) 1 ->
  sub64 (sub64 s e) 1 = s - e - 1.
Proof.
  unfold is_int, minInt, maxInt. intros Hs He Hlt Hnn.
  assert (Heq : sub64 (sub64 s e) 1 = wrap64 (s - e - 1)).
  { unfold sub64. apply wrap64_congr.
    apply eqm_sub; [apply eqm_wrap|apply eqm_refl]. }
  rewrite Heq in *. revert Hnn. unfold wrap64.
  intros Hnn. Z.div_mod_to_equations. lia.
Qed.

Lemma sub64_pregap_nonneg s e :
  0 <= s <= maxInt -> 0 <= e <= maxInt -> sub64 (sub64 s e) 1 = s - e - 1.
Proof.
  unfold maxInt. intros Hs He.
  unfold sub64. rewrite (wrap64_id (s - e)) by int_lia.
  apply wrap64_id. unfold is_int, minInt, maxInt. lia.
Qed.

Lemma validateTrack_Ok i prev t t' :
  validateTrack i prev t = Ok t' ->
  track_int t -> (forall p, prev = Some p -> is_int (End p)) ->
  samePlace t t'
  /\ (Mode t = 2 \/ Mode t = 4) /\ Num t = i + 1 /\ Start t <= End t
  /\ (if i =? 0 then Pregap t' = 0
      else exists p, prev = Some p /\ Start t > End p
                     /\ Pregap t' = Start t - End p - 1 /\ Pregap t' >= 0).
Proof.
  unfold validateTrack, samePlace. intros H (Hn & Hm & Hs & He) Hp.
  destruct (Z.eqb_spec (Mode t) 2) as [M2|M2], (Z.eqb_spec (Mode t) 4) as [M4|M4];
    simpl in H; try discriminate;
    (destruct (Z.eqb_spec (Num t) (i + 1)) as [N|N]; simpl in H; [|discriminate]);
    (destruct (Z.gtb_spec (Start t) (End t)) as [G|G]; [discriminate|]);
    (destruct (Z.eqb_spec i 0) as [I0|I0];
     [ injection H as <-; simpl; repeat split; auto; lia |]);
    (destruct prev as [p|]; [|discriminate]);
    (destruct (Z.ltb_spec (sub64 (sub64 (Start t) (End p)) 1) 0) as [L|L]; [discriminate|]);
    (destruct (Z.leb_spec (Start t) (End p)) as [O|O]; [discriminate|]);
    injection H as <-; simpl;
    pose proof (sub64_pregap (Start t) (End p) Hs (Hp p eq_refl) O L) as Hpg;
    (repeat split; auto; try lia);
    exists p; repeat split; auto; lia.
Qed.

Lemma validateTrack_complete i prev t :
  (Mode t = 2 \/ Mode t = 4) -> Num t = i + 1 -> Start t <= End t ->
  0 <= Start t <= maxInt ->
  (i = 0 \/ exists p, prev = Some p /\ 0 <= End p <= maxInt /\ End p < Start t) ->
  exists t', validateTrack i prev t = Ok t'.
Proof.
  intros Hm Hn Hse Hs Hprev. unfold validateTrack.
  replace (negb (Mode t =? 2) && negb (Mode t =? 4)) with false by lia.
  replace (negb (Num t =? i + 1)) with false by lia.
  replace (Start t >? End t) with false by lia.
  destruct (Z.eqb_spec i 0) as [I0|I0]; [eauto|].
  destruct Hprev as [?|(p & -> & Hp & Hlt)]; [contradiction|].
  rewrite (sub64_pregap_nonneg (Start t) (End p) Hs Hp).
  replace (Start t - End p - 1 <? 0) with false by lia.
  replace (Start t <=? End p) with false by lia.
  eauto.
Qed.

Lemma validateFrom_Ok raw : forall i prev tracks,
  validateFrom i prev raw = Ok tracks ->
  0 <= i -> Forall track_int raw ->
  (forall p, prev = Some p -> is_int (End p)) ->
  Forall2 samePlace raw tracks
  /\ Spec.wellFormed i (prevEndOf i prev) raw = true
  /\ chained (if i =? 0 then None else prev) tracks.
Proof.
  induction raw as [|t rest IH]; intros i prev tracks H Hi Hint Hprev; simpl in H.
  - injection H as <-. repeat split; constructor.
  - inversion Hint as [|? ? Ht Hrest]; subst.
    destruct (validateTrack i prev t) as [t'|e] eqn:Ev; simpl in H; [|discriminate].
    destruct (validateFrom (i + 1) (Some t') rest) as [rest'|e] eqn:Er; simpl in H;
      [|discriminate].
    injection H as <-.
    destruct (validateTrack_Ok _ _ _ _ Ev Ht Hprev) as (Hsame & Hm & Hn & Hse & Hpg).
    assert (HEnd : End t' = End t) by (rewrite Hsame; reflexivity).
    destruct (IH (i + 1) (Some t') rest' Er ltac:(lia) Hrest) as (HF & Hwf & Hch).
    { intros p [= <-]. rewrite HEnd. apply Ht. }
    unfold prevEndOf in Hwf.
    replace (i + 1 =? 0) with false in Hwf, Hch by lia. simpl in Hwf. rewrite HEnd in Hwf.
    split; [constructor; assumption|]. split.
    + simpl. rewrite Hwf.
      replace ((Mode t =? 2) || (Mode t =? 4)) with true by lia.
      replace (Num t =? i + 1) with true by lia.
      replace (Start t <=? End t) with true by lia.
      unfold prevEndOf. destruct (Z.eqb_spec i 0); [reflexivity|].
      destruct Hpg as (p & -> & Hgt & _). simpl.
      replace (End p <? Start t) with true by lia. reflexivity.
    + simpl. split; [|assumption].
      assert (HStart : Start t' = Start t) by (rewrite Hsame; reflexivity).
      destruct (Z.eqb_spec i 0); [assumption|].
      destruct Hpg as (p & -> & Hgt & Hp1 & Hp2). rewrite HStart. auto.
Qed.

Lemma validateFrom_complete raw : forall i prev,
  0 <= i ->
  Forall (fun t => 0 <= Start t <= maxInt /\ 0 <= End t <= maxInt) raw ->
  (i = 0 \/ exists p, prev = Some p /\ 0 <= End p <= maxInt) ->
  Spec.wellFormed i (prevEndOf i prev) raw = true ->
  exists tracks, validateFrom i prev raw = Ok tracks.
Proof.
  induction raw as [|t rest IH]; intros i prev Hi Hnn Hprev Hwf; simpl.
  - eauto.
  - inversion Hnn as [|? ? [Hs He] Hrest]; subst.
    wellFormed_cons Hwf Hw1 Hw2 Hw3 Hw4 Hw5.
    destruct (validateTrack_complete i prev t) as [t' Ev]; try lia.
    { destruct Hprev as [?|(p & -> & Hp)]; [left; assumption|].
      destruct (Z.eqb_spec i 0) as [I0|I0]; [left; assumption|].
      right. exists p. unfold prevEndOf in Hw4.
      replace (i =? 0) with false in Hw4 by lia. simpl in Hw4.
      repeat split; auto; lia. }
    rewrite Ev. simpl.
    assert (HEnd : End t' = End t).
    { unfold validateTrack in Ev.
      repeat match type of Ev with
             | (if ?c then _ else _) = _ => destruct c; try discriminate
             | match ?p with Some _ => _ | None => _ end = _ => destruct p; try discriminate
             end; injection Ev as <-; reflexivity. }
    destruct (IH (i + 1) (Some t')) as [rest' Er]; try lia; try assumption.
    { right. exists t'. rewrite HEnd. split; [reflexivity|lia]. }
    { unfold prevEndOf. replace (i + 1 =? 0) with false by lia. simpl.
      rewrite HEnd. assumption. }
    rewrite Er. simpl. eauto.
Qed.

Lemma wellFormed_true_inv raw : forall i pe,
  Spec.wellFormed i pe raw = true ->
  (forall t, t ∈ raw -> Mode t = 2 \/ Mode t = 4)
  /\ (forall (k : nat) t, raw !! k = Some t -> Num t = i + Z.of_nat k + 1)
  /\ (forall t, t ∈ raw -> Start t <= End t)
  /\ (forall e t, pe = Some e -> raw !! 0%nat = Some t -> e < Start t)
  /\ (forall (k : nat) p t, raw !! k = Some p -> raw !! S k = Some t -> End p < Start t).
Proof.
  induction raw as [|t rest IH]; intros i pe Hwf.
  - repeat split; intros; try discriminate;
      match goal with H : _ ∈ [] |- _ => inversion H end.
  - wellFormed_cons Hwf Hw1 Hw2 Hw3 Hw4 Hw5.
    destruct (IH _ _ Hw5) as (I1 & I2 & I3 & I4 & I5).
    split; [|split; [|split; [|split]]].
    + intros x Hx. apply elem_of_cons in Hx as [->|Hx]; [lia|auto].
    + intros [|k] x Hx; simpl in Hx.
      * injection Hx as <-. lia.
      * rewrite (I2 k x Hx). lia.
    + intros x Hx. apply elem_of_cons in Hx as [->|Hx]; [lia|auto].
    + intros e x -> [= <-]. lia.
    + intros [|k] p x Hp Hx; simpl in Hp, Hx.
      * injection Hp as <-. apply (I4 (End t) x eq_refl Hx).
      * apply (I5 k p x Hp Hx).
Qed.

Lemma wellFormed_false_inv raw : forall i pe,
  Spec.wellFormed i pe raw = false ->
  (exists t, t ∈ raw /\ Mode t <> 2 /\ Mode t <> 4)
  \/ (exists (k : nat) t, raw !! k = Some t /\ Num t <> i + Z.of_nat k + 1)
  \/ (exists t, t ∈ raw /\ Start t > End t)
  \/ (exists e t, pe = Some e /\ raw !! 0%nat = Some t /\ Start t <= e)
  \/ (exists (k : nat) p t, raw !! k = Some p /\ raw !! S k = Some t /\ Start t <= End p).
Proof.
  induction raw as [|t rest IH]; intros i pe Hwf; simpl in Hwf; [discriminate|].
  destruct (Z.eq_dec (Mode t) 2) as [M2|M2], (Z.eq_dec (Mode t) 4) as [M4|M4];
    try (exfalso; lia).
  3: { left. exists t. split; [apply elem_of_cons; auto|auto]. }
  all: replace ((Mode t =? 2) || (Mode t =? 4)) with true in Hwf by lia; simpl in Hwf.
  all: destruct (Z.eqb_spec (Num t) (i + 1)) as [N|N]; simpl in Hwf;
    [|right; left; exists 0%nat, t; split; [reflexivity|simpl; lia]].
  all: destruct (Z.leb_spec (Start t) (End t)) as [HS|HS]; simpl in Hwf;
    [|right; right; left; exists t; split; [apply elem_of_cons; auto|lia]].
  all: assert (Hpe : (exists e, pe = Some e /\ Start t <= e)
                     \/ Spec.wellFormed (i + 1) (Some (End t)) rest = false)
    by (destruct pe as [e|];
        [destruct (Z.ltb_spec e (Start t)); simpl in Hwf;
         [right; assumption|left; exists e; split; [reflexivity|lia]]
        | right; assumption]).
  all: destruct Hpe as [(e & -> & He)|Hrest];
    [right; right; right; left; exists e, t; auto|].
  all: destruct (IH _ _ Hrest) as [(x & Hx & Hm)|[(k & x & Hx & Hn)|[(x & Hx & Hs)|
         [(e & x & [= <-] & Hx & Hs)|(k & p & x & Hp & Hx & Hs)]]]].
  all: try solve [left; exists x; split; [apply elem_of_cons; auto|assumption]].
  all: try solve [right; left; exists (S k), x; split; [exact Hx|lia]].
  all: try solve [right; right; left; exists x; split; [apply elem_of_cons; auto|assumption]].
  all: try solve [right; right; right; right; exists 0%nat, t, x; auto].
  all: try solve [right; right; right; right; exists (S k), p, x; auto].
Qed.

Lemma samePlace_fields r t :
  samePlace r t -> Num t = Num r /\ Mode t = Mode r /\ Start t = Start r /\ End t = End r.
Proof. unfold samePlace. intros ->. auto. Qed.

Lemma samePlace_totalSize raw tracks :
  Forall2 samePlace raw tracks -> Spec.totalSize tracks = Spec.totalSize raw.
Proof.
  induction 1 as [|r t raw tracks H HF IH]; simpl; [reflexivity|].
  destruct (samePlace_fields _ _ H) as (_ & Hm & Hs & He).
  unfold Spec.sectorCount, Spec.unitSize. rewrite IH, Hm, Hs, He. reflexivity.
Qed.

Lemma samePlace_wellFormed raw tracks :
  Forall2 samePlace raw tracks ->
  forall i pe, Spec.wellFormed i pe tracks = Spec.wellFormed i pe raw.
Proof.
  induction 1 as [|r t raw tracks H HF IH]; intros i pe; simpl; [reflexivity|].
  destruct (samePlace_fields _ _ H) as (Hn & Hm & Hs & He).
  rewrite IH, Hn, Hm, Hs, He. reflexivity.
Qed.

Lemma chained_lookup tracks : forall prev,
  chained prev tracks ->
  forall (k : nat) p t, tracks !! k = Some p -> tracks !! S k = Some t ->
  Start t > End p /\ Pregap t = Start t - End p - 1 /\ Pregap t >= 0.
Proof.
  induction tracks as [|x rest IH]; intros prev Hch k p t Hp Ht; [discriminate|].
  destruct Hch as [_ Hch].
  destruct k as [|k]; simpl in Hp, Ht.
  - injection Hp as <-. destruct rest as [|y rest]; [discriminate|].
    injection Ht as <-. destruct Hch as [Hy _]. exact Hy.
  - apply (IH _ Hch k p t Hp Ht).
Qed.

Lemma wellFormed_totalSize_pos tracks : forall i pe,
  Spec.wellFormed i pe tracks = true -> tracks <> [] -> 0 < Spec.totalSize tracks.
Proof.
  induction tracks as [|t rest IH]; intros i pe Hwf Hne; [contradiction|].
  wellFormed_cons Hwf Hw1 Hw2 Hw3 Hw4 Hw5.
  simpl. unfold Spec.sectorCount, Spec.unitSize.
  assert (0 <= Spec.totalSize rest).
  { destruct rest as [|u rest']; [simpl; lia|].
    apply Z.lt_le_incl, (IH _ _ Hw5). discriminate. }
  destruct (Mode t =? 4); nia.
Qed.

Lemma len_nil_iff {A} (l : list A) : len l = 0 <-> l = [].
Proof. unfold len. destruct l; simpl; split; intros; try discriminate; try reflexivity; lia. Qed.

Lemma validate_Ok declared raw pmfLen tracks :
  validate declared raw pmfLen = Ok tracks ->
  Forall track_int raw ->
  raw <> [] /\ ~ (declared > 0 /\ declared <> len raw)
  /\ Forall2 samePlace raw tracks
  /\ Spec.wellFormed 0 None raw = true
  /\ chained None tracks
  /\ wrap64 (Spec.totalSize raw) = pmfLen.
Proof.
  unfold validate. intros H Hint.
  destruct (Z.eqb_spec (len raw) 0) as [L|L]; [discriminate|].
  destruct ((declared >? 0) && negb (len raw =? declared)) eqn:C; [discriminate|].
  destruct (validateFrom 0 None raw) as [tracks'|e] eqn:V; simpl in H; [|discriminate].
  destruct (Z.eqb_spec (expectedSize tracks') pmfLen) as [E|E]; simpl in H; [|discriminate].
  injection H as <-.
  destruct (validateFrom_Ok raw 0 None tracks' V ltac:(lia) Hint ltac:(discriminate))
    as (HF & Hwf & Hch).
  split; [rewrite <- len_nil_iff; exact L|].
  split; [lia|].
  split; [exact HF|]. split; [exact Hwf|]. split; [exact Hch|].
  rewrite <- (samePlace_totalSize _ _ HF), <- expectedSize_wrap. exact E.
Qed.

Lemma validate_complete declared raw pmfLen :
  raw <> [] -> ~ (declared > 0 /\ declared <> len raw) ->
  Forall (fun t => 0 <= Start t <= maxInt /\ 0 <= End t <= maxInt) raw ->
  Spec.wellFormed 0 None raw = true ->
  wrap64 (Spec.totalSize raw) = pmfLen ->
  exists tracks, validate declared raw pmfLen = Ok tracks.
Proof.
  intros Hne Hc Hnn Hwf Hsize. unfold validate.
  destruct (Z.eqb_spec (len raw) 0) as [L|L]; [apply len_nil_iff in L; contradiction|].
  replace ((declared >? 0) && negb (len raw =? declared)) with false by lia.
  destruct (validateFrom_complete raw 0 None ltac:(lia) Hnn ltac:(auto) Hwf) as [tracks V].
  rewrite V. simpl.
  assert (HF : Forall2 samePlace raw tracks).
  { clear -V. revert V. generalize 0 (@None Track). revert tracks.
    induction raw as [|t rest IH]; intros tracks i prev V; simpl in V.
    - injection V as <-. constructor.
    - destruct (validateTrack i prev t) as [t'|e] eqn:Ev; simpl in V; [|discriminate].
      destruct (validateFrom (i + 1) (Some t') rest) as [rest'|e] eqn:Er; simpl in V;
        [|discriminate].
      injection V as <-. constructor; [|eapply IH; eassumption].
      unfold validateTrack in Ev.
      repeat match type of Ev with
             | (if ?c then _ else _) = _ => destruct c; try discriminate
             | match ?p with Some _ => _ | None => _ end = _ => destruct p; try discriminate
             end; injection Ev as <-; reflexivity. }
  rewrite expectedSize_wrap, (samePlace_totalSize _ _ HF), Hsize, Z.eqb_refl. simpl.
  eauto.
Qed.

Lemma parseFF_Ok msb lines readErr pmfLen tracks :
  snd (parseFF msb lines readErr pmfLen) = Ok tracks ->
  readErr = false
  /\ validate (scNumExpected (scanLines msb lines)) (scTracks (scanLines msb lines)) pmfLen
     = Ok tracks.
Proof.
  unfold parseFF. cbn [snd]. destruct readErr; [discriminate|]. auto.
Qed.

(** X27.  When parsing fails.  For a descriptor whose track lines carry
    non-negative [Start] and [End] and whose aggregate expected size is in
    the range of [int], [parseFF] returns an error if and only if: the
    scanner reports an error; or no track line was parsed; or the declared
    count is positive and differs from the number of parsed lines; or some
    track has a mode other than 2 and 4; or some track's [Num] differs
    from its 1-based position; or some track has [Start > End]; or some
    track starts at or before the end of the track before it; or the
    aggregate expected size differs from the length of the payload.  After
    a failed parse [main] returns before the output file is created. *)
Theorem parseFF_fails_iff (audioMSB : bool) (lines : list Line) (readErr : bool)
    (pmfLen : Z) :
  let sc := scanLines audioMSB lines in
  Forall (fun t => 0 <= Start t /\ 0 <= End t) (scTracks sc) ->
  minInt <= Spec.totalSize (scTracks sc) <= maxInt ->
  ((exists e, snd (parseFF audioMSB lines readErr pmfLen) = Err e)
   <-> readErr = true \/ Spec.parseFails (scNumExpected sc) (scTracks sc) pmfLen)
  /\ (forall pmf0, (exists e, snd (parseFF false lines readErr (len pmf0)) = Err e) ->
                   fst (main lines readErr pmf0) = None).
Proof.
  intros sc Hnn Hsz. split.
  2: { intros pmf0 [e He]. unfold main.
       destruct (parseFF false lines readErr (len pmf0)) as [msb r]. simpl in He. subst r.
       reflexivity. }
  unfold parseFF. fold sc. cbn [snd].
  destruct readErr.
  { split; [intros _; left; reflexivity|intros _; eauto]. }
  transitivity (Spec.parseFails (scNumExpected sc) (scTracks sc) pmfLen).
  2: { split; [intros H; right; exact H|intros [H|H]; [discriminate|exact H]]. }
  pose proof (scanLines_ints audioMSB lines) as Hint. fold sc in Hint.
  set (raw := scTracks sc) in *. set (declared := scNumExpected sc).
  assert (Hnn' : Forall (fun t => 0 <= Start t <= maxInt /\ 0 <= End t <= maxInt) raw).
  { apply Forall_forall. intros t Ht.
    pose proof (proj1 (Forall_forall _ _) Hnn t Ht) as [H1 H2].
    pose proof (proj1 (Forall_forall _ _) Hint t Ht) as (_ & _ & H3 & H4).
    int_lia. }
  assert (Hw : wrap64 (Spec.totalSize raw) = Spec.totalSize raw) by (apply wrap64_id, Hsz).
  unfold Spec.parseFails. split.
  - intros [e He].
    destruct raw as [|t0 raw0] eqn:Eraw; [left; reflexivity|].
    rewrite <- Eraw in *.
    assert (Hne : raw <> []) by (rewrite Eraw; discriminate).
    destruct (decide (declared > 0 /\ declared <> len raw)) as [C|C]; [right; left; exact C|].
    destruct (Spec.wellFormed 0 None raw) eqn:Hwf.
    + do 6 right. intros Hsize.
      destruct (validate_complete declared raw pmfLen Hne C Hnn' Hwf ltac:(congruence))
        as [tracks Hv].
      congruence.
    + right. right.
      destruct (wellFormed_false_inv raw 0 None Hwf)
        as [H|[(k & t & Hk & Hn)|[H|[(e' & t & [=] & _)|H]]]].
      * left. exact H.
      * right. left. exists k, t. split; [exact Hk|lia].
      * right. right. left. exact H.
      * right. right. right. left. exact H.
  - intros Hfail.
    destruct (validate declared raw pmfLen) as [tracks|e] eqn:Hv; [|eauto].
    exfalso.
    destruct (validate_Ok _ _ _ _ Hv Hint) as (Hne & Hc & HF & Hwf & Hch & Hsize).
    destruct (wellFormed_true_inv raw 0 None Hwf) as (I1 & I2 & I3 & _ & I5).
    destruct Hfail as [H|[H|[(t & Ht & Hm)|[(k & t & Hk & Hn)|[(t & Ht & Hs)|
                      [(k & p & t & Hp & Ht & Hs)|H]]]]]].
    + contradiction.
    + contradiction.
    + specialize (I1 t Ht). lia.
    + specialize (I2 k t Hk). lia.
    + specialize (I3 t Ht). lia.
    + specialize (I5 k p t Hp Ht). lia.
    + congruence.
Qed.

(** X28.  The table of a successful parse.  A track table returned by
    [parseFF] is not empty; [Num] is the 1-based position, [Start <= End],
    every later track starts after the end of the one before it with
    [Pregap = Start - End(previous) - 1 >= 0], the first track has pregap
    0 and every mode is 2 or 4; its total size is positive, and it is the
    length of the payload unless it exceeds the largest [int]. *)
Theorem parseFF_invariants (audioMSB : bool) (lines : list Line) (readErr : bool)
    (pmfLen : Z) (tracks : list Track) :
  snd (parseFF audioMSB lines readErr pmfLen) = Ok tracks ->
  tracks <> []
  /\ Spec.invariants tracks
  /\ (forall t, tracks !! 0%nat = Some t -> Pregap t = 0)
  /\ (forall t, t ∈ tracks -> Mode t = 2 \/ Mode t = 4)
  /\ 0 < Spec.totalSize tracks
  /\ (Spec.totalSize tracks <= maxInt -> Spec.totalSize tracks = pmfLen).
Proof.
  intros Hv. apply parseFF_Ok in Hv as [_ Hv].
  pose proof (scanLines_ints audioMSB lines) as Hint.
  destruct (validate_Ok _ _ _ _ Hv Hint) as (Hne & Hc & HF & Hwf & Hch & Hsize).
  rewrite <- (samePlace_wellFormed _ _ HF) in Hwf.
  rewrite <- (samePlace_totalSize _ _ HF) in Hsize.
  destruct (wellFormed_true_inv tracks 0 None Hwf) as (I1 & I2 & I3 & _ & I5).
  assert (Hne' : tracks <> []).
  { intros ->. apply Forall2_nil_inv_r in HF. contradiction. }
  pose proof (wellFormed_totalSize_pos tracks 0 None Hwf Hne') as Hpos.
  split; [exact Hne'|]. split.
  { unfold Spec.invariants. split; [|split].
    - intros k t Hk. rewrite (I2 k t Hk). lia.
    - exact I3.
    - intros k p t Hp Ht. apply (chained_lookup tracks None Hch k p t Hp Ht). }
  split.
  { intros t Ht. destruct tracks as [|t0 rest]; [discriminate|].
    injection Ht as <-. apply Hch. }
  split; [exact I1|]. split; [exact Hpos|].
  intros Hmax. rewrite <- Hsize. symmetry. apply wrap64_id.
  int_lia.
Qed.

(** A witness of X27: the overlap scenario is rejected. *)
Lemma parseFF_fails_iff_witness :
  Spec.parseFails (scNumExpected (scanLines false overlapDescriptor))
                  (scTracks (scanLines false overlapDescriptor)) (6 * 2352 + 6 * 2056).
Proof.
  destruct (parseFF_fails_iff false overlapDescriptor false (6 * 2352 + 6 * 2056))
    as [[H _] _].
  - change (scTracks (scanLines false overlapDescriptor))
      with [mkTrack 1 4 0 5 0; mkTrack 2 2 5 10 0].
    repeat constructor; simpl; lia.
  - split; vm_compute; discriminate.
  - destruct H as [H|H]; [|discriminate|exact H].
    exists (ErrNegativePregap 2 (-1)). vm_compute. reflexivity.
Defined.

(** A witness of X28: the scenario of the one-sector gap. *)
Lemma parseFF_invariants_witness :
  Spec.invariants [gapTrack1; gapTrack2]
  /\ Spec.totalSize [gapTrack1; gapTrack2] = 11 * 2056 + 9 * 2352.
Proof.
  destruct (parseFF_invariants false gapDescriptor false (11 * 2056 + 9 * 2352)
              [gapTrack1; gapTrack2]) as (_ & H & _ & _ & _ & H2).
  - vm_compute. reflexivity.
  - split; [exact H|]. apply H2. vm_compute. discriminate.
Defined.

Lemma hugeDescriptor_parse :
  parseFF false hugeDescriptor false 0 = (false, Ok [mkTrack 1 4 0 (2 ^ 60 - 1) 0]).
Proof. vm_compute. reflexivity. Qed.

(** C4.  The size test is defeated by overflow.  The descriptor with the
    one track line [1 4 0 1152921504606846975], a track of [2^60] audio
    sectors, is read to its end and accepted for the empty payload: the
    aggregate expected size [2^60 * 2352] differs from the length 0 of the
    payload, one of the conditions under which parsing is to fail, but the
    sum the validator compares is 0 in 64-bit arithmetic.  [main] goes on
    to create the output file, and the encoder stops at the first sector
    for want of payload. *)
Lemma parseFF_size_overflow :
  parseFF false hugeDescriptor false 0 = (false, Ok [mkTrack 1 4 0 (2 ^ 60 - 1) 0])
  /\ Spec.parseFails (scNumExpected (scanLines false hugeDescriptor))
                     (scTracks (scanLines false hugeDescriptor)) 0
  /\ Spec.totalSize (scTracks (scanLines false hugeDescriptor)) = 2 ^ 60 * 2352
  /\ expectedSize (scTracks (scanLines false hugeDescriptor)) = 0
  /\ main hugeDescriptor false [] = (Some [], Some (ErrTruncated 2352 0)).
Proof.
  split; [exact hugeDescriptor_parse|].
  split; [do 6 right; vm_compute; discriminate|].
  split; [reflexivity|]. split; reflexivity.
Qed.

(** With the first track at the smallest [int], the pregap of the second
    one wraps to a negative number although the tracks do not overlap and
    the sizes match: below zero the test of the pregap is not the test
    [Start(i) <= End(i-1)]. *)
Lemma parseFF_negative_block :
  snd (parseFF false negativeDescriptor false (2 * 2056))
  = Err (ErrNegativePregap 2 minInt)
  /\ ~ Spec.parseFails (scNumExpected (scanLines false negativeDescriptor))
                        (scTracks (scanLines false negativeDescriptor)) (2 * 2056).
Proof.
  split; [vm_compute; reflexivity|].
  change (scNumExpected (scanLines false negativeDescriptor)) with 0.
  change (scTracks (scanLines false negativeDescriptor))
    with [mkTrack 1 2 (- 2 ^ 63) (- 2 ^ 63) 0; mkTrack 2 2 1 1 0].
  set (raw := [mkTrack 1 2 (- 2 ^ 63) (- 2 ^ 63) 0; mkTrack 2 2 1 1 0]).
  assert (Hwf : Spec.wellFormed 0 None raw = true) by reflexivity.
  destruct (wellFormed_true_inv raw 0 None Hwf) as (I1 & I2 & I3 & _ & I5).
  intros [H|[H|[(t & Ht & Hm)|[(k & t & Hk & Hn)|[(t & Ht & Hs)|
           [(k & p & t & Hp & Ht & Hs)|H]]]]]].
  - discriminate.
  - lia.
  - specialize (I1 t Ht). lia.
  - specialize (I2 k t Hk). lia.
  - specialize (I3 t Ht). lia.
  - specialize (I5 k p t Hp Ht). lia.
  - vm_compute in H. apply H. reflexivity.
Qed.

(** C5.  The table of an overflowing size.  The successful parse of the
    same descriptor against the empty payload returns a table that meets
    the invariants of numbering and order, but whose total expected
    payload size [2^60 * 2352] is not the length 0 of the payload: the sum
    the validator compared with it had wrapped around to 0. *)
Lemma parseFF_oversized_table :
  exists tracks,
    snd (parseFF false hugeDescriptor false 0) = Ok tracks
    /\ Spec.invariants tracks
    /\ Spec.totalSize tracks = 2 ^ 60 * 2352
    /\ wrap64 (Spec.totalSize tracks) = 0
    /\ Spec.totalSize tracks <> 0.
Proof.
  exists [mkTrack 1 4 0 (2 ^ 60 - 1) 0].
  split; [rewrite hugeDescriptor_parse; reflexivity|].
  split.
  { unfold Spec.invariants. split; [|split].
    - intros [|k] t Hk; [injection Hk as <-; reflexivity|discriminate].
    - intros t Ht. apply list_elem_of_singleton in Ht as ->. vm_compute. discriminate.
    - intros [|k] p t Hp Ht; discriminate. }
  split; [reflexivity|]. split; [reflexivity|]. vm_compute. discriminate.
Qed.

(** ** Sector encoder *)

(** list helpers *)
Lemma copy_exact {A} (lo hi : nat) (src pre rest : list A) :
  length pre = lo -> length src = (hi - lo)%nat -> (length src <= length rest)%nat ->
  copy lo hi src (pre ++ rest) = pre ++ src ++ drop (length src) rest.
Proof.
  intros Hpre Hsrc Hrest. unfold copy.
  rewrite <- Hsrc, Nat.min_id.
  rewrite take_app_length' by (symmetry; exact Hpre).
  rewrite firstn_all.
  rewrite drop_app_ge by lia.
  do 3 f_equal. lia.
Qed.

Lemma copy_all {A} (n : nat) (src dst : list A) :
  length src = n -> length dst = n -> copy 0 n src dst = src.
Proof.
  intros Hs Hd. unfold copy. rewrite Nat.sub_0_r, Hs, Nat.min_id.
  rewrite <- Hs at 1. rewrite firstn_all. simpl.
  rewrite drop_ge by lia. apply app_nil_r.
Qed.

Lemma slice_mid {A} (n m : nat) (a b c : list A) :
  length a = n -> length b = m -> take m (drop n (a ++ b ++ c)) = b.
Proof.
  intros Ha Hb. rewrite drop_app_length' by (symmetry; exact Ha).
  apply take_app_length'. symmetry. exact Hb.
Qed.

Lemma length_empty : length empty = 2352%nat.
Proof. apply length_replicate. Qed.

Lemma writeHeader_eq t lba (sec : list Z) :
  (16 <= length sec)%nat ->
  writeHeader t lba sec =
    syncPattern
    ++ [toBCD (lbaToMSF lba).1.1; toBCD (lbaToMSF lba).1.2; toBCD (lbaToMSF lba).2;
        byte (Mode t)]
    ++ drop 16 sec.
Proof.
  intros Hlen. unfold writeHeader.
  destruct (lbaToMSF lba) as [[m s] f]. simpl fst; simpl snd.
  do 16 (destruct sec as [|? sec]; [simpl in Hlen; lia|]).
  reflexivity.
Qed.

Lemma length_writeHeader t lba (sec : list Z) :
  (16 <= length sec)%nat -> length (writeHeader t lba sec) = length sec.
Proof.
  intros Hlen. rewrite writeHeader_eq by exact Hlen.
  rewrite !length_app, length_drop. simpl. lia.
Qed.

Lemma slice_ok {A} (s : list A) (lo hi : Z) :
  0 <= lo <= hi -> hi <= len s ->
  slice s lo hi = Ok (take (Z.to_nat (hi - lo)) (drop (Z.to_nat lo) s)).
Proof.
  intros H1 H2. unfold slice.
  replace ((0 <=? lo) && (lo <=? hi) && (hi <=? len s)) with true by lia.
  reflexivity.
Qed.

Lemma assembleData_eq t lba (raw sec0 : list Z) :
  length raw = 2056%nat -> length sec0 = 2352%nat ->
  exists P Q,
    pParityLFSR (header t lba ++ raw ++ computeEDC raw) = Ok P
    /\ length P = 172%nat
    /\ qParityLFSR (header t lba ++ raw ++ computeEDC raw ++ P) = Ok Q
    /\ length Q = 104%nat
    /\ assembleData t lba raw sec0
       = Ok (syncPattern ++ header t lba ++ raw ++ computeEDC raw ++ P ++ Q).
Proof.
  intros Hraw Hsec.
  assert (Hedc : length (computeEDC raw) = 4%nat) by reflexivity.
  assert (Hhdr : length (header t lba) = 4%nat) by reflexivity.
  assert (Hsync : length syncPattern = 12%nat) by reflexivity.
  destruct (pParityLFSR_ok (header t lba ++ raw ++ computeEDC raw)) as (P & HP & LP).
  { unfold len. rewrite !length_app, Hraw, Hedc, Hhdr. reflexivity. }
  destruct (qParityLFSR_ok (header t lba ++ raw ++ computeEDC raw ++ P)) as (Q & HQ & LQ).
  { unfold len. rewrite !length_app, Hraw, Hedc, Hhdr, LP. reflexivity. }
  exists P, Q. repeat (split; [assumption|]).
  unfold assembleData.
  rewrite (slice_ok raw 0 8) by (unfold len; rewrite ?Hraw; lia).
  rewrite (slice_ok raw 8 (len raw)) by (unfold len; rewrite ?Hraw; lia).
  cbn [bind].
  change (Z.to_nat (8 - 0)) with 8%nat. change (Z.to_nat 0) with 0%nat.
  change (Z.to_nat 8) with 8%nat. rewrite drop_0.
  replace (Z.to_nat (len raw - 8)) with (length (drop 8 raw))
    by (rewrite length_drop; unfold len; lia).
  rewrite firstn_all.
  set (sub := take 8 raw). set (data := drop 8 raw).
  assert (Hsub : length sub = 8%nat) by (subst sub; rewrite length_take; lia).
  assert (Hdata : length data = 2048%nat) by (subst data; rewrite length_drop; lia).
  assert (Hsd : sub ++ data = raw) by apply take_drop.
  rewrite writeHeader_eq by lia. fold (header t lba).
  set (r16 := drop 16 sec0).
  assert (L16 : length r16 = 2336%nat) by (subst r16; rewrite length_drop; lia).
  (* subheader *)
  rewrite (app_assoc syncPattern (header t lba) r16).
  rewrite (copy_exact 16 24 sub (syncPattern ++ header t lba) r16)
    by len_lia.
  rewrite Hsub. set (r24 := drop 8 r16).
  assert (L24 : length r24 = 2328%nat) by (subst r24; rewrite length_drop; lia).
  (* user data *)
  rewrite (app_assoc (syncPattern ++ header t lba) sub r24).
  rewrite (copy_exact 24 2072 data ((syncPattern ++ header t lba) ++ sub) r24)
    by len_lia.
  rewrite Hdata. set (r2072 := drop 2048 r24).
  assert (L2072 : length r2072 = 280%nat) by (subst r2072; rewrite length_drop; lia).
  (* EDC over bytes 16..2071 *)
  assert (E1 : take 2056 (drop 16 (((syncPattern ++ header t lba) ++ sub) ++ data ++ r2072))
               = raw).
  { replace (((syncPattern ++ header t lba) ++ sub) ++ data ++ r2072)
      with ((syncPattern ++ header t lba) ++ raw ++ r2072)
      by (rewrite <- Hsd, <- !app_assoc; reflexivity).
    apply slice_mid; rewrite ?length_app; lia. }
  rewrite E1.
  rewrite (app_assoc ((syncPattern ++ header t lba) ++ sub) data r2072).
  rewrite (copy_exact 2072 2076 (computeEDC raw)
             (((syncPattern ++ header t lba) ++ sub) ++ data) r2072)
    by len_lia.
  rewrite Hedc. set (r2076 := drop 4 r2072).
  assert (L2076 : length r2076 = 276%nat) by (subst r2076; rewrite length_drop; lia).
  (* P parity over bytes 12..2075 *)
  assert (E2 : take 2064 (drop 12 ((((syncPattern ++ header t lba) ++ sub) ++ data)
                                   ++ computeEDC raw ++ r2076))
               = header t lba ++ raw ++ computeEDC raw).
  { replace ((((syncPattern ++ header t lba) ++ sub) ++ data) ++ computeEDC raw ++ r2076)
      with (syncPattern ++ (header t lba ++ raw ++ computeEDC raw) ++ r2076)
      by (rewrite <- Hsd, <- !app_assoc; reflexivity).
    apply slice_mid; rewrite ?length_app; lia. }
  rewrite E2, HP. cbn [bind].
  rewrite (app_assoc (((syncPattern ++ header t lba) ++ sub) ++ data) (computeEDC raw) r2076).
  rewrite (copy_exact 2076 2248 P
             ((((syncPattern ++ header t lba) ++ sub) ++ data) ++ computeEDC raw) r2076)
    by len_lia.
  rewrite LP. set (r2248 := drop 172 r2076).
  assert (L2248 : length r2248 = 104%nat) by (subst r2248; rewrite length_drop; lia).
  (* Q parity over bytes 12..2247 *)
  assert (E3 : take 2236 (drop 12 (((((syncPattern ++ header t lba) ++ sub) ++ data)
                                    ++ computeEDC raw) ++ P ++ r2248))
               = header t lba ++ raw ++ computeEDC raw ++ P).
  { replace (((((syncPattern ++ header t lba) ++ sub) ++ data) ++ computeEDC raw)
             ++ P ++ r2248)
      with (syncPattern ++ (header t lba ++ raw ++ computeEDC raw ++ P) ++ r2248)
      by (rewrite <- Hsd, <- !app_assoc; reflexivity).
    apply slice_mid; rewrite ?length_app; lia. }
  rewrite E3, HQ. cbn [bind].
  rewrite (app_assoc ((((syncPattern ++ header t lba) ++ sub) ++ data) ++ computeEDC raw)
             P r2248).
  rewrite (copy_exact 2248 2352 Q
             (((((syncPattern ++ header t lba) ++ sub) ++ data) ++ computeEDC raw) ++ P) r2248)
    by len_lia.
  rewrite LQ, drop_ge by lia.
  rewrite app_nil_r, <- Hsd, <- !app_assoc. reflexivity.
Qed.

Lemma length_swapPairs_aux (l : list Z) :
  length (swapPairs l) = length l
  /\ forall a, length (swapPairs (a :: l)) = length (a :: l).
Proof.
  induction l as [|b l [IH1 IH2]].
  - split; reflexivity.
  - split; [apply IH2|]. intros a. simpl. rewrite IH1. reflexivity.
Qed.

Lemma length_swapPairs (l : list Z) : length (swapPairs l) = length l.
Proof. apply length_swapPairs_aux. Qed.

Lemma length_writeBack (lo : Z) (data buf : list Z) :
  0 <= lo -> (Z.to_nat lo + length data <= length buf)%nat ->
  length (writeBack lo data buf) = length buf.
Proof.
  intros Hlo Hle. unfold writeBack.
  rewrite !length_app, length_take, length_drop. lia.
Qed.

Lemma drop_writeBack (lo : Z) (data buf : list Z) :
  0 <= lo -> (Z.to_nat lo + length data <= length buf)%nat ->
  drop (Z.to_nat lo + length data) (writeBack lo data buf)
  = drop (Z.to_nat lo + length data) buf.
Proof.
  intros Hlo Hle. unfold writeBack.
  rewrite app_assoc.
  rewrite drop_app_length'; [reflexivity|].
  rewrite length_app, length_take. lia.
Qed.

Lemma add64_small a b : 0 <= a -> 0 <= b -> a + b <= maxInt -> add64 a b = a + b.
Proof.
  intros. unfold add64. apply wrap64_id. int_lia.
Qed.

Lemma unitSize_cases t :
  (Mode t = 4 /\ Spec.unitSize t = 2352) \/ (Mode t <> 4 /\ Spec.unitSize t = 2056).
Proof. unfold Spec.unitSize. destruct (Z.eqb_spec (Mode t) 4); auto. Qed.

Lemma unitSize_pos t : 0 < Spec.unitSize t.
Proof. destruct (unitSize_cases t) as [[_ ->]|[_ ->]]; lia. Qed.

Lemma pregapSector_bytes t st s :
  length (sector st) = 2352%nat ->
  pregapSector t st s
  = mkEnc (pmf st) (Spec.pregapBytes t s) (offset st) (out st ++ Spec.pregapBytes t s).
Proof.
  intros Hsec. unfold pregapSector, Spec.pregapBytes.
  rewrite (copy_all 2352 empty (sector st)) by (apply length_empty || exact Hsec).
  reflexivity.
Qed.

Lemma length_pregapBytes t s : length (Spec.pregapBytes t s) = 2352%nat.
Proof.
  unfold Spec.pregapBytes. destruct (Mode t =? 2); [|apply length_empty].
  rewrite length_writeHeader; rewrite length_empty; [reflexivity|lia].
Qed.

Lemma remaining_Start t : remaining t (Start t) = Z.max 0 (Spec.sectorCount t).
Proof.
  unfold remaining, Spec.sectorCount. destruct (Z.leb_spec (Start t) (End t)); lia.
Qed.

Lemma payloadBytes_cons t rest :
  payloadBytes (t :: rest)
  = Z.max 0 (Spec.sectorCount t) * Spec.unitSize t + payloadBytes rest.
Proof. reflexivity. Qed.

Lemma payloadBytes_nonneg tracks : 0 <= payloadBytes tracks.
Proof.
  induction tracks as [|u rest IH]; [unfold payloadBytes; simpl; lia|].
  rewrite payloadBytes_cons. pose proof (unitSize_pos u). nia.
Qed.

Lemma encodeTracks_app msb (l1 l2 : list Track) : forall st,
  encodeTracks msb (l1 ++ l2) st
  = match encodeTracks msb l1 st with
    | (st1, None) => encodeTracks msb l2 st1
    | (st1, Some e) => (st1, Some e)
    end.
Proof.
  induction l1 as [|t l1 IH]; intros st; simpl; [reflexivity|].
  destruct (encodeTrack msb t st) as [st1 [e|]]; [reflexivity|apply IH].
Qed.

Lemma buildBin_state msb pmf0 tracks :
  fst (buildBin msb pmf0 tracks) = fst (encodeTracks msb tracks (initEnc pmf0)).
Proof.
  unfold buildBin.
  destruct (encodeTracks msb tracks (initEnc pmf0)) as [st [e|]]; [reflexivity|].
  destruct (negb (offset st =? len (pmf st))); reflexivity.
Qed.

Section Pass.

(** One pass of the encoder, with the flag [audioMSB], over a payload
    [pmf0] that a slice can hold. *)
Variable audioMSB : bool.
Variable pmf0 : list Z.
Hypothesis Hfit : payload_fits pmf0.

Lemma drop_drop_Inv (st : Enc) (k : nat) :
  Inv pmf0 st ->
  drop (Z.to_nat (offset st) + k) (pmf st) = drop (Z.to_nat (offset st) + k) pmf0.
Proof.
  intros (_ & _ & _ & Hd). rewrite <- !drop_drop, Hd. reflexivity.
Qed.

Lemma payloadSector_ok t s st :
  Inv pmf0 st ->
  offset st + Spec.unitSize t <= len pmf0 ->
  exists st',
    payloadSector audioMSB t s st = (st', None)
    /\ Inv pmf0 st'
    /\ offset st' = offset st + Spec.unitSize t
    /\ out st' = out st ++ Spec.sectorBytes audioMSB t s
                   (take (Z.to_nat (Spec.unitSize t)) (drop (Z.to_nat (offset st)) pmf0))
    /\ length (Spec.sectorBytes audioMSB t s
                 (take (Z.to_nat (Spec.unitSize t)) (drop (Z.to_nat (offset st)) pmf0)))
       = 2352%nat
    /\ (audioMSB = false \/ Mode t <> 4 -> pmf st' = pmf st).
Proof.
  intros HInv Hroom.
  pose proof HInv as (Hsec & Hoff & Hlen & Hdrop).
  pose proof Hfit as Hf. unfold payload_fits, binSector in Hf.
  unfold payloadSector, Spec.sectorBytes.
  rewrite (copy_all 2352 empty (sector st)) by (apply length_empty || exact Hsec).
  assert (Hl : len (pmf st) = len pmf0) by (unfold len; rewrite Hlen; reflexivity).
  destruct (unitSize_cases t) as [[Hm Hu]|[Hm Hu]]; rewrite Hu in *.
  - (* audio *)
    replace (Mode t =? 4) with true by lia.
    unfold audioSector, binSector.
    rewrite add64_small by lia. rewrite Hl.
    replace (offset st + 2352 >? len pmf0) with false by lia.
    rewrite slice_ok by lia.
    replace (offset st + 2352 - offset st) with 2352 by lia.
    rewrite Hdrop.
    set (chunk := take (Z.to_nat 2352) (drop (Z.to_nat (offset st)) pmf0)).
    assert (Hchunk : length chunk = 2352%nat).
    { subst chunk. rewrite length_take, length_drop. unfold len in *. lia. }
    destruct audioMSB.
    + eexists. split; [reflexivity|]. simpl.
      assert (Hsw : length (swapPairs chunk) = 2352%nat)
        by (rewrite length_swapPairs; exact Hchunk).
      split.
      { unfold Inv. simpl. split; [apply length_empty|]. split; [lia|].
        split.
        - rewrite length_writeBack; [exact Hlen|lia|]. unfold len in *. lia.
        - replace (Z.to_nat (offset st + 2352))
            with (Z.to_nat (offset st) + length (swapPairs chunk))%nat by lia.
          rewrite drop_writeBack; [|lia|unfold len in *; lia].
          rewrite Hsw. apply drop_drop_Inv. exact HInv. }
      split; [reflexivity|]. split; [reflexivity|]. split; [exact Hsw|].
      intros [?|?]; [discriminate|contradiction].
    + eexists. split; [reflexivity|]. simpl.
      split.
      { unfold Inv. simpl. split; [apply length_empty|]. split; [lia|].
        split; [exact Hlen|].
        replace (Z.to_nat (offset st + 2352)) with (Z.to_nat (offset st) + 2352)%nat by lia.
        apply drop_drop_Inv. exact HInv. }
      split; [reflexivity|]. split; [reflexivity|]. split; [exact Hchunk|].
      reflexivity.
  - (* data *)
    replace (Mode t =? 4) with false by lia.
    unfold dataSector, pmfSector.
    rewrite add64_small by lia. rewrite Hl.
    replace (offset st + 2056 >? len pmf0) with false by lia.
    rewrite slice_ok by lia. cbn [bind].
    replace (offset st + 2056 - offset st) with 2056 by lia.
    rewrite Hdrop.
    set (chunk := take (Z.to_nat 2056) (drop (Z.to_nat (offset st)) pmf0)).
    assert (Hchunk : length chunk = 2056%nat).
    { subst chunk. rewrite length_take, length_drop. unfold len in *. lia. }
    destruct (assembleData_eq t (add64 s 150) chunk empty Hchunk length_empty)
      as (P & Q & HP & LP & HQ & LQ & Heq).
    rewrite Heq.
    assert (Hlsec : length (syncPattern ++ header t (add64 s 150) ++ chunk
                            ++ computeEDC chunk ++ P ++ Q) = 2352%nat).
    { rewrite !length_app, Hchunk, LP, LQ. reflexivity. }
    eexists. split; [reflexivity|]. simpl.
    split.
    { unfold Inv. simpl. split; [exact Hlsec|]. split; [lia|].
      split; [exact Hlen|].
      replace (Z.to_nat (offset st + 2056)) with (Z.to_nat (offset st) + 2056)%nat by lia.
      apply drop_drop_Inv. exact HInv. }
    split; [reflexivity|]. split; [reflexivity|]. split; [exact Hlsec|].
    reflexivity.
Qed.

Lemma payloadSector_truncated t s st :
  Inv pmf0 st ->
  len pmf0 < offset st + Spec.unitSize t ->
  exists st',
    payloadSector audioMSB t s st
    = (st', Some (ErrTruncated (offset st + Spec.unitSize t) (len pmf0)))
    /\ Inv pmf0 st'
    /\ offset st' = offset st /\ out st' = out st /\ pmf st' = pmf st.
Proof.
  intros HInv Hroom.
  pose proof HInv as (Hsec & Hoff & Hlen & Hdrop).
  pose proof Hfit as Hf. unfold payload_fits, binSector in Hf.
  unfold payloadSector.
  rewrite (copy_all 2352 empty (sector st)) by (apply length_empty || exact Hsec).
  assert (Hl : len (pmf st) = len pmf0) by (unfold len; rewrite Hlen; reflexivity).
  destruct (unitSize_cases t) as [[Hm Hu]|[Hm Hu]]; rewrite Hu in *.
  - replace (Mode t =? 4) with true by lia.
    unfold audioSector, binSector.
    rewrite add64_small by lia. rewrite Hl.
    replace (offset st + 2352 >? len pmf0) with true by lia.
    eexists. split; [reflexivity|]. simpl.
    split; [|auto].
    unfold Inv. simpl. split; [apply length_empty|auto].
  - replace (Mode t =? 4) with false by lia.
    unfold dataSector, pmfSector.
    rewrite add64_small by lia. rewrite Hl.
    replace (offset st + 2056 >? len pmf0) with true by lia.
    eexists. split; [reflexivity|]. simpl.
    split; [|auto].
    unfold Inv. simpl. split; [apply length_empty|auto].
Qed.

Lemma payloadLoop_spec t :
  is_int (End t) ->
  forall (fuel : nat) s st,
    Inv pmf0 st -> is_int s -> len pmf0 - offset st < Z.of_nat fuel ->
    exists st' e,
      payloadLoop fuel audioMSB t s st = (st', e)
      /\ Inv pmf0 st' /\ offset st <= offset st'
      /\ (audioMSB = false \/ Mode t <> 4 -> pmf st' = pmf st)
      /\ match e with
         | None =>
             offset st' = offset st + remaining t s * Spec.unitSize t
             /\ out st' = out st ++ Spec.payloadImage (Z.to_nat (remaining t s)) audioMSB t s
                                      (drop (Z.to_nat (offset st)) pmf0)
         | Some (ErrTruncated need avail) =>
             avail = len pmf0 /\ need = offset st' + Spec.unitSize t /\ avail < need
             /\ (End t < maxInt -> len pmf0 < offset st + remaining t s * Spec.unitSize t)
         | Some _ => False
         end.
Proof.
  intros HEnd fuel.
  induction fuel as [|fuel IH]; intros s st HInv Hs Hfuel.
  { destruct HInv as (_ & Hoff & _). lia. }
  pose proof (unitSize_pos t) as Hu.
  simpl. unfold remaining.
  destruct (Z.leb_spec s (End t)) as [Hle|Hgt].
  2: { exists st, None. split; [reflexivity|]. split; [exact HInv|]. split; [lia|].
       split; [reflexivity|]. split; [lia|]. simpl. rewrite app_nil_r. reflexivity. }
  destruct (Z_le_gt_dec (offset st + Spec.unitSize t) (len pmf0)) as [Hroom|Hroom].
  - destruct (payloadSector_ok t s st HInv Hroom)
      as (st1 & E1 & HInv1 & Hoff1 & Hout1 & Hlen1 & Hpmf1).
    rewrite E1.
    destruct (IH (add64 s 1) st1 HInv1 (wrap64_is_int _) ltac:(lia))
      as (st' & e & E2 & HInv' & Hmono & Hpmf' & He).
    exists st', e. split; [exact E2|]. split; [exact HInv'|]. split; [lia|].
    split. { intros Hc. rewrite (Hpmf' Hc). apply Hpmf1, Hc. }
    unfold remaining in He.
    destruct (Z.eq_dec s maxInt) as [Hmax|Hmax].
    + (* the counter wraps: the loop cannot end normally *)
      assert (Hwrap : add64 s 1 = minInt) by (subst s; reflexivity).
      rewrite Hwrap in He.
      unfold is_int in HEnd.
      replace (minInt <=? End t) with true in He by lia.
      destruct HInv' as (_ & Hoff' & _).
      pose proof Hfit as Hf. unfold payload_fits, binSector in Hf.
      destruct HInv1 as (_ & Hoff1' & _).
      destruct e as [[]|]; try contradiction.
      * destruct He as (-> & -> & Hlt & Hclosed). repeat split; try lia.
      * destruct He as [He _]. exfalso. unfold minInt, maxInt in *. nia.
    + assert (Hs1 : add64 s 1 = s + 1).
      { unfold add64. apply wrap64_id. int_lia. }
      rewrite Hs1 in He.
      replace (if s + 1 <=? End t then End t - (s + 1) + 1 else 0) with (End t - s) in He
        by (destruct (Z.leb_spec (s + 1) (End t)); lia).
      destruct e as [[]|]; try contradiction.
      * destruct He as (-> & -> & Hlt & Hclosed). repeat split; try lia.
        all: try (intros HE; specialize (Hclosed HE); nia).
      * destruct He as [Hoff' Hout']. split; [nia|].
        rewrite Hout', Hout1, <- app_assoc. f_equal.
        replace (Z.to_nat (End t - s + 1)) with (S (Z.to_nat (End t - s))) by lia.
        simpl. f_equal. f_equal.
        rewrite drop_drop, Hoff1. f_equal.
        destruct HInv as (_ & Hoff0 & _). lia.
  - destruct (payloadSector_truncated t s st HInv ltac:(lia))
      as (st1 & E1 & HInv1 & Hoff1 & Hout1 & Hpmf1).
    rewrite E1. exists st1, (Some (ErrTruncated (offset st + Spec.unitSize t) (len pmf0))).
    split; [reflexivity|]. split; [exact HInv1|]. split; [lia|].
    split; [intros _; exact Hpmf1|].
    repeat split; try lia. intros _. nia.
Qed.

Lemma pregapLoop_spec t st :
  Inv pmf0 st ->
  Inv pmf0 (pregapLoop t st)
  /\ offset (pregapLoop t st) = offset st
  /\ pmf (pregapLoop t st) = pmf st
  /\ out (pregapLoop t st) = out st ++ Spec.pregapImage t.
Proof.
  unfold pregapLoop, Spec.pregapImage.
  generalize (seqZ 0 (Pregap t)). intros l. revert st.
  induction l as [|s l IH]; intros st HInv; simpl.
  - rewrite app_nil_r. auto.
  - pose proof HInv as (Hsec & Hoff & Hlen & Hdrop).
    rewrite (pregapSector_bytes t st s Hsec).
    destruct (IH (mkEnc (pmf st) (Spec.pregapBytes t s) (offset st)
                        (out st ++ Spec.pregapBytes t s))) as (I1 & I2 & I3 & I4).
    { unfold Inv. simpl. split; [apply length_pregapBytes|auto]. }
    split; [exact I1|]. split; [exact I2|]. split; [exact I3|].
    rewrite I4. simpl. rewrite <- app_assoc. reflexivity.
Qed.

Lemma encodeTrack_spec t st :
  track_int t -> Inv pmf0 st ->
  exists st' e,
    encodeTrack audioMSB t st = (st', e)
    /\ Inv pmf0 st' /\ offset st <= offset st'
    /\ (audioMSB = false \/ Mode t <> 4 -> pmf st' = pmf st)
    /\ match e with
       | None =>
           offset st' = offset st + Z.max 0 (Spec.sectorCount t) * Spec.unitSize t
           /\ out st' = out st ++ Spec.pregapImage t
                        ++ Spec.payloadImage (Z.to_nat (Spec.sectorCount t)) audioMSB t (Start t)
                             (drop (Z.to_nat (offset st)) pmf0)
       | Some (ErrTruncated need avail) =>
           avail = len pmf0 /\ need = offset st' + Spec.unitSize t /\ avail < need
           /\ (End t < maxInt ->
               len pmf0 < offset st + Z.max 0 (Spec.sectorCount t) * Spec.unitSize t)
       | Some _ => False
       end.
Proof.
  intros (_ & _ & HS & HE) HInv. unfold encodeTrack.
  destruct (pregapLoop_spec t st HInv) as (HInv1 & Hoff1 & Hpmf1 & Hout1).
  pose proof HInv1 as (_ & Hoff & Hlen & _).
  destruct (payloadLoop_spec t HE (S (length (pmf (pregapLoop t st))))
              (Start t) (pregapLoop t st) HInv1 HS)
    as (st' & e & E & HInv' & Hmono & Hpmf' & He).
  { rewrite Hlen. unfold len. lia. }
  exists st', e. split; [exact E|]. split; [exact HInv'|]. split; [lia|].
  split. { intros Hc. rewrite (Hpmf' Hc). exact Hpmf1. }
  rewrite remaining_Start, Hoff1 in He.
  destruct e as [[]|]; try contradiction.
  - exact He.
  - destruct He as [He1 He2]. split; [exact He1|].
    rewrite He2, Hout1, <- app_assoc. do 2 f_equal.
    f_equal. lia.
Qed.

Lemma Inv_initEnc : Inv pmf0 (initEnc pmf0).
Proof.
  unfold Inv, initEnc. cbn [sector offset pmf out].
  split; [apply length_replicate|].
  split; [unfold len; lia|]. auto.
Qed.

Lemma encodeTracks_spec :
  forall tracks st,
    Forall track_int tracks -> Inv pmf0 st ->
    exists st' e,
      encodeTracks audioMSB tracks st = (st', e)
      /\ Inv pmf0 st' /\ offset st <= offset st'
      /\ (audioMSB = false \/ Forall (fun t => Mode t <> 4) tracks -> pmf st' = pmf st)
      /\ match e with
         | None =>
             offset st' = offset st + payloadBytes tracks
             /\ out st' = out st ++ Spec.image audioMSB tracks (drop (Z.to_nat (offset st)) pmf0)
         | Some (ErrTruncated need avail) =>
             avail = len pmf0 /\ avail < need
             /\ (need = offset st' + 2352 \/ need = offset st' + 2056)
             /\ (Forall (fun t => End t < maxInt) tracks ->
                 len pmf0 < offset st + payloadBytes tracks)
         | Some _ => False
         end.
Proof.
  intros tracks.
  induction tracks as [|t rest IH]; intros st Hint HInv;
    cbn [encodeTracks Spec.image].
  - exists st, None. split; [reflexivity|]. split; [exact HInv|]. split; [lia|].
    split; [reflexivity|]. split; [unfold payloadBytes; simpl; lia|].
    rewrite app_nil_r. reflexivity.
  - rewrite payloadBytes_cons.
    inversion Hint as [|? ? Ht Hrest]; subst.
    destruct (encodeTrack_spec t st Ht HInv)
      as (st1 & e1 & E1 & HInv1 & Hmono1 & Hpmf1 & He1).
    rewrite E1.
    pose proof (unitSize_pos t) as Hu.
    destruct e1 as [e1|].
    + exists st1, (Some e1). split; [reflexivity|]. split; [exact HInv1|].
      split; [lia|]. split.
      { intros [Hc|Hc]; apply Hpmf1; [left; exact Hc|right].
        inversion Hc; assumption. }
      destruct e1; try contradiction.
      destruct He1 as (-> & -> & Hlt & Hclosed).
      split; [reflexivity|]. split; [lia|].
      split. { destruct (unitSize_cases t) as [[_ ->]|[_ ->]]; auto. }
      intros HF. inversion HF as [|? ? HE HF']; subst. specialize (Hclosed HE).
      pose proof (payloadBytes_nonneg rest). lia.
    + destruct He1 as [Hoff1 Hout1].
      destruct (IH st1 Hrest HInv1) as (st' & e & E & HInv' & Hmono & Hpmf' & He).
      exists st', e. split; [exact E|]. split; [exact HInv'|]. split; [lia|].
      split.
      { intros Hc. rewrite Hpmf'.
        - apply Hpmf1. destruct Hc as [Hc|Hc]; [left; exact Hc|right].
          inversion Hc; assumption.
        - destruct Hc as [Hc|Hc]; [left; exact Hc|right]. inversion Hc; assumption. }
      destruct e as [[]|]; try contradiction.
      * destruct He as (-> & Hlt & Hneed & Hclosed).
        split; [reflexivity|]. split; [exact Hlt|]. split; [exact Hneed|].
        intros HF. inversion HF as [|? ? HE HF']; subst. specialize (Hclosed HF'). lia.
      * destruct He as [Hoff' Hout']. split; [rewrite Hoff', Hoff1; ring|].
        rewrite Hout', Hout1, <- !app_assoc. do 3 f_equal.
        rewrite drop_drop. f_equal.
        destruct HInv as (_ & Hoff0 & _). rewrite Hoff1.
        destruct (Z.max_spec 0 (Spec.sectorCount t)) as [[Hc ->]|[Hc ->]].
        { assert (0 <= Spec.sectorCount t * Spec.unitSize t) by nia.
          generalize dependent (Spec.sectorCount t * Spec.unitSize t). intros. f_equal. lia. }
        { assert (Spec.sectorCount t * Spec.unitSize t <= 0) by nia.
          generalize dependent (Spec.sectorCount t * Spec.unitSize t). intros. f_equal. lia. }
Qed.

Lemma buildBin_spec tracks :
  Forall track_int tracks ->
  exists st e,
    buildBin audioMSB pmf0 tracks = (st, e)
    /\ Inv pmf0 st
    /\ match e with
       | None =>
           payloadBytes tracks = len pmf0 /\ offset st = len pmf0
           /\ out st = Spec.image audioMSB tracks pmf0
       | Some (ErrNotConsumed r) =>
           payloadBytes tracks < len pmf0 /\ offset st = payloadBytes tracks
           /\ r = len pmf0 - offset st
           /\ out st = Spec.image audioMSB tracks pmf0
           /\ encodeTracks audioMSB tracks (initEnc pmf0) = (st, None)
       | Some (ErrTruncated need avail) =>
           avail = len pmf0 /\ avail < need
           /\ (need = offset st + 2352 \/ need = offset st + 2056)
           /\ (Forall (fun t => End t < maxInt) tracks -> len pmf0 < payloadBytes tracks)
           /\ encodeTracks audioMSB tracks (initEnc pmf0) = (st, e)
       | Some _ => False
       end.
Proof.
  intros Hint. unfold buildBin.
  destruct (encodeTracks_spec tracks (initEnc pmf0) Hint Inv_initEnc)
    as (st & e & E & HInv & Hmono & Hpmf & He).
  rewrite E. change (offset (initEnc pmf0)) with 0 in *.
  change (out (initEnc pmf0)) with (@nil Z) in *.
  change (Z.to_nat 0) with 0%nat in *. rewrite drop_0 in He.
  destruct e as [e|].
  - exists st, (Some e). split; [reflexivity|]. split; [exact HInv|].
    destruct e; try contradiction.
    destruct He as (H1 & H2 & H3 & H4). repeat split; auto.
  - destruct He as [Hoff Hout]. simpl in Hout.
    pose proof HInv as (_ & Hrange & Hlen & _).
    assert (Hl : len (pmf st) = len pmf0) by (unfold len; rewrite Hlen; reflexivity).
    rewrite Hl.
    destruct (Z.eqb_spec (offset st) (len pmf0)) as [Heq|Hne]; simpl.
    + exists st, None. split; [reflexivity|]. split; [exact HInv|].
      repeat split; auto; lia.
    + exists st, (Some (ErrNotConsumed (sub64 (len pmf0) (offset st)))).
      split; [reflexivity|]. split; [exact HInv|].
      pose proof Hfit as Hf. unfold payload_fits, binSector in Hf.
      repeat split; auto; try lia.
      unfold sub64. apply wrap64_id. int_lia.
Qed.

(** The cursor after the first [k] tracks is not beyond the cursor
    after all of them. *)
Lemma encodeTracks_prefix tracks (k : nat) :
  Forall track_int tracks ->
  0 <= offset (fst (encodeTracks audioMSB (take k tracks) (initEnc pmf0)))
    <= offset (fst (encodeTracks audioMSB tracks (initEnc pmf0))).
Proof.
  intros Hint.
  rewrite <- (take_drop k tracks) at 3. rewrite encodeTracks_app.
  destruct (encodeTracks_spec (take k tracks) (initEnc pmf0)
              (Forall_take _ k _ Hint) Inv_initEnc)
    as (st1 & e1 & E1 & HInv1 & Hmono1 & _).
  rewrite E1. change (offset (initEnc pmf0)) with 0 in Hmono1.
  destruct e1 as [e1|]; [simpl; lia|].
  destruct (encodeTracks_spec (drop k tracks) st1 (Forall_drop _ k _ Hint) HInv1)
    as (st2 & e2 & E2 & _ & Hmono2 & _).
  rewrite E2. simpl. lia.
Qed.

End Pass.

(** The payload buffer is only written by the swap. *)
Lemma payloadSector_keeps msb t s st :
  msb = false \/ Mode t <> 4 -> pmf (payloadSector msb t s st).1 = pmf st.
Proof.
  intros Hc. unfold payloadSector.
  destruct (Z.eqb_spec (Mode t) 4) as [Hm|Hm].
  - destruct Hc as [->|Hc]; [|contradiction].
    unfold audioSector.
    destruct (add64 (offset st) binSector >? len (pmf st)); [reflexivity|].
    destruct (slice (pmf st) (offset st) (add64 (offset st) binSector)); reflexivity.
  - unfold dataSector.
    destruct (add64 (offset st) pmfSector >? len (pmf st)); [reflexivity|].
    destruct (bind _ _); reflexivity.
Qed.

Lemma payloadLoop_keeps msb t (fuel : nat) : forall s st,
  msb = false \/ Mode t <> 4 -> pmf (payloadLoop fuel msb t s st).1 = pmf st.
Proof.
  induction fuel as [|fuel IH]; intros s st Hc; simpl; [reflexivity|].
  destruct (s <=? End t); [|reflexivity].
  pose proof (payloadSector_keeps msb t s st Hc) as Hk.
  destruct (payloadSector msb t s st) as [st1 [e|]]; simpl in *; [exact Hk|].
  rewrite IH by exact Hc. exact Hk.
Qed.

Lemma pregapLoop_keeps t st : pmf (pregapLoop t st) = pmf st.
Proof.
  unfold pregapLoop. generalize (seqZ 0 (Pregap t)). intros l. revert st.
  induction l as [|s l IH]; intros st; simpl; [reflexivity|].
  rewrite IH. reflexivity.
Qed.

Lemma encodeTracks_keeps msb tracks : forall st,
  msb = false \/ Forall (fun t => Mode t <> 4) tracks ->
  pmf (encodeTracks msb tracks st).1 = pmf st.
Proof.
  induction tracks as [|t rest IH]; intros st Hc; simpl; [reflexivity|].
  assert (Hc1 : msb = false \/ Mode t <> 4).
  { destruct Hc as [Hc|Hc]; [left; exact Hc|right; inversion Hc; assumption]. }
  assert (Hc2 : msb = false \/ Forall (fun t => Mode t <> 4) rest).
  { destruct Hc as [Hc|Hc]; [left; exact Hc|right; inversion Hc; assumption]. }
  assert (Hk : pmf (encodeTrack msb t st).1 = pmf st).
  { unfold encodeTrack. rewrite payloadLoop_keeps by exact Hc1. apply pregapLoop_keeps. }
  destruct (encodeTrack msb t st) as [st1 [e|]]; simpl in *; [exact Hk|].
  rewrite IH by exact Hc2. exact Hk.
Qed.

Lemma buildBin_keeps msb pmf0 tracks :
  msb = false \/ Forall (fun t => Mode t <> 4) tracks ->
  pmf (buildBin msb pmf0 tracks).1 = pmf0.
Proof.
  intros Hc. unfold buildBin.
  pose proof (encodeTracks_keeps msb tracks (initEnc pmf0) Hc) as Hk.
  destruct (encodeTracks msb tracks (initEnc pmf0)) as [st [e|]]; simpl in *; [exact Hk|].
  destruct (negb (offset st =? len (pmf st))); exact Hk.
Qed.

(** lengths of the image *)
Lemma length_sectorBytes msb t s (chunk : list Z) :
  length chunk = Z.to_nat (Spec.unitSize t) ->
  length (Spec.sectorBytes msb t s chunk) = 2352%nat.
Proof.
  intros Hlen. unfold Spec.sectorBytes.
  destruct (unitSize_cases t) as [[Hm Hu]|[Hm Hu]]; rewrite Hu in Hlen.
  - replace (Mode t =? 4) with true by lia.
    destruct msb; [rewrite length_swapPairs|]; rewrite Hlen; reflexivity.
  - replace (Mode t =? 4) with false by lia.
    destruct (assembleData_eq t (add64 s 150) chunk empty) as (P & Q & _ & LP & _ & LQ & ->).
    { rewrite Hlen. reflexivity. }
    { apply length_empty. }
    rewrite !length_app, Hlen, LP, LQ. reflexivity.
Qed.

Lemma length_payloadImage msb t (n : nat) : forall s (data : list Z),
  Z.of_nat n * Spec.unitSize t <= len data ->
  len (Spec.payloadImage n msb t s data) = 2352 * Z.of_nat n.
Proof.
  induction n as [|n IH]; intros s data Hlen; [reflexivity|].
  cbn [Spec.payloadImage]. unfold len in *.
  assert (Hchunk : length (take (Z.to_nat (Spec.unitSize t)) data)
                   = Z.to_nat (Spec.unitSize t)).
  { rewrite length_take. destruct (unitSize_cases t) as [[_ Hu]|[_ Hu]]; rewrite Hu in *; lia. }
  rewrite length_app, (length_sectorBytes _ _ _ _ Hchunk), Nat2Z.inj_add.
  rewrite IH.
  - change (Z.of_nat 2352) with 2352. lia.
  - rewrite length_drop.
    destruct (unitSize_cases t) as [[_ Hu]|[_ Hu]]; rewrite Hu in *; lia.
Qed.

Lemma length_pregapImage t : len (Spec.pregapImage t) = 2352 * Z.max 0 (Pregap t).
Proof.
  unfold Spec.pregapImage, len.
  replace (Z.max 0 (Pregap t)) with (Z.of_nat (length (seqZ 0 (Pregap t))))
    by (rewrite length_seqZ; lia).
  generalize (seqZ 0 (Pregap t)). intros l.
  induction l as [|s l IH]; [reflexivity|].
  cbn [fmap list_fmap concat length]. rewrite length_app, length_pregapBytes, Nat2Z.inj_add.
  change (Z.of_nat 2352) with 2352. lia.
Qed.

Lemma slice_at {A} (n m : nat) (a b c l : list A) :
  l = a ++ b ++ c -> length a = n -> length b = m -> take m (drop n l) = b.
Proof. intros ->. apply slice_mid. Qed.

Lemma payloadBytes_totalSize tracks :
  Forall (fun t => Start t <= End t) tracks -> payloadBytes tracks = Spec.totalSize tracks.
Proof.
  induction 1 as [|t rest Ht _ IH]; [reflexivity|].
  rewrite payloadBytes_cons, IH. simpl. unfold Spec.sectorCount.
  rewrite Z.max_r by lia. reflexivity.
Qed.

Lemma Inv_self st :
  length (sector st) = 2352%nat -> 0 <= offset st <= len (pmf st) -> Inv (pmf st) st.
Proof. intros. unfold Inv. auto. Qed.

(** C3.  The cursor and the two errors of the encoder.  A sector step taken
    in a state whose cursor lies within the payload either moves the
    cursor forward by the chunk of the track (2352 bytes for an audio
    sector, 2056 for a data sector) or fails with the truncation error and
    leaves the cursor where it is, and it fails exactly when the chunk
    exceeds the bytes that remain.  A pass ends with the cursor within the
    payload, not before the place it had after any number of leading
    tracks, and without error, with a truncation error, or with the
    unconsumed-input error; the last one exactly when all tracks were
    emitted and the cursor differs from the length of the payload.  For a
    table with [Start <= End < maxInt] in every track the outcome is
    decided by the total size of the table: truncation when the payload is
    shorter, unconsumed input when it is longer, success when they are
    equal. *)
Theorem cursor_and_errors (audioMSB : bool) (pmf0 : list Z) (tracks : list Track) :
  payload_fits pmf0 -> Forall track_int tracks ->
  (forall t s st,
     length (sector st) = 2352%nat -> 0 <= offset st <= len (pmf st) ->
     payload_fits (pmf st) ->
     exists st' e,
       payloadSector audioMSB t s st = (st', e)
       /\ offset st <= offset st' <= len (pmf st)
       /\ ((exists need avail, e = Some (ErrTruncated need avail))
           <-> len (pmf st) - offset st < Spec.unitSize t)
       /\ (e = None <-> Spec.unitSize t <= len (pmf st) - offset st)
       /\ (e = None -> offset st' = offset st + Spec.unitSize t)
       /\ (e <> None ->
           e = Some (ErrTruncated (offset st + Spec.unitSize t) (len (pmf st)))
           /\ offset st' = offset st))
  /\ exists st e,
       buildBin audioMSB pmf0 tracks = (st, e)
       /\ 0 <= offset st <= len pmf0
       /\ (e = None
           \/ (exists need, e = Some (ErrTruncated need (len pmf0)) /\ len pmf0 < need)
           \/ e = Some (ErrNotConsumed (len pmf0 - offset st)))
       /\ ((exists r, e = Some (ErrNotConsumed r))
           <-> exists st1, encodeTracks audioMSB tracks (initEnc pmf0) = (st1, None)
                           /\ offset st1 <> len pmf0)
       /\ (e = None -> offset st = len pmf0)
       /\ (forall k : nat,
             0 <= offset (fst (encodeTracks audioMSB (take k tracks) (initEnc pmf0)))
               <= offset st)
       /\ (Forall (fun t => Start t <= End t < maxInt) tracks ->
           ((exists need avail, e = Some (ErrTruncated need avail))
            <-> len pmf0 < Spec.totalSize tracks)
           /\ ((exists r, e = Some (ErrNotConsumed r)) <-> Spec.totalSize tracks < len pmf0)
           /\ (e = None <-> Spec.totalSize tracks = len pmf0)).
Proof.
  intros Hfit Hint. split.
  - intros t s st Hsec Hoff Hfit'.
    pose proof (Inv_self st Hsec Hoff) as HInv.
    pose proof (unitSize_pos t) as Hu.
    destruct (Z_le_gt_dec (offset st + Spec.unitSize t) (len (pmf st))) as [Hroom|Hroom].
    + destruct (payloadSector_ok audioMSB (pmf st) Hfit' t s st HInv Hroom)
        as (st' & E & HInv' & Hoff' & _).
      exists st', None. split; [exact E|]. split; [lia|]. split.
      { split; [intros (? & ? & [=])|lia]. }
      split; [split; [lia|reflexivity]|]. split; [intros _; exact Hoff'|].
      intros Hne. contradiction.
    + destruct (payloadSector_truncated audioMSB (pmf st) Hfit' t s st HInv ltac:(lia))
        as (st' & E & HInv' & Hoff' & _).
      eexists st', _. split; [exact E|]. split; [lia|]. split.
      { split; [lia|eauto]. }
      split; [split; [discriminate|lia]|]. split; [discriminate|].
      intros _. split; [reflexivity|exact Hoff'].
  - destruct (buildBin_spec audioMSB pmf0 Hfit tracks Hint) as (st & e & E & HInv & He).
    exists st, e. split; [exact E|].
    pose proof HInv as (_ & Hoff & Hlen & _).
    split; [exact Hoff|].
    assert (Hpre : forall k : nat,
               0 <= offset (fst (encodeTracks audioMSB (take k tracks) (initEnc pmf0)))
                 <= offset st).
    { intros k. pose proof (encodeTracks_prefix audioMSB pmf0 Hfit tracks k Hint) as Hk.
      rewrite <- (buildBin_state audioMSB pmf0 tracks), E in Hk. exact Hk. }
    destruct e as [e|].
    + destruct e; try contradiction.
      * (* truncated *)
        destruct He as (-> & Hlt & Hneed & Hclosed & Henc).
        split; [right; left; eauto|]. split.
        { split; [intros (? & [=])|].
          intros (st1 & E1 & _). rewrite E1 in Henc. discriminate. }
        split; [discriminate|]. split; [exact Hpre|].
        intros HF.
        assert (HF1 : Forall (fun t => Start t <= End t) tracks)
          by (eapply Forall_impl; [exact HF|]; simpl; lia).
        assert (HF2 : Forall (fun t => End t < maxInt) tracks)
          by (eapply Forall_impl; [exact HF|]; simpl; lia).
        rewrite <- (payloadBytes_totalSize tracks HF1).
        specialize (Hclosed HF2).
        split; [split; [lia|eauto]|].
        split; [split; [intros (? & [=])|lia]|].
        split; [discriminate|lia].
      * (* not consumed *)
        destruct He as (Hlt & Hoff' & -> & Hout & Henc).
        split; [right; right; reflexivity|]. split.
        { split; [|eauto]. intros _. exists st. split; [exact Henc|lia]. }
        split; [discriminate|]. split; [exact Hpre|].
        intros HF.
        assert (HF1 : Forall (fun t => Start t <= End t) tracks)
          by (eapply Forall_impl; [exact HF|]; simpl; lia).
        rewrite <- (payloadBytes_totalSize tracks HF1).
        split; [split; [intros (? & ? & [=])|lia]|].
        split; [split; [lia|eauto]|].
        split; [discriminate|lia].
    + destruct He as (Hbytes & Hoff' & Hout).
      split; [left; reflexivity|]. split.
      { split; [intros (? & [=])|].
        intros (st1 & E1 & Hne). exfalso.
        unfold buildBin in E. rewrite E1 in E.
        destruct (Z.eqb_spec (offset st1) (len (pmf st1))); simpl in E; [|discriminate].
        injection E as <-. unfold len in *. rewrite Hlen in *. contradiction. }
      split; [intros _; exact Hoff'|]. split; [exact Hpre|].
      intros HF.
      assert (HF1 : Forall (fun t => Start t <= End t) tracks)
        by (eapply Forall_impl; [exact HF|]; simpl; lia).
      rewrite <- (payloadBytes_totalSize tracks HF1).
      split; [split; [intros (? & ? & [=])|lia]|].
      split; [split; [intros (? & [=])|lia]|].
      split; [lia|reflexivity].
Qed.

(** A witness of C3: one data sector asked of an empty payload. *)
Lemma cursor_and_errors_witness :
  exists st e, buildBin false [] [lateStartTrack] = (st, e) /\ 0 <= offset st <= 0.
Proof.
  destruct (cursor_and_errors false [] [lateStartTrack]) as (_ & st & e & H1 & H2 & _).
  - unfold payload_fits, len, binSector, maxInt. simpl. lia.
  - repeat constructor; unfold is_int, minInt, maxInt; simpl; lia.
  - exists st, e. split; assumption.
Defined.

(** C6 as stated fails: with the MSB flag the first two bytes of an audio
    sector are exchanged in the buffer itself. *)
Lemma payload_unchanged_counterexample :
  parseFF false swapDescriptor false (len swapPayload) = (true, Ok [mkTrack 1 4 0 0 0])
  /\ pmf (fst (buildBin true swapPayload [mkTrack 1 4 0 0 0])) <> swapPayload.
Proof.
  split; [vm_compute; reflexivity|].
  intros H. apply (f_equal (fun l => l !! 0%nat)) in H.
  vm_compute in H. discriminate.
Qed.

Lemma pregapImage_gapTrack2 : Spec.pregapImage gapTrack2 = empty.
Proof. vm_compute. reflexivity. Qed.

Lemma gap_scenario_image (msb : bool) (pmf0 : list Z) :
  len pmf0 = 11 * 2056 + 9 * 2352 ->
  exists st,
    buildBin msb pmf0 [gapTrack1; gapTrack2] = (st, None)
    /\ out st = Spec.payloadImage 11 msb gapTrack1 0 pmf0
                ++ empty
                ++ Spec.sectorBytes msb gapTrack2 12 (take 2352 (drop (Z.to_nat (11 * 2056)) pmf0))
                ++ Spec.payloadImage 8 msb gapTrack2 13
                     (drop 2352 (drop (Z.to_nat (11 * 2056)) pmf0))
    /\ length (Spec.payloadImage 11 msb gapTrack1 0 pmf0) = Z.to_nat (11 * 2352)
    /\ length (Spec.sectorBytes msb gapTrack2 12
                 (take 2352 (drop (Z.to_nat (11 * 2056)) pmf0))) = 2352%nat
    /\ length (Spec.payloadImage 8 msb gapTrack2 13
                 (drop 2352 (drop (Z.to_nat (11 * 2056)) pmf0))) = Z.to_nat (8 * 2352).
Proof.
  intros Hlen.
  assert (Hfit : payload_fits pmf0).
  { unfold payload_fits, binSector, maxInt. rewrite Hlen. lia. }
  assert (Hint : Forall track_int [gapTrack1; gapTrack2]).
  { repeat constructor; unfold is_int, minInt, maxInt; simpl; lia. }
  assert (Hbytes : payloadBytes [gapTrack1; gapTrack2] = 11 * 2056 + 9 * 2352)
    by reflexivity.
  destruct (buildBin_spec msb pmf0 Hfit _ Hint) as (st & e & E & HInv & He).
  destruct e as [[]|]; try contradiction.
  - destruct He as (_ & _ & _ & Hclosed & _). exfalso.
    assert (HF : Forall (fun t => End t < maxInt) [gapTrack1; gapTrack2])
      by (repeat constructor; unfold maxInt; simpl; lia).
    specialize (Hclosed HF). lia.
  - destruct He as (Hlt & _). exfalso. lia.
  - destruct He as (_ & _ & Hout).
    exists st. split; [exact E|].
    assert (L1 : len (Spec.payloadImage 11 msb gapTrack1 0 pmf0) = 2352 * 11).
    { apply (length_payloadImage msb gapTrack1 11 0 pmf0).
      change (Spec.unitSize gapTrack1) with 2056. lia. }
    assert (L3 : len (Spec.payloadImage 8 msb gapTrack2 13
                        (drop 2352 (drop (Z.to_nat (11 * 2056)) pmf0))) = 2352 * 8).
    { apply (length_payloadImage msb gapTrack2 8 13).
      change (Spec.unitSize gapTrack2) with 2352. unfold len in *.
      rewrite !length_drop. lia. }
    split.
    { rewrite Hout. cbn [Spec.image].
      change (Spec.pregapImage gapTrack1) with (@nil Z).
      rewrite pregapImage_gapTrack2.
      change (Z.to_nat (Spec.sectorCount gapTrack1)) with 11%nat.
      change (Z.to_nat (Spec.sectorCount gapTrack2)) with 9%nat.
      change (Start gapTrack1) with 0. change (Start gapTrack2) with 12.
      change (Spec.sectorCount gapTrack1 * Spec.unitSize gapTrack1) with (11 * 2056).
      rewrite app_nil_l, app_nil_r.
      change 9%nat with (S 8). cbn [Spec.payloadImage].
      change (Z.to_nat (Spec.unitSize gapTrack2)) with 2352%nat.
      change (12 + 1) with 13. reflexivity. }
    split; [unfold len in L1; lia|]. split; [|unfold len in L3; lia].
    apply length_sectorBytes.
    change (Z.to_nat (Spec.unitSize gapTrack2)) with 2352%nat.
    rewrite length_take, length_drop. unfold len in *. lia.
Qed.

(** C7, as amended.  For the lines [1 2 0 10], [2 4 12 20] and any payload
    of 11*2056 + 9*2352 bytes, parsing succeeds with pregap 1 for track 2,
    and the encoder writes 21 sectors: the eleven sectors of track 1, then
    one pregap sector whose 2352 bytes are all zero (track 2 is an audio
    track, so neither sync nor header is written), then the first payload
    sector of track 2, the 2352 payload bytes at offset 11*2056 (swapped
    in pairs under the MSB flag). *)
Theorem gap_scenario (audioMSB msb0 : bool) (pmf0 : list Z) :
  len pmf0 = 11 * 2056 + 9 * 2352 ->
  parseFF msb0 gapDescriptor false (len pmf0) = (msb0, Ok [gapTrack1; gapTrack2])
  /\ Pregap gapTrack2 = 1
  /\ exists st,
       buildBin audioMSB pmf0 [gapTrack1; gapTrack2] = (st, None)
       /\ len (out st) = 21 * 2352
       /\ take (Z.to_nat (11 * 2352)) (out st)
          = Spec.payloadImage 11 audioMSB gapTrack1 0 pmf0
       /\ take 2352 (drop (Z.to_nat (11 * 2352)) (out st)) = replicate 2352 0
       /\ take 2352 (drop (Z.to_nat (12 * 2352)) (out st))
          = (if audioMSB
             then swapPairs (take 2352 (drop (Z.to_nat (11 * 2056)) pmf0))
             else take 2352 (drop (Z.to_nat (11 * 2056)) pmf0)).
Proof.
  intros Hlen. split.
  { rewrite Hlen. destruct msb0; vm_compute; reflexivity. }
  split; [reflexivity|].
  destruct (gap_scenario_image audioMSB pmf0 Hlen) as (st & E & Hout & L1 & L2 & L3).
  exists st. split; [exact E|].
  set (A := Spec.payloadImage 11 audioMSB gapTrack1 0 pmf0) in *.
  set (S1 := Spec.sectorBytes audioMSB gapTrack2 12
               (take 2352 (drop (Z.to_nat (11 * 2056)) pmf0))) in *.
  set (B := Spec.payloadImage 8 audioMSB gapTrack2 13
              (drop 2352 (drop (Z.to_nat (11 * 2056)) pmf0))) in *.
  pose proof length_empty as Le.
  split.
  { unfold len. rewrite Hout, !length_app, L1, L2, L3, Le. lia. }
  split.
  { rewrite Hout. apply take_app_length'. symmetry. exact L1. }
  split.
  { rewrite Hout. apply slice_mid; [exact L1|exact Le]. }
  rewrite Hout.
  rewrite (slice_at (Z.to_nat (12 * 2352)) 2352 (A ++ empty) S1 B);
    [reflexivity|rewrite <- !app_assoc; reflexivity|rewrite length_app, L1, Le; lia|exact L2].
Qed.

(** A witness of C7: the all-zero payload. *)
Lemma gap_scenario_witness :
  len gapPayload = 11 * 2056 + 9 * 2352
  /\ exists st,
       buildBin false gapPayload [gapTrack1; gapTrack2] = (st, None)
       /\ take 2352 (drop (Z.to_nat (11 * 2352)) (out st)) = replicate 2352 0.
Proof.
  assert (Hlen : len gapPayload = 11 * 2056 + 9 * 2352).
  { unfold len, gapPayload. rewrite length_replicate. lia. }
  split; [exact Hlen|].
  destruct (gap_scenario false false gapPayload Hlen) as (_ & _ & st & E & _ & _ & H & _).
  exists st. split; assumption.
Defined.

(** C7 as stated fails: the sector before the first payload sector of
    track 2 does not start with the sync pattern. *)
Lemma gap_scenario_counterexample :
  len gapPayload = 11 * 2056 + 9 * 2352
  /\ take 12 (drop (Z.to_nat (11 * 2352))
                   (out (fst (buildBin false gapPayload [gapTrack1; gapTrack2]))))
     <> syncPattern.
Proof.
  assert (Hlen : len gapPayload = 11 * 2056 + 9 * 2352).
  { unfold len, gapPayload. rewrite length_replicate. lia. }
  split; [exact Hlen|].
  destruct (gap_scenario_image false gapPayload Hlen) as (st & E & Hout & L1 & _).
  rewrite E. cbn [fst]. rewrite Hout.
  rewrite drop_app_length' by (symmetry; exact L1).
  rewrite take_app_le by (rewrite length_empty; lia).
  intros H. apply (f_equal (fun l => l !! 1%nat)) in H. vm_compute in H. discriminate.
Qed.

Lemma length_image msb tracks : forall data : list Z,
  payloadBytes tracks <= len data ->
  len (Spec.image msb tracks data) = 2352 * imageSectors tracks.
Proof.
  induction tracks as [|t rest IH]; intros data Hlen; [reflexivity|].
  rewrite payloadBytes_cons in Hlen.
  pose proof (payloadBytes_nonneg rest) as Hnn.
  pose proof (unitSize_pos t) as Hu.
  cbn [Spec.image imageSectors foldr]. fold (imageSectors rest).
  assert (Hprod : 0 <= Z.max 0 (Spec.sectorCount t) * Spec.unitSize t) by nia.
  pose proof (length_pregapImage t) as L1.
  pose proof (length_payloadImage msb t (Z.to_nat (Spec.sectorCount t)) (Start t) data) as L2.
  pose proof (IH (drop (Z.to_nat (Spec.sectorCount t * Spec.unitSize t)) data)) as L3.
  assert (Hcount : Z.of_nat (Z.to_nat (Spec.sectorCount t)) = Z.max 0 (Spec.sectorCount t))
    by lia.
  rewrite Hcount in L2. specialize (L2 ltac:(lia)).
  assert (Hdrop : payloadBytes rest
                  <= len (drop (Z.to_nat (Spec.sectorCount t * Spec.unitSize t)) data)).
  { unfold len in *. rewrite length_drop.
    destruct (Z.max_spec 0 (Spec.sectorCount t)) as [[Hc Hm]|[Hc Hm]]; rewrite Hm in *.
    - generalize dependent (Spec.sectorCount t * Spec.unitSize t). intros. lia.
    - assert (Spec.sectorCount t * Spec.unitSize t <= 0) by nia.
      generalize dependent (Spec.sectorCount t * Spec.unitSize t). intros. lia. }
  specialize (L3 Hdrop).
  unfold len in *. rewrite !length_app, !Nat2Z.inj_add, L1, L2, L3. lia.
Qed.

Lemma chained_span tracks : forall prev,
  chained prev tracks -> Forall (fun t => Start t <= End t) tracks ->
  forall t0 tl, head tracks = Some t0 -> last tracks = Some tl ->
  imageSectors tracks
  = End tl - match prev with Some p => End p | None => Start t0 - 1 end.
Proof.
  induction tracks as [|t rest IH]; intros prev Hch HF t0 tl Hhd Hlast; [discriminate|].
  injection Hhd as <-. inversion HF as [|? ? Ht HF']; subst.
  destruct Hch as [Hp Hch].
  cbn [imageSectors foldr]. fold (imageSectors rest).
  unfold Spec.sectorCount.
  destruct rest as [|u rest'].
  - injection Hlast as <-. unfold imageSectors. simpl.
    destruct prev as [p|]; lia.
  - rewrite (IH (Some t) Hch HF' u tl eq_refl Hlast).
    destruct prev as [p|]; lia.
Qed.

Lemma parse_tracks_facts msb lines readErr pmfLen tracks :
  snd (parseFF msb lines readErr pmfLen) = Ok tracks ->
  Forall track_int tracks /\ chained None tracks
  /\ Forall (fun t => Start t <= End t) tracks /\ tracks <> [].
Proof.
  intros Hv. apply parseFF_Ok in Hv as [_ Hv].
  pose proof (scanLines_ints msb lines) as Hint.
  destruct (validate_Ok _ _ _ _ Hv Hint) as (Hne & Hc & HF & Hwf & Hch & Hsize).
  rewrite <- (samePlace_wellFormed _ _ HF) in Hwf.
  destruct (wellFormed_true_inv tracks 0 None Hwf) as (I1 & I2 & I3 & _ & I5).
  split.
  { clear -HF Hint. induction HF as [|r t raw tracks H HF IH]; [constructor|].
    inversion Hint as [|? ? Hr Hint']; subst. constructor; [|apply IH, Hint'].
    destruct (samePlace_fields _ _ H) as (Hn & Hm & Hs & He).
    unfold track_int in *. rewrite Hn, Hm, Hs, He. exact Hr. }
  split; [exact Hch|]. split.
  { apply Forall_forall. exact I3. }
  intros ->. apply Forall2_nil_inv_r in HF. contradiction.
Qed.

(** C10.  The first track has no pregap, whatever its [Start].  A table
    that meets the per-track conditions, which ask nothing of the first
    [Start] but [Start <= End], and whose size matches, is accepted with
    pregap 0 for the first track; every successful parse returns a first
    track with pregap 0, for which the encoder writes no pregap sector;
    and after a successful encode the image begins with the first payload
    sector of track 1 and holds [End(last) - Start(first) + 1] sectors, so
    the blocks before [Start(first)] are not in it. *)
Theorem first_track_without_pregap :
  (forall declared raw pmfLen,
     raw <> [] -> ~ (declared > 0 /\ declared <> len raw) ->
     Forall track_int raw ->
     Forall (fun t => 0 <= Start t /\ 0 <= End t) raw ->
     Spec.wellFormed 0 None raw = true ->
     wrap64 (Spec.totalSize raw) = pmfLen ->
     exists t rest, validate declared raw pmfLen = Ok (t :: rest) /\ Pregap t = 0)
  /\ (forall msb lines readErr pmfLen tracks,
        snd (parseFF msb lines readErr pmfLen) = Ok tracks ->
        exists t rest, tracks = t :: rest /\ Pregap t = 0 /\ Spec.pregapImage t = [])
  /\ (forall msb lines readErr audioMSB pmf0 tracks st,
        snd (parseFF msb lines readErr (len pmf0)) = Ok tracks ->
        payload_fits pmf0 ->
        buildBin audioMSB pmf0 tracks = (st, None) ->
        exists t rest tl,
          tracks = t :: rest /\ last tracks = Some tl
          /\ out st = Spec.payloadImage (Z.to_nat (Spec.sectorCount t)) audioMSB t (Start t) pmf0
                      ++ Spec.image audioMSB rest
                           (drop (Z.to_nat (Spec.sectorCount t * Spec.unitSize t)) pmf0)
          /\ take 2352 (out st)
             = Spec.sectorBytes audioMSB t (Start t) (take (Z.to_nat (Spec.unitSize t)) pmf0)
          /\ len (out st) = 2352 * (End tl - Start t + 1)).
Proof.
  split; [|split].
  - intros declared raw pmfLen Hne Hc Hint Hnn Hwf Hsize.
    assert (Hnn' : Forall (fun t => 0 <= Start t <= maxInt /\ 0 <= End t <= maxInt) raw).
    { apply Forall_forall. intros t Ht.
      pose proof (proj1 (Forall_forall _ _) Hnn t Ht) as [H1 H2].
      pose proof (proj1 (Forall_forall _ _) Hint t Ht) as (_ & _ & H3 & H4).
      int_lia. }
    destruct (validate_complete declared raw pmfLen Hne Hc Hnn' Hwf Hsize) as [tracks Hv].
    destruct (validate_Ok _ _ _ _ Hv Hint) as (_ & _ & HF & _ & Hch & _).
    destruct tracks as [|t rest].
    { apply Forall2_nil_inv_r in HF. contradiction. }
    exists t, rest. split; [exact Hv|]. apply Hch.
  - intros msb lines readErr pmfLen tracks Hv.
    destruct (parse_tracks_facts _ _ _ _ _ Hv) as (_ & Hch & _ & Hne).
    destruct tracks as [|t rest]; [contradiction|].
    exists t, rest. split; [reflexivity|].
    destruct Hch as [Hp _]. split; [exact Hp|].
    unfold Spec.pregapImage. rewrite Hp. reflexivity.
  - intros msb lines readErr audioMSB pmf0 tracks st Hv Hfit E.
    destruct (parse_tracks_facts _ _ _ _ _ Hv) as (Hint & Hch & HF & Hne).
    destruct (buildBin_spec audioMSB pmf0 Hfit tracks Hint) as (st' & e & E' & HInv & He).
    rewrite E in E'. injection E' as <- <-.
    destruct He as (Hbytes & Hoff & Hout).
    destruct tracks as [|t rest]; [contradiction|].
    destruct (last (t :: rest)) as [tl|] eqn:Hlast.
    2: { apply last_None in Hlast. discriminate. }
    exists t, rest, tl. split; [reflexivity|]. split; [reflexivity|].
    pose proof Hch as [Hp _].
    assert (Hpre : Spec.pregapImage t = []).
    { unfold Spec.pregapImage. rewrite Hp. reflexivity. }
    split.
    { rewrite Hout. cbn [Spec.image]. rewrite Hpre. reflexivity. }
    split.
    { rewrite Hout. cbn [Spec.image]. rewrite Hpre, app_nil_l.
      inversion HF as [|? ? Ht HF']; subst.
      assert (Hcnt : (1 <= Z.to_nat (Spec.sectorCount t))%nat)
        by (unfold Spec.sectorCount; lia).
      destruct (Z.to_nat (Spec.sectorCount t)) as [|n] eqn:En; [lia|].
      cbn [Spec.payloadImage]. rewrite <- app_assoc.
      apply take_app_length'. symmetry. apply length_sectorBytes.
      rewrite length_take.
      rewrite payloadBytes_cons in Hbytes.
      pose proof (payloadBytes_nonneg rest). pose proof (unitSize_pos t).
      unfold len in *. unfold Spec.sectorCount in *. nia. }
    rewrite Hout, (length_image audioMSB (t :: rest) pmf0) by lia.
    rewrite (chained_span (t :: rest) None Hch HF t tl eq_refl Hlast). f_equal. lia.
Qed.

(** A witness of C10: a single data sector at block 5. *)
Lemma first_track_without_pregap_witness :
  exists t rest, [lateStartTrack] = t :: rest /\ Pregap t = 0 /\ Start t = 5.
Proof.
  destruct first_track_without_pregap as (_ & H & _).
  destruct (H false lateStartDescriptor false 2056 [lateStartTrack]) as (t & rest & H1 & H2 & _).
  { vm_compute. reflexivity. }
  exists t, rest. split; [exact H1|]. split; [exact H2|].
  injection H1 as <- _. reflexivity.
Defined.

(** * Further properties *)

(** ** The GF(256) tables and [gfMult] as a field product *)

Lemma all_bytes_spec f : all_bytes f = true -> forall a, is_byte a -> f a = true.
Proof. intros H a Ha. apply (range_check f 0 256 H). unfold is_byte in Ha. lia. Qed.

Lemma all_byte_pairs_spec f :
  all_byte_pairs f = true -> forall a b, is_byte a -> is_byte b -> f a b = true.
Proof.
  intros H a b Ha Hb.
  pose proof (all_bytes_spec _ H a Ha) as H1. cbv beta in H1.
  apply (all_bytes_spec _ H1 b Hb).
Qed.

Lemma gfLog_checked : all_bytes gfLog_entry_ok = true.
Proof. vm_compute. reflexivity. Qed.

Lemma gfPow_checked : forallb gfPow_entry_ok (seqZ 0 255) = true.
Proof. vm_compute. reflexivity. Qed.

Lemma gfPow_doubles_checked : forallb gfPow_doubles (seqZ 0 508) = true.
Proof. vm_compute. reflexivity. Qed.

Lemma gfPow_periodic_checked : forallb gfPow_periodic (seqZ 0 509) = true.
Proof. vm_compute. reflexivity. Qed.

Lemma gfMult_polyMul_checked : all_byte_pairs gfMult_polyMul_ok = true.
Proof. vm_compute. reflexivity. Qed.

Lemma gfMult_log_checked : all_byte_pairs gfMult_log_ok = true.
Proof. vm_compute. reflexivity. Qed.

Lemma gfMult_inverse_checked : all_bytes gfMult_has_inverse = true.
Proof. vm_compute. reflexivity. Qed.

Lemma byte_0 : is_byte 0.
Proof. unfold is_byte. lia. Qed.

Lemma byte_2 : is_byte 2.
Proof. unfold is_byte. lia. Qed.

Lemma gfMult_sym a b : gfMult a b = gfMult b a.
Proof. unfold gfMult. rewrite orb_comm, Z.add_comm. reflexivity. Qed.

Lemma gfMult_0_r a : gfMult a 0 = 0.
Proof. unfold gfMult. rewrite orb_true_r. reflexivity. Qed.

Lemma gfMult_nonzero a b :
  a <> 0 -> b <> 0 -> gfMult a b = gfPowAt (gfLogAt a + gfLogAt b).
Proof.
  intros Ha Hb. unfold gfMult, gfPowAt, gfLogAt.
  destruct (Z.eqb_spec a 0); [contradiction|].
  destruct (Z.eqb_spec b 0); [contradiction|]. reflexivity.
Qed.

Lemma gfLogAt_spec a :
  is_byte a -> a <> 0 -> 0 <= gfLogAt a < 255 /\ gfPowAt (gfLogAt a) = a.
Proof.
  intros Ha Hne. pose proof (all_bytes_spec _ gfLog_checked a Ha) as H.
  unfold gfLog_entry_ok in H.
  destruct (Z.eqb_spec a 0); [contradiction|]. simpl in H. lia.
Qed.

Lemma gfPowAt_spec i :
  0 <= i < 255 -> 1 <= gfPowAt i < 256 /\ gfLogAt (gfPowAt i) = i.
Proof.
  intros Hi. pose proof (range_check _ 0 255 gfPow_checked i ltac:(lia)) as H.
  unfold gfPow_entry_ok in H. lia.
Qed.

Lemma gfPowAt_doubles i : 0 <= i < 508 -> gfPowAt (i + 1) = xtime (gfPowAt i).
Proof.
  intros Hi. pose proof (range_check _ 0 508 gfPow_doubles_checked i ltac:(lia)) as H.
  unfold gfPow_doubles in H. lia.
Qed.

Lemma gfPowAt_periodic i : 0 <= i < 509 -> gfPowAt i = gfPowAt (i mod 255).
Proof.
  intros Hi. pose proof (range_check _ 0 509 gfPow_periodic_checked i ltac:(lia)) as H.
  unfold gfPow_periodic in H. lia.
Qed.

Lemma gfMult_log a b :
  is_byte a -> is_byte b -> a <> 0 -> b <> 0 ->
  gfMult a b <> 0 /\ gfLogAt (gfMult a b) = (gfLogAt a + gfLogAt b) mod 255.
Proof.
  intros Ha Hb Ha0 Hb0.
  pose proof (all_byte_pairs_spec _ gfMult_log_checked a b Ha Hb) as H.
  unfold gfMult_log_ok in H.
  destruct (Z.eqb_spec a 0); [contradiction|].
  destruct (Z.eqb_spec b 0); [contradiction|]. simpl in H.
  apply andb_prop in H as [H1 H2].
  destruct (Z.eqb_spec (gfMult a b) 0); [discriminate|]. split; [assumption|lia].
Qed.

Lemma gfMult_polyMul a b : is_byte a -> is_byte b -> gfMult a b = polyMul a b.
Proof.
  intros Ha Hb.
  pose proof (all_byte_pairs_spec _ gfMult_polyMul_checked a b Ha Hb) as H.
  unfold gfMult_polyMul_ok in H. lia.
Qed.

Lemma lxor_swap_mid a b c d :
  Z.lxor (Z.lxor a b) (Z.lxor c d) = Z.lxor (Z.lxor a c) (Z.lxor b d).
Proof.
  rewrite !Z.lxor_assoc. f_equal.
  rewrite <- !Z.lxor_assoc. f_equal. apply Z.lxor_comm.
Qed.

Lemma polyMulBits_lxor (n : nat) : forall a b c,
  polyMulBits n a (Z.lxor b c) = Z.lxor (polyMulBits n a b) (polyMulBits n a c).
Proof.
  induction n as [|n IH]; intros a b c; simpl; [reflexivity|].
  rewrite Z.shiftr_lxor, IH, lxor_swap_mid. f_equal.
  rewrite <- !Z.bit0_odd, Z.lxor_spec.
  destruct (Z.testbit b 0), (Z.testbit c 0); simpl;
    rewrite ?Z.lxor_nilpotent, ?Z.lxor_0_r, ?Z.lxor_0_l; reflexivity.
Qed.

Lemma gfMult_lxor_r a b c :
  is_byte a -> is_byte b -> is_byte c ->
  gfMult a (Z.lxor b c) = Z.lxor (gfMult a b) (gfMult a c).
Proof.
  intros Ha Hb Hc.
  rewrite !gfMult_polyMul by auto using lxor_byte.
  apply polyMulBits_lxor.
Qed.

Lemma gfMult_lxor_l a b c :
  is_byte a -> is_byte b -> is_byte c ->
  gfMult (Z.lxor a b) c = Z.lxor (gfMult a c) (gfMult b c).
Proof.
  intros. rewrite !(gfMult_sym _ c). apply gfMult_lxor_r; assumption.
Qed.

Lemma gfMult_1_r a : is_byte a -> gfMult a 1 = a.
Proof.
  intros Ha. destruct (Z.eq_dec a 0) as [->|Hne]; [reflexivity|].
  rewrite gfMult_nonzero by lia.
  change (gfLogAt 1) with 0. rewrite Z.add_0_r.
  apply gfLogAt_spec; assumption.
Qed.

Lemma gfMult_assoc a b c :
  is_byte a -> is_byte b -> is_byte c ->
  gfMult a (gfMult b c) = gfMult (gfMult a b) c.
Proof.
  intros Ha Hb Hc.
  destruct (Z.eq_dec a 0) as [->|Ha0]; [reflexivity|].
  destruct (Z.eq_dec b 0) as [->|Hb0].
  { change (gfMult 0 c) with 0. rewrite !gfMult_0_r. reflexivity. }
  destruct (Z.eq_dec c 0) as [->|Hc0].
  { rewrite !gfMult_0_r. reflexivity. }
  destruct (gfMult_log b c Hb Hc Hb0 Hc0) as [Hbc Lbc].
  destruct (gfMult_log a b Ha Hb Ha0 Hb0) as [Hab Lab].
  destruct (gfLogAt_spec a Ha Ha0) as [La _].
  destruct (gfLogAt_spec b Hb Hb0) as [Lb _].
  destruct (gfLogAt_spec c Hc Hc0) as [Lc _].
  rewrite (gfMult_nonzero a (gfMult b c)), (gfMult_nonzero (gfMult a b) c) by assumption.
  rewrite Lbc, Lab.
  pose proof (Z.mod_pos_bound (gfLogAt b + gfLogAt c) 255 ltac:(lia)).
  pose proof (Z.mod_pos_bound (gfLogAt a + gfLogAt b) 255 ltac:(lia)).
  rewrite (gfPowAt_periodic (gfLogAt a + _)), (gfPowAt_periodic (_ + gfLogAt c)) by lia.
  f_equal.
  rewrite Zplus_mod_idemp_r, Zplus_mod_idemp_l. f_equal. lia.
Qed.

Lemma gfMult_eq_0 a b :
  is_byte a -> is_byte b -> gfMult a b = 0 <-> a = 0 \/ b = 0.
Proof.
  intros Ha Hb. split.
  - intros H. destruct (Z.eq_dec a 0); [auto|]. destruct (Z.eq_dec b 0); [auto|].
    destruct (gfMult_log a b); auto. contradiction.
  - intros [->| ->]; [reflexivity|apply gfMult_0_r].
Qed.

Lemma gfMult_inverse a :
  is_byte a -> a <> 0 -> exists b, is_byte b /\ b <> 0 /\ gfMult a b = 1.
Proof.
  intros Ha Hne.
  pose proof (all_bytes_spec _ gfMult_inverse_checked a Ha) as H.
  unfold gfMult_has_inverse in H.
  destruct (Z.eqb_spec a 0); [contradiction|]. rewrite orb_false_l in H.
  apply existsb_exists in H as (b & Hb & Hab).
  apply list_elem_of_In, elem_of_seqZ in Hb.
  exists b. unfold is_byte. split; [lia|]. split; lia.
Qed.

Lemma gfMult_xtime a : is_byte a -> gfMult a 2 = xtime a.
Proof.
  intros Ha. rewrite gfMult_polyMul by (assumption || exact byte_2).
  unfold polyMul. simpl. rewrite !Z.lxor_0_r, Z.lxor_0_l. reflexivity.
Qed.

(** X1.  The two tables of [init] are inverse to each other: [gfLog] of a
    non-zero byte is an exponent below 255 at which [gfPow] holds the
    byte, and [gfPow] at an exponent below 255 is a non-zero byte whose
    [gfLog] is the exponent.  The entries of [gfPow] are the powers of 2
    in the field, each one the double of the one before it, reduced by
    0x11D, up to the last index 508, and they repeat with period 255. *)
Theorem gf_tables_inverse :
  (forall a, 1 <= a <= 255 -> 0 <= gfLogAt a <= 254 /\ gfPowAt (gfLogAt a) = a)
  /\ (forall i, 0 <= i <= 254 -> 1 <= gfPowAt i <= 255 /\ gfLogAt (gfPowAt i) = i)
  /\ gfPowAt 0 = 1
  /\ (forall i, 0 <= i < 508 -> gfPowAt (i + 1) = xtime (gfPowAt i))
  /\ (forall i, 0 <= i < 509 -> gfPowAt i = gfPowAt (i mod 255)).
Proof.
  split.
  { intros a Ha. destruct (gfLogAt_spec a) as [H1 H2]; [unfold is_byte; lia|lia|].
    split; [lia|exact H2]. }
  split.
  { intros i Hi. destruct (gfPowAt_spec i ltac:(lia)) as [H1 H2]. split; [lia|exact H2]. }
  split; [reflexivity|].
  split; [exact gfPowAt_doubles|exact gfPowAt_periodic].
Qed.

(** A witness of X1 at the byte 7 and at the exponent 200. *)
Lemma gf_tables_inverse_witness :
  gfPowAt (gfLogAt 7) = 7 /\ gfLogAt (gfPowAt 200) = 200
  /\ gfPowAt 201 = xtime (gfPowAt 200).
Proof.
  destruct gf_tables_inverse as (H1 & H2 & _ & H3 & _).
  split; [apply (H1 7); lia|]. split; [apply (H2 200); lia|apply (H3 200); lia].
Defined.

(** X2.  On bytes, [gfMult] is the product of a field whose sum is XOR: 1
    is its unit, it is associative, it distributes over XOR, a product is
    zero only when a factor is, and every non-zero byte has an inverse. *)
Theorem gfMult_field (a b c : Z) :
  is_byte a -> is_byte b -> is_byte c ->
  gfMult a 1 = a
  /\ gfMult a (gfMult b c) = gfMult (gfMult a b) c
  /\ gfMult a (Z.lxor b c) = Z.lxor (gfMult a b) (gfMult a c)
  /\ (gfMult a b = 0 <-> a = 0 \/ b = 0)
  /\ (a <> 0 -> exists a', is_byte a' /\ gfMult a a' = 1).
Proof.
  intros Ha Hb Hc.
  split; [apply gfMult_1_r, Ha|].
  split; [apply gfMult_assoc; assumption|].
  split; [apply gfMult_lxor_r; assumption|].
  split; [apply gfMult_eq_0; assumption|].
  intros Hne. destruct (gfMult_inverse a Ha Hne) as (a' & Ha' & _ & H).
  exists a'. split; assumption.
Qed.

(** A witness of X2 at the bytes 3, 7 and 200. *)
Lemma gfMult_field_witness :
  gfMult 3 (gfMult 7 200) = gfMult (gfMult 3 7) 200
  /\ gfMult 3 (Z.lxor 7 200) = Z.lxor (gfMult 3 7) (gfMult 3 200).
Proof.
  destruct (gfMult_field 3 7 200) as (_ & H1 & H2 & _);
    [unfold is_byte; lia..|].
  split; [exact H1|exact H2].
Defined.

(** X3.  The table product is the product of polynomials over GF(2)
    modulo [x^8 + x^4 + x^3 + x^2 + 1]: [gfMult a b] is the shift-and-add
    product of [a] and [b] reduced by 0x11D, [gfMult a 2] doubles [a] with
    that reduction, and a product of non-zero bytes is the power whose
    exponent is the sum of the two logarithms modulo 255. *)
Theorem gfMult_polynomial (a b : Z) :
  is_byte a -> is_byte b ->
  gfMult a b = polyMul a b
  /\ gfMult a 2 = xtime a
  /\ (a <> 0 -> b <> 0 -> gfMult a b = gfPowAt ((gfLogAt a + gfLogAt b) mod 255)).
Proof.
  intros Ha Hb.
  split; [apply gfMult_polyMul; assumption|].
  split; [apply gfMult_xtime, Ha|].
  intros Ha0 Hb0. rewrite gfMult_nonzero by assumption.
  destruct (gfLogAt_spec a Ha Ha0) as [La _].
  destruct (gfLogAt_spec b Hb Hb0) as [Lb _].
  apply gfPowAt_periodic. lia.
Qed.

(** A witness of X3 at the bytes 0x80 and 0x53. *)
Lemma gfMult_polynomial_witness :
  gfMult 0x80 0x53 = polyMul 0x80 0x53 /\ gfMult 0x80 2 = 0x1D.
Proof.
  destruct (gfMult_polynomial 0x80 0x53) as (H1 & H2 & _);
    [unfold is_byte; lia..|].
  split; [exact H1|]. rewrite H2. reflexivity.
Defined.

(** ** The parity blocks as Reed-Solomon code words *)

Lemma index_default (s : list Z) (i x : Z) :
  index s i = Ok x -> x = default 0 (s !! Z.to_nat i).
Proof.
  unfold index. destruct ((0 <=? i) && (i <? len s)); [|discriminate].
  destruct (s !! Z.to_nat i); [|discriminate]. intros [= ->]. reflexivity.
Qed.

Lemma maskHeader_eccByte (sector : list Z) (pos x y : Z) :
  0 <= pos -> pos mod 2 = 0 ->
  index sector pos = Ok x -> index sector (pos + 1) = Ok y ->
  maskHeader pos x y = (eccByte sector pos, eccByte sector (pos + 1)).
Proof.
  intros Hpos Heven Hx Hy. apply index_default in Hx, Hy. subst x y.
  unfold maskHeader, eccByte.
  assert (Hcases : pos = 0 \/ pos = 2 \/ 4 <= pos) by (Z.div_mod_to_equations; lia).
  destruct Hcases as [->|[->|Hge]]; [reflexivity|reflexivity|].
  replace (pos <? 4) with false by lia. replace (pos + 1 <? 4) with false by lia.
  reflexivity.
Qed.

Lemma seqZ_succ_cons (m : Z) (n : nat) : seqZ m (Z.of_nat (S n)) = m :: seqZ (m + 1) (Z.of_nat n).
Proof.
  rewrite seqZ_cons by lia. f_equal. f_equal; lia.
Qed.

Lemma pRows_eq (sector : list Z) (base : Z) (rows : nat) : forall k r,
  0 <= base -> base mod 2 = 0 -> 0 <= k ->
  base + 86 * (k + Z.of_nat rows) - 84 <= len sector ->
  pRows rows sector (base + 86 * k) r
  = Ok (foldl (fun r row => lfsrShift r (eccByte sector (base + 86 * row))
                                        (eccByte sector (base + 86 * row + 1)))
              r (seqZ k (Z.of_nat rows))).
Proof.
  induction rows as [|rows IH]; intros k r Hb Heven Hk Hend.
  - reflexivity.
  - rewrite seqZ_succ_cons. cbn [pRows foldl].
    destruct (index_ok sector (base + 86 * k) ltac:(lia)) as [x Hx].
    destruct (index_ok sector (base + 86 * k + 1) ltac:(lia)) as [y Hy].
    rewrite Hx, Hy. cbn [bind].
    rewrite (maskHeader_eccByte sector _ x y) by
      (try assumption; try lia; Z.div_mod_to_equations; lia).
    replace (base + 86 * k + 86) with (base + 86 * (k + 1)) by lia.
    apply IH; lia.
Qed.

Lemma pRows_pRegs (sector : list Z) (col : Z) :
  len sector = 2064 -> 0 <= col < 43 ->
  pRows 24 sector (2 * col) (0, 0, 0, 0) = Ok (pRegs sector col).
Proof.
  intros Hlen Hcol.
  assert (Heven : (2 * col) mod 2 = 0) by (Z.div_mod_to_equations; lia).
  pose proof (pRows_eq sector (2 * col) 24 0 (0, 0, 0, 0) ltac:(lia) Heven
                ltac:(lia) ltac:(lia)) as H.
  rewrite Z.mul_0_r, Z.add_0_r in H.
  change (Z.of_nat 24) with 24 in H. unfold pRegs. exact H.
Qed.

Lemma qSteps_eq (sector : list Z) (diag : Z) (steps : nat) : forall k pos r,
  len sector = 2236 -> 0 <= k -> 0 <= pos < 4472 ->
  pos mod 2236 = (86 * diag + 88 * k) mod 2236 ->
  qSteps steps sector pos r
  = Ok (foldl (fun r step =>
                 lfsrShift r (eccByte sector ((86 * diag + 88 * step) mod 2236))
                             (eccByte sector ((86 * diag + 88 * step) mod 2236 + 1)))
              r (seqZ k (Z.of_nat steps))).
Proof.
  induction steps as [|steps IH]; intros k pos r Hlen Hk Hpos Hmod.
  - reflexivity.
  - rewrite seqZ_succ_cons. cbn [qSteps foldl].
    set (pos' := if 2236 <=? pos then pos - 2236 else pos).
    assert (Hp : pos' = (86 * diag + 88 * k) mod 2236).
    { rewrite <- Hmod. subst pos'.
      destruct (Z.leb_spec 2236 pos); Z.div_mod_to_equations; lia. }
    assert (Hrange : 0 <= pos' < 2235 /\ pos' mod 2 = 0).
    { rewrite Hp. Z.div_mod_to_equations. lia. }
    destruct (index_ok sector pos' ltac:(lia)) as [x Hx].
    destruct (index_ok sector (pos' + 1) ltac:(lia)) as [y Hy].
    rewrite Hx, Hy. cbn [bind].
    rewrite (maskHeader_eccByte sector _ x y) by (try assumption; lia).
    clearbody pos'. subst pos'.
    apply IH; [assumption|lia|lia|].
    Z.div_mod_to_equations. lia.
Qed.

Lemma qSteps_qRegs (sector : list Z) (diag : Z) :
  len sector = 2236 -> 0 <= diag < 26 ->
  qSteps 43 sector (2 * 43 * diag) (0, 0, 0, 0) = Ok (qRegs sector diag).
Proof.
  intros Hlen Hd.
  assert (Hmod : (2 * 43 * diag) mod 2236 = (86 * diag + 88 * 0) mod 2236)
    by (f_equal; lia).
  pose proof (qSteps_eq sector diag 43 0 (2 * 43 * diag) (0, 0, 0, 0) Hlen
                ltac:(lia) ltac:(lia) Hmod) as H.
  change (Z.of_nat 43) with 43 in H. unfold qRegs. exact H.
Qed.

Lemma foldM_seqZ_inv {St : Type} (Inv : Z -> St -> Prop) (f : St -> Z -> Res St) (n : nat) :
  forall lo s,
    (forall i s, lo <= i < lo + Z.of_nat n -> Inv i s ->
                 exists s', f s i = Ok s' /\ Inv (i + 1) s') ->
    Inv lo s ->
    exists s', foldM f (seqZ lo (Z.of_nat n)) s = Ok s' /\ Inv (lo + Z.of_nat n) s'.
Proof.
  induction n as [|n IH]; intros lo s Hstep Hs.
  - exists s. split; [reflexivity|]. rewrite Z.add_0_r. exact Hs.
  - rewrite seqZ_succ_cons. cbn [foldM].
    destruct (Hstep lo s ltac:(lia) Hs) as (s1 & -> & Hs1). cbn [bind].
    destruct (IH (lo + 1) s1) as (s' & E & Hs').
    + intros i s0 Hi. apply Hstep. lia.
    + exact Hs1.
    + exists s'. split; [exact E|].
      replace (lo + Z.of_nat (S n)) with (lo + 1 + Z.of_nat n) by lia. exact Hs'.
Qed.

Lemma foldM_ext {A S : Type} (f g : S -> A -> Res S) (l : list A) :
  (forall s a, a ∈ l -> f s a = g s a) -> forall s, foldM f l s = foldM g l s.
Proof.
  induction l as [|a l IH]; intros Hfg s; [reflexivity|].
  cbn [foldM]. rewrite Hfg by left.
  destruct (g s a) as [s'|e]; [|reflexivity]. cbn [bind].
  apply IH. intros s0 a0 Ha0. apply Hfg. right. exact Ha0.
Qed.

Lemma store_eq (s : list Z) (i v : Z) :
  0 <= i < len s -> store s i v = Ok (<[Z.to_nat i := v]> s).
Proof.
  intros Hi. unfold store.
  replace ((0 <=? i) && (i <? len s)) with true by lia. reflexivity.
Qed.

Lemma storeLane_stored (base : Z) (regs : Z -> Regs) (k : Z) (p : list Z) :
  0 <= k -> 2 * k < base -> 2 * base <= len p -> 2 * k + 1 < base ->
  laneStored base regs k p ->
  exists p', storeLane base p k (regs k) = Ok p'
             /\ length p' = length p
             /\ laneStored base regs (k + 1) p'.
Proof.
  intros Hk Hbase Hlen Hk1 Hst.
  destruct (regs k) as [[[r0l r0m] r1l] r1m] eqn:Hr. unfold storeLane.
  unfold len in Hlen.
  rewrite store_eq by (unfold len; lia). cbn [bind].
  rewrite store_eq by (unfold len; rewrite !length_insert; lia). cbn [bind].
  rewrite store_eq by (unfold len; rewrite !length_insert; lia). cbn [bind].
  rewrite store_eq by (unfold len; rewrite !length_insert; lia).
  eexists. split; [reflexivity|]. split; [rewrite !length_insert; reflexivity|].
  intros c b Hc Hb.
  destruct (Z.eq_dec c k) as [->|Hne].
  - rewrite Hr. assert (Hb' : b = 0 \/ b = 1) by lia.
    destruct Hb' as [->| ->]; cbn [lane Z.eqb fst snd]; split.
    + rewrite !list_lookup_insert_ne by lia.
      replace (Z.to_nat (2 * k + 0)) with (Z.to_nat (k * 2)) by lia.
      apply list_lookup_insert_eq. lia.
    + rewrite list_lookup_insert_ne by lia.
      replace (Z.to_nat (base + 2 * k + 0)) with (Z.to_nat (base + k * 2)) by lia.
      apply list_lookup_insert_eq. rewrite !length_insert. lia.
    + rewrite !list_lookup_insert_ne by lia.
      replace (Z.to_nat (2 * k + 1)) with (Z.to_nat (k * 2 + 1)) by lia.
      apply list_lookup_insert_eq. rewrite !length_insert. lia.
    + replace (Z.to_nat (base + 2 * k + 1)) with (Z.to_nat (base + k * 2 + 1)) by lia.
      apply list_lookup_insert_eq. rewrite !length_insert. lia.
  - destruct (Hst c b ltac:(lia) Hb) as [H1 H0].
    rewrite !list_lookup_insert_ne by lia. split; assumption.
Qed.

Lemma foldM_storeLane (base : Z) (n : nat) (regs : Z -> Regs)
    (f : list Z -> Z -> Res (list Z)) (p0 : list Z) :
  base = 2 * Z.of_nat n -> len p0 = 2 * base ->
  (forall p c, 0 <= c < Z.of_nat n -> f p c = storeLane base p c (regs c)) ->
  exists p, foldM f (seqZ 0 (Z.of_nat n)) p0 = Ok p
            /\ length p = length p0 /\ laneStored base regs (Z.of_nat n) p.
Proof.
  intros Hbase Hlen Hf.
  destruct (foldM_seqZ_inv
              (fun k p => length p = length p0 /\ laneStored base regs k p) f n 0 p0)
    as (p & E & HL & Hst).
  - intros k p Hk [HL Hst]. rewrite Hf by lia.
    destruct (storeLane_stored base regs k p) as (p' & E & HL' & Hst');
      try lia; [unfold len in *; lia|exact Hst|].
    exists p'. split; [exact E|]. split; [congruence|exact Hst'].
  - split; [reflexivity|]. intros c b Hc. lia.
  - exists p. auto.
Qed.

Lemma pParityLFSR_stored (sector : list Z) :
  len sector = 2064 ->
  exists p, pParityLFSR sector = Ok p /\ length p = 172%nat
            /\ laneStored 86 (pRegs sector) 43 p.
Proof.
  intros Hlen. unfold pParityLFSR. rewrite Hlen.
  change (negb (2064 =? 2064)) with false. cbv iota.
  destruct (foldM_storeLane 86 43 (pRegs sector) (pColumn sector) (replicate 172 0))
    as (p & E & HL & Hst); [reflexivity|reflexivity| |].
  - intros p c Hc. unfold pColumn. rewrite pRows_pRegs by (assumption || lia).
    reflexivity.
  - exists p. split; [exact E|]. split; [exact HL|exact Hst].
Qed.

Lemma qParityLFSR_stored (sector : list Z) :
  len sector = 2236 ->
  exists q, qParityLFSR sector = Ok q /\ length q = 104%nat
            /\ laneStored 52 (qRegs sector) 26 q.
Proof.
  intros Hlen. unfold qParityLFSR. rewrite Hlen.
  change (negb (2236 =? 2236)) with false. cbv iota.
  destruct (foldM_storeLane 52 26 (qRegs sector) (qDiagonal sector) (replicate 104 0))
    as (q & E & HL & Hst); [reflexivity|reflexivity| |].
  - intros q c Hc. unfold qDiagonal. rewrite qSteps_qRegs by (assumption || lia).
    reflexivity.
  - exists q. split; [exact E|]. split; [exact HL|exact Hst].
Qed.

Lemma eccByte_byte (sector : list Z) (i : Z) :
  Forall is_byte sector -> is_byte (eccByte sector i).
Proof.
  intros Hall. unfold eccByte. destruct (i <? 4); [exact byte_0|].
  apply lookup_default_byte, Hall.
Qed.

Lemma gfMult_3 f : is_byte f -> gfMult f 3 = Z.lxor (gfMult f 2) f.
Proof.
  intros Hf. change 3 with (Z.lxor 2 1).
  rewrite gfMult_lxor_r by (assumption || (unfold is_byte; lia)).
  rewrite gfMult_1_r by assumption. reflexivity.
Qed.

Lemma lane_lfsrShift (b : Z) (r : Regs) (dataLsb dataMsb : Z) :
  lane b (lfsrShift r dataLsb dataMsb)
  = laneShift (lane b r) (if b =? 0 then dataLsb else dataMsb).
Proof.
  destruct r as [[[r0l r0m] r1l] r1m]. unfold lfsrShift, lane, laneShift, g0, g1.
  destruct (b =? 0); reflexivity.
Qed.

Lemma LaneInv_nil : LaneInv [] (0, 0).
Proof. unfold LaneInv. repeat split; try reflexivity; vm_compute; discriminate. Qed.

Lemma LaneInv_step (data : list Z) (r : Z * Z) (d : Z) :
  LaneInv data r -> is_byte d -> LaneInv (data ++ [d]) (laneShift r d).
Proof.
  destruct r as [r0 r1]. unfold LaneInv, laneShift, xorAll, evalAlpha.
  cbn [fst snd]. rewrite !foldl_snoc.
  fold (xorAll data). fold (evalAlpha data).
  intros (H0 & H1 & HX & HT & BX & BE) Hd.
  assert (Hf : is_byte (Z.lxor d r1)) by (apply lxor_byte; assumption).
  pose proof (gfMult_byte (Z.lxor d r1) 2) as Hf2.
  pose proof (gfMult_byte (evalAlpha data) 2) as HE2.
  split; [exact Hf2|].
  split; [apply lxor_byte; [assumption|apply gfMult_byte]|].
  split.
  { rewrite <- HX, gfMult_3 by assumption. lxor_bits. }
  split.
  { rewrite (gfMult_lxor_l (gfMult (evalAlpha data) 2) d 2) by (assumption || exact byte_2).
    rewrite (gfMult_lxor_l _ (gfMult d 2) 2) by (apply gfMult_byte || exact byte_2).
    rewrite <- HT.
    rewrite (gfMult_lxor_l (gfMult r1 2) r0 2) by (assumption || apply gfMult_byte || exact byte_2).
    rewrite gfMult_3 by assumption.
    rewrite (gfMult_lxor_l r0 _ 2) by
      (assumption || exact byte_2 || (apply lxor_byte; assumption)).
    rewrite (gfMult_lxor_l (gfMult (Z.lxor d r1) 2) (Z.lxor d r1) 2)
      by (assumption || exact byte_2).
    rewrite (gfMult_lxor_l d r1 2) by (assumption || exact byte_2).
    rewrite (gfMult_lxor_l (gfMult d 2) (gfMult r1 2) 2)
      by (apply gfMult_byte || exact byte_2).
    lxor_bits. }
  split; [apply lxor_byte; assumption|].
  apply lxor_byte; assumption.
Qed.

Lemma LaneInv_run {A : Type} (b : Z) (fl fm : A -> Z) (ks : list A) :
  (forall k, is_byte (fl k)) -> (forall k, is_byte (fm k)) ->
  forall data r,
    LaneInv data (lane b r) ->
    LaneInv (data ++ ((fun k => if b =? 0 then fl k else fm k) <$> ks))
            (lane b (foldl (fun r k => lfsrShift r (fl k) (fm k)) r ks)).
Proof.
  intros Hl Hm. induction ks as [|k ks IH]; intros data r HInv.
  - simpl. rewrite app_nil_r. exact HInv.
  - cbn [foldl fmap list_fmap].
    replace (data ++ (if b =? 0 then fl k else fm k) :: _)
      with ((data ++ [if b =? 0 then fl k else fm k])
              ++ ((fun k => if b =? 0 then fl k else fm k) <$> ks))
      by (rewrite <- app_assoc; reflexivity).
    apply IH. rewrite lane_lfsrShift. apply LaneInv_step; [exact HInv|].
    destruct (b =? 0); auto.
Qed.

Lemma LaneInv_codeword (data : list Z) (r0 r1 : Z) :
  LaneInv data (r0, r1) ->
  xorAll (data ++ [r1; r0]) = 0 /\ evalAlpha (data ++ [r1; r0]) = 0.
Proof.
  unfold LaneInv, xorAll, evalAlpha. cbn [fst snd].
  rewrite !foldl_app. cbn [foldl].
  fold (xorAll data). fold (evalAlpha data).
  intros (H0 & H1 & HX & HT & BX & BE). split.
  - rewrite <- HX. lxor_bits.
  - rewrite (gfMult_lxor_l _ r1 2) by (assumption || apply gfMult_byte || exact byte_2).
    rewrite <- HT. lxor_bits.
Qed.

Lemma lane_zero b : lane b (0, 0, 0, 0) = (0, 0).
Proof. unfold lane. destruct (b =? 0); reflexivity. Qed.

Lemma pRegs_codeword (sector : list Z) (col b : Z) :
  Forall is_byte sector -> 0 <= b <= 1 ->
  xorAll (((fun row => eccByte sector (2 * col + 86 * row + b)) <$> seqZ 0 24)
          ++ [(lane b (pRegs sector col)).2; (lane b (pRegs sector col)).1]) = 0
  /\ evalAlpha (((fun row => eccByte sector (2 * col + 86 * row + b)) <$> seqZ 0 24)
          ++ [(lane b (pRegs sector col)).2; (lane b (pRegs sector col)).1]) = 0.
Proof.
  intros Hall Hb.
  pose proof (LaneInv_run b (fun row => eccByte sector (2 * col + 86 * row))
                (fun row => eccByte sector (2 * col + 86 * row + 1)) (seqZ 0 24)
                ltac:(intros; apply eccByte_byte, Hall)
                ltac:(intros; apply eccByte_byte, Hall)
                [] (0, 0, 0, 0)) as H.
  rewrite lane_zero in H. specialize (H LaneInv_nil).
  rewrite app_nil_l in H. unfold pRegs.
  set (R := foldl _ _ _) in *.
  replace ((fun k : Z => if b =? 0 then eccByte sector (2 * col + 86 * k)
                         else eccByte sector (2 * col + 86 * k + 1)) <$> seqZ 0 24)
    with ((fun row : Z => eccByte sector (2 * col + 86 * row + b)) <$> seqZ 0 24) in H.
  - destruct (lane b R) as [r0 r1]. apply LaneInv_codeword, H.
  - apply list_fmap_ext. intros _ k _.
    assert (Hb' : b = 0 \/ b = 1) by lia.
    destruct Hb' as [->| ->]; cbn [Z.eqb]; [rewrite Z.add_0_r|]; reflexivity.
Qed.

Lemma qRegs_codeword (sector : list Z) (diag b : Z) :
  Forall is_byte sector -> 0 <= b <= 1 ->
  xorAll (((fun step => eccByte sector ((86 * diag + 88 * step) mod 2236 + b))
             <$> seqZ 0 43)
          ++ [(lane b (qRegs sector diag)).2; (lane b (qRegs sector diag)).1]) = 0
  /\ evalAlpha (((fun step => eccByte sector ((86 * diag + 88 * step) mod 2236 + b))
             <$> seqZ 0 43)
          ++ [(lane b (qRegs sector diag)).2; (lane b (qRegs sector diag)).1]) = 0.
Proof.
  intros Hall Hb.
  pose proof (LaneInv_run b
                (fun step => eccByte sector ((86 * diag + 88 * step) mod 2236))
                (fun step => eccByte sector ((86 * diag + 88 * step) mod 2236 + 1))
                (seqZ 0 43)
                ltac:(intros; apply eccByte_byte, Hall)
                ltac:(intros; apply eccByte_byte, Hall)
                [] (0, 0, 0, 0)) as H.
  rewrite lane_zero in H. specialize (H LaneInv_nil).
  rewrite app_nil_l in H. unfold qRegs.
  set (R := foldl _ _ _) in *.
  replace ((fun k : Z => if b =? 0
                         then eccByte sector ((86 * diag + 88 * k) mod 2236)
                         else eccByte sector ((86 * diag + 88 * k) mod 2236 + 1))
             <$> seqZ 0 43)
    with ((fun step : Z => eccByte sector ((86 * diag + 88 * step) mod 2236 + b))
            <$> seqZ 0 43) in H.
  - destruct (lane b R) as [r0 r1]. apply LaneInv_codeword, H.
  - apply list_fmap_ext. intros _ k _.
    assert (Hb' : b = 0 \/ b = 1) by lia.
    destruct Hb' as [->| ->]; cbn [Z.eqb]; [rewrite Z.add_0_r|]; reflexivity.
Qed.

Lemma foldl_ext_in {A B : Type} (f g : A -> B -> A) (l : list B) :
  (forall a b, b ∈ l -> f a b = g a b) -> forall a, foldl f a l = foldl g a l.
Proof.
  induction l as [|b l IH]; intros Hfg a; [reflexivity|].
  cbn [foldl]. rewrite Hfg by left. apply IH.
  intros a0 b0 Hb0. apply Hfg. right. exact Hb0.
Qed.

Lemma eccByte_ext (s s' : list Z) (i : Z) :
  drop 4 s = drop 4 s' -> eccByte s i = eccByte s' i.
Proof.
  intros Hd. unfold eccByte. destruct (Z.ltb_spec i 4); [reflexivity|].
  replace (Z.to_nat i) with (4 + (Z.to_nat i - 4))%nat by lia.
  rewrite <- !lookup_drop, Hd. reflexivity.
Qed.

Lemma pRegs_ext (s s' : list Z) (col : Z) :
  drop 4 s = drop 4 s' -> pRegs s col = pRegs s' col.
Proof.
  intros Hd. unfold pRegs. apply foldl_ext_in. intros r row _.
  rewrite !(eccByte_ext s s' _ Hd). reflexivity.
Qed.

Lemma qRegs_ext (s s' : list Z) (diag : Z) :
  drop 4 s = drop 4 s' -> qRegs s diag = qRegs s' diag.
Proof.
  intros Hd. unfold qRegs. apply foldl_ext_in. intros r step _.
  rewrite !(eccByte_ext s s' _ Hd). reflexivity.
Qed.

Lemma pParityLFSR_unfold (s : list Z) :
  len s = 2064 -> pParityLFSR s = foldM (pColumn s) (seqZ 0 43) (replicate 172 0).
Proof.
  intros H. unfold pParityLFSR. rewrite H.
  change (negb (2064 =? 2064)) with false. reflexivity.
Qed.

Lemma pParityLFSR_panic (s : list Z) : len s <> 2064 -> pParityLFSR s = Err ErrPanic.
Proof.
  intros H. unfold pParityLFSR.
  destruct (Z.eqb_spec (len s) 2064); [contradiction|reflexivity].
Qed.

Lemma qParityLFSR_unfold (s : list Z) :
  len s = 2236 -> qParityLFSR s = foldM (qDiagonal s) (seqZ 0 26) (replicate 104 0).
Proof.
  intros H. unfold qParityLFSR. rewrite H.
  change (negb (2236 =? 2236)) with false. reflexivity.
Qed.

Lemma qParityLFSR_panic (s : list Z) : len s <> 2236 -> qParityLFSR s = Err ErrPanic.
Proof.
  intros H. unfold qParityLFSR.
  destruct (Z.eqb_spec (len s) 2236); [contradiction|reflexivity].
Qed.

Lemma pParityLFSR_ext (s s' : list Z) :
  length s = length s' -> drop 4 s = drop 4 s' -> pParityLFSR s = pParityLFSR s'.
Proof.
  intros Hlen Hd.
  assert (Hl : len s' = len s) by (unfold len; rewrite Hlen; reflexivity).
  destruct (Z.eq_dec (len s) 2064) as [H|H].
  - rewrite !pParityLFSR_unfold by lia.
    apply foldM_ext. intros p c Hc. apply elem_of_seqZ in Hc.
    unfold pColumn.
    rewrite (pRows_pRegs s), (pRows_pRegs s') by lia.
    rewrite (pRegs_ext s s' c Hd). reflexivity.
  - rewrite !pParityLFSR_panic by lia. reflexivity.
Qed.

Lemma qParityLFSR_ext (s s' : list Z) :
  length s = length s' -> drop 4 s = drop 4 s' -> qParityLFSR s = qParityLFSR s'.
Proof.
  intros Hlen Hd.
  assert (Hl : len s' = len s) by (unfold len; rewrite Hlen; reflexivity).
  destruct (Z.eq_dec (len s) 2236) as [H|H].
  - rewrite !qParityLFSR_unfold by lia.
    apply foldM_ext. intros p c Hc. apply elem_of_seqZ in Hc.
    unfold qDiagonal.
    rewrite (qSteps_qRegs s), (qSteps_qRegs s') by lia.
    rewrite (qRegs_ext s s' c Hd). reflexivity.
  - rewrite !qParityLFSR_panic by lia. reflexivity.
Qed.

Lemma lfsrShift_bytes (r : Regs) (dl dm : Z) :
  regs_bytes r -> regs_bytes (lfsrShift r dl dm).
Proof.
  destruct r as [[[r0l r0m] r1l] r1m]. unfold regs_bytes. cbn [fst snd lfsrShift].
  intros (H1 & H2 & H3 & H4).
  repeat split; try apply gfMult_byte; apply lxor_byte; try assumption; apply gfMult_byte.
Qed.

Lemma foldl_regs_bytes {A : Type} (f : Regs -> A -> Regs) (ks : list A) :
  (forall r k, regs_bytes r -> regs_bytes (f r k)) ->
  forall r, regs_bytes r -> regs_bytes (foldl f r ks).
Proof.
  intros Hf. induction ks as [|k ks IH]; intros r Hr; cbn [foldl]; [exact Hr|].
  apply IH, Hf, Hr.
Qed.

Lemma regs_bytes_zero : regs_bytes (0, 0, 0, 0).
Proof. unfold regs_bytes. cbn [fst snd]. repeat split; lia. Qed.

Lemma lane_bytes (b : Z) (r : Regs) :
  regs_bytes r -> is_byte (lane b r).1 /\ is_byte (lane b r).2.
Proof.
  destruct r as [[[r0l r0m] r1l] r1m]. unfold regs_bytes. cbn [fst snd lane].
  intros (H1 & H2 & H3 & H4). destruct (b =? 0); auto.
Qed.

Lemma pRegs_bytes (s : list Z) (col : Z) : regs_bytes (pRegs s col).
Proof.
  unfold pRegs. apply foldl_regs_bytes; [|exact regs_bytes_zero].
  intros r k Hr. apply lfsrShift_bytes, Hr.
Qed.

Lemma qRegs_bytes (s : list Z) (diag : Z) : regs_bytes (qRegs s diag).
Proof.
  unfold qRegs. apply foldl_regs_bytes; [|exact regs_bytes_zero].
  intros r k Hr. apply lfsrShift_bytes, Hr.
Qed.

Lemma laneStored_bytes (n : nat) (regs : Z -> Regs) (p : list Z) :
  length p = (4 * n)%nat ->
  laneStored (2 * Z.of_nat n) regs (Z.of_nat n) p ->
  (forall c b, is_byte (lane b (regs c)).1 /\ is_byte (lane b (regs c)).2) ->
  Forall is_byte p.
Proof.
  intros Hlen Hst Hb. apply Forall_lookup. intros j x Hj.
  pose proof (lookup_lt_Some _ _ _ Hj) as Hlt. rewrite Hlen in Hlt.
  set (i := Z.of_nat j).
  assert (Hcases : i < 2 * Z.of_nat n \/ 2 * Z.of_nat n <= i) by lia.
  destruct Hcases as [Hlo|Hhi].
  - destruct (Hst (i / 2) (i mod 2)) as [H1 _];
      [subst i; Z.div_mod_to_equations; lia..|].
    replace (Z.to_nat (2 * (i / 2) + i mod 2)) with j in H1
      by (subst i; Z.div_mod_to_equations; lia).
    rewrite Hj in H1. injection H1 as ->. apply Hb.
  - set (k := i - 2 * Z.of_nat n).
    destruct (Hst (k / 2) (k mod 2)) as [_ H0];
      [subst k i; Z.div_mod_to_equations; lia..|].
    replace (Z.to_nat (2 * Z.of_nat n + 2 * (k / 2) + k mod 2)) with j in H0
      by (subst k i; Z.div_mod_to_equations; lia).
    rewrite Hj in H0. injection H0 as ->. apply Hb.
Qed.

Lemma pParityLFSR_bytes (sector p : list Z) :
  pParityLFSR sector = Ok p -> Forall is_byte p.
Proof.
  intros Hp.
  assert (Hlen : len sector = 2064).
  { unfold pParityLFSR in Hp. destruct (Z.eqb_spec (len sector) 2064); [assumption|discriminate]. }
  destruct (pParityLFSR_stored sector Hlen) as (p' & E & HL & Hst).
  rewrite E in Hp. injection Hp as ->.
  apply (laneStored_bytes 43 (pRegs sector)); [exact HL|exact Hst|].
  intros c b. apply lane_bytes, pRegs_bytes.
Qed.

Lemma qParityLFSR_bytes (sector q : list Z) :
  qParityLFSR sector = Ok q -> Forall is_byte q.
Proof.
  intros Hq.
  assert (Hlen : len sector = 2236).
  { unfold qParityLFSR in Hq. destruct (Z.eqb_spec (len sector) 2236); [assumption|discriminate]. }
  destruct (qParityLFSR_stored sector Hlen) as (q' & E & HL & Hst).
  rewrite E in Hq. injection Hq as ->.
  apply (laneStored_bytes 26 (qRegs sector)); [exact HL|exact Hst|].
  intros c b. apply lane_bytes, qRegs_bytes.
Qed.

Lemma pParityLFSR_codeword (sector p : list Z) (col b : Z) :
  Forall is_byte sector -> pParityLFSR sector = Ok p ->
  0 <= col < 43 -> 0 <= b <= 1 ->
  length (pCodeword sector p col b) = 26%nat
  /\ xorAll (pCodeword sector p col b) = 0
  /\ evalAlpha (pCodeword sector p col b) = 0.
Proof.
  intros Hall Hp Hcol Hb.
  assert (Hlen : len sector = 2064).
  { unfold pParityLFSR in Hp.
    destruct (Z.eqb_spec (len sector) 2064); [assumption|discriminate]. }
  destruct (pParityLFSR_stored sector Hlen) as (p' & E & HL & Hst).
  rewrite E in Hp. injection Hp as ->.
  destruct (Hst col b Hcol Hb) as [H1 H0].
  unfold pCodeword. rewrite H1, H0. cbn [default].
  split; [reflexivity|]. apply pRegs_codeword; assumption.
Qed.

Lemma qParityLFSR_codeword (sector q : list Z) (diag b : Z) :
  Forall is_byte sector -> qParityLFSR sector = Ok q ->
  0 <= diag < 26 -> 0 <= b <= 1 ->
  length (qCodeword sector q diag b) = 45%nat
  /\ xorAll (qCodeword sector q diag b) = 0
  /\ evalAlpha (qCodeword sector q diag b) = 0.
Proof.
  intros Hall Hq Hd Hb.
  assert (Hlen : len sector = 2236).
  { unfold qParityLFSR in Hq.
    destruct (Z.eqb_spec (len sector) 2236); [assumption|discriminate]. }
  destruct (qParityLFSR_stored sector Hlen) as (q' & E & HL & Hst).
  rewrite E in Hq. injection Hq as ->.
  destruct (Hst diag b Hd Hb) as [H1 H0].
  unfold qCodeword. rewrite H1, H0. cbn [default].
  split; [reflexivity|]. apply qRegs_codeword; assumption.
Qed.

(** X4.  P parity.  Take the input of [pParityLFSR] with its four header
    bytes read as zeros.  For each of the 43 columns and each of the two
    byte lanes, the 24 bytes of the column (86 bytes apart) followed by
    the two parity bytes the function stores for it, the one of the first
    half of the block and then the one of the second half, form a word of
    26 bytes whose XOR is 0 and whose value at alpha = 2 is 0: a code word
    of the Reed-Solomon code with generator (x + 1)(x + alpha). *)
Theorem pParity_codewords (sector p : list Z) (col b : Z) :
  Forall is_byte sector -> pParityLFSR sector = Ok p ->
  0 <= col < 43 -> 0 <= b <= 1 ->
  length (pCodeword sector p col b) = 26%nat
  /\ xorAll (pCodeword sector p col b) = 0
  /\ evalAlpha (pCodeword sector p col b) = 0.
Proof. apply pParityLFSR_codeword. Qed.

(** A witness of X4: column 5, odd lane, of a 2064-byte ramp. *)
Lemma pParity_codewords_witness :
  exists p, pParityLFSR (rampPayload 2064) = Ok p
            /\ xorAll (pCodeword (rampPayload 2064) p 5 1) = 0
            /\ evalAlpha (pCodeword (rampPayload 2064) p 5 1) = 0.
Proof.
  eexists. split; [vm_compute; reflexivity|].
  apply (pParity_codewords (rampPayload 2064) _ 5 1);
    [apply bytes_checked; vm_compute; reflexivity|vm_compute; reflexivity|lia|lia].
Defined.

(** X5.  Q parity.  With the header bytes read as zeros, for each of the
    26 diagonals and each byte lane, the 43 bytes of the diagonal (88
    bytes apart, wrapping at 2236) followed by the two parity bytes stored
    for it form a word of 45 bytes whose XOR is 0 and whose value at
    alpha = 2 is 0. *)
Theorem qParity_codewords (sector q : list Z) (diag b : Z) :
  Forall is_byte sector -> qParityLFSR sector = Ok q ->
  0 <= diag < 26 -> 0 <= b <= 1 ->
  length (qCodeword sector q diag b) = 45%nat
  /\ xorAll (qCodeword sector q diag b) = 0
  /\ evalAlpha (qCodeword sector q diag b) = 0.
Proof. apply qParityLFSR_codeword. Qed.

(** A witness of X5: diagonal 25, even lane, of a 2236-byte ramp. *)
Lemma qParity_codewords_witness :
  exists q, qParityLFSR (rampPayload 2236) = Ok q
            /\ xorAll (qCodeword (rampPayload 2236) q 25 0) = 0
            /\ evalAlpha (qCodeword (rampPayload 2236) q 25 0) = 0.
Proof.
  eexists. split; [vm_compute; reflexivity|].
  apply (qParity_codewords (rampPayload 2236) _ 25 0);
    [apply bytes_checked; vm_compute; reflexivity|vm_compute; reflexivity|lia|lia].
Defined.

(** X6.  The parity blocks do not depend on the first four bytes of the
    input (the minute, second, frame and mode of the header): two inputs
    of the same length that agree from index 4 on have the same P parity
    and the same Q parity. *)
Theorem parity_ignores_header (s s' : list Z) :
  length s = length s' -> drop 4 s = drop 4 s' ->
  pParityLFSR s = pParityLFSR s' /\ qParityLFSR s = qParityLFSR s'.
Proof.
  intros Hlen Hd. split; [apply pParityLFSR_ext|apply qParityLFSR_ext]; assumption.
Qed.

(** A witness of X6: the header 00:02:00, mode 2, against four zeros. *)
Lemma parity_ignores_header_witness :
  pParityLFSR ([0; 2; 0; 2] ++ replicate 2060 0) = pParityLFSR (replicate 2064 0).
Proof.
  destruct (parity_ignores_header ([0; 2; 0; 2] ++ replicate 2060 0) (replicate 2064 0))
    as [H _]; [vm_compute; reflexivity..|exact H].
Defined.

(** ** The EDC as a checksum *)

Lemma edcLUT_linear_checked : all_byte_pairs edcLUT_linear = true.
Proof. vm_compute. reflexivity. Qed.

Lemma edcLUT_top_checked : all_bytes edcLUT_top_ok = true.
Proof. vm_compute. reflexivity. Qed.

Lemma edcLUTAt_lxor i j :
  is_byte i -> is_byte j -> edcLUTAt (Z.lxor i j) = Z.lxor (edcLUTAt i) (edcLUTAt j).
Proof.
  intros Hi Hj. pose proof (all_byte_pairs_spec _ edcLUT_linear_checked i j Hi Hj) as H.
  unfold edcLUT_linear in H. lia.
Qed.

Lemma edcLUTAt_range i : is_byte i -> 0 <= edcLUTAt i < 2 ^ 32.
Proof.
  intros Hi. pose proof (all_bytes_spec _ edcLUT_top_checked i Hi) as H.
  unfold edcLUT_top_ok in H. lia.
Qed.

Lemma edcLUTAt_top i : is_byte i -> i <> 0 -> Z.shiftr (edcLUTAt i) 24 <> 0.
Proof.
  intros Hi Hne. pose proof (all_bytes_spec _ edcLUT_top_checked i Hi) as H.
  unfold edcLUT_top_ok in H.
  destruct (Z.eqb_spec i 0); [contradiction|].
  destruct (Z.eqb_spec (Z.shiftr (edcLUTAt i) 24) 0); [|assumption].
  rewrite andb_false_r in H. discriminate.
Qed.

Lemma edcStep_range acc b :
  0 <= acc < 2 ^ 32 -> is_byte b -> 0 <= edcStep acc b < 2 ^ 32.
Proof. intros. apply edcStep_checksum; assumption. Qed.

Lemma edcAcc_range data : forall acc,
  0 <= acc < 2 ^ 32 -> Forall is_byte data -> 0 <= foldl edcStep acc data < 2 ^ 32.
Proof.
  induction data as [|b data IH]; intros acc Hacc Hall; [exact Hacc|].
  inversion Hall; subst. cbn [foldl]. apply IH; [apply edcStep_range|]; assumption.
Qed.

Lemma byte_land z : byte z = Z.land z 255.
Proof. unfold byte. change 255 with (Z.ones 8). rewrite Z.land_ones by lia. reflexivity. Qed.

Lemma byte_lxor a b : byte (Z.lxor a b) = Z.lxor (byte a) (byte b).
Proof.
  rewrite !byte_land. apply Z.bits_inj'. intros n _.
  rewrite Z.lxor_spec, !Z.land_spec, Z.lxor_spec.
  destruct (Z.testbit a n), (Z.testbit b n), (Z.testbit 255 n); reflexivity.
Qed.

Lemma byte_small z : is_byte z -> byte z = z.
Proof. unfold is_byte, byte. intros. apply Z.mod_small. lia. Qed.

Lemma edcStep_own_byte acc : edcStep acc (byte acc) = Z.shiftr acc 8.
Proof.
  unfold edcStep. rewrite Z.lxor_nilpotent.
  change (default 0 (edcLUT !! Z.to_nat 0)) with 0. apply Z.lxor_0_r.
Qed.

Lemma edcAcc_own_bytes acc :
  0 <= acc < 2 ^ 32 ->
  foldl edcStep acc
    [byte acc; byte (Z.shiftr acc 8); byte (Z.shiftr acc 16); byte (Z.shiftr acc 24)] = 0.
Proof.
  intros Hacc. cbn [foldl].
  rewrite edcStep_own_byte, edcStep_own_byte, Z.shiftr_shiftr by lia.
  change (8 + 8) with 16.
  rewrite edcStep_own_byte, Z.shiftr_shiftr by lia. change (16 + 8) with 24.
  rewrite edcStep_own_byte, Z.shiftr_shiftr by lia. change (24 + 8) with 32.
  rewrite Z.shiftr_div_pow2 by lia. apply Z.div_small. exact Hacc.
Qed.

Lemma edcAcc_zeros (n : nat) : foldl edcStep 0 (replicate n 0) = 0.
Proof. induction n as [|n IH]; [reflexivity|exact IH]. Qed.

Lemma edcStep_lxor x y b c :
  0 <= x < 2 ^ 32 -> 0 <= y < 2 ^ 32 -> is_byte b -> is_byte c ->
  edcStep (Z.lxor x y) (Z.lxor b c) = Z.lxor (edcStep x b) (edcStep y c).
Proof.
  intros Hx Hy Hb Hc. unfold edcStep. fold (edcLUTAt (Z.lxor (byte (Z.lxor x y)) (Z.lxor b c))).
  fold (edcLUTAt (Z.lxor (byte x) b)). fold (edcLUTAt (Z.lxor (byte y) c)).
  rewrite byte_lxor, Z.shiftr_lxor.
  replace (Z.lxor (Z.lxor (byte x) (byte y)) (Z.lxor b c))
    with (Z.lxor (Z.lxor (byte x) b) (Z.lxor (byte y) c)) by apply lxor_swap_mid.
  rewrite edcLUTAt_lxor by (apply lxor_byte; (apply byte_is_byte || assumption)).
  apply lxor_swap_mid.
Qed.

Lemma edcAcc_lxor (a : list Z) : forall (b : list Z) x y,
  0 <= x < 2 ^ 32 -> 0 <= y < 2 ^ 32 -> Forall is_byte a -> Forall is_byte b ->
  length a = length b ->
  foldl edcStep (Z.lxor x y) (zip_with Z.lxor a b)
  = Z.lxor (foldl edcStep x a) (foldl edcStep y b).
Proof.
  induction a as [|u a IH]; intros [|v b] x y Hx Hy Ha Hb Hlen; try discriminate.
  - reflexivity.
  - inversion Ha; inversion Hb; subst. cbn [zip_with foldl].
    rewrite edcStep_lxor by assumption.
    apply IH; try assumption; try (apply edcStep_range; assumption).
    simpl in Hlen. lia.
Qed.

(** A step on the byte 0 keeps a non-zero accumulator non-zero. *)
Lemma edcStep_0_nonzero acc :
  0 <= acc < 2 ^ 32 -> acc <> 0 -> edcStep acc 0 <> 0.
Proof.
  intros Hacc Hne Hz. unfold edcStep in Hz. rewrite Z.lxor_0_r in Hz.
  fold (edcLUTAt (byte acc)) in Hz.
  apply Z.lxor_eq in Hz.
  destruct (Z.eq_dec (byte acc) 0) as [Hb|Hb].
  - rewrite Hb in Hz. change (edcLUTAt 0) with 0 in Hz.
    rewrite Z.shiftr_div_pow2 in Hz by lia. unfold byte in Hb.
    change (2 ^ 8) with 256 in Hz. Z.div_mod_to_equations. lia.
  - apply (edcLUTAt_top (byte acc) (byte_is_byte acc) Hb).
    rewrite <- Hz, Z.shiftr_shiftr by lia. change (8 + 24) with 32.
    rewrite Z.shiftr_div_pow2 by lia. apply Z.div_small. exact Hacc.
Qed.

Lemma edcAcc_zeros_nonzero (n : nat) : forall acc,
  0 <= acc < 2 ^ 32 -> acc <> 0 -> foldl edcStep acc (replicate n 0) <> 0.
Proof.
  induction n as [|n IH]; intros acc Hacc Hne; [exact Hne|].
  cbn [replicate foldl]. apply IH.
  - apply edcStep_range; [assumption|unfold is_byte; lia].
  - apply edcStep_0_nonzero; assumption.
Qed.

Lemma edcLUTAt_nonzero d : is_byte d -> d <> 0 -> edcLUTAt d <> 0.
Proof.
  intros Hd Hne Hz. apply (edcLUTAt_top d Hd Hne). rewrite Hz. reflexivity.
Qed.

Lemma computeEDC_inj_acc a b :
  0 <= a < 2 ^ 32 -> 0 <= b < 2 ^ 32 ->
  [byte a; byte (Z.shiftr a 8); byte (Z.shiftr a 16); byte (Z.shiftr a 24)]
  = [byte b; byte (Z.shiftr b 8); byte (Z.shiftr b 16); byte (Z.shiftr b 24)] ->
  a = b.
Proof.
  intros Ha Hb [= H0 H1 H2 H3]. unfold byte in *.
  rewrite !Z.shiftr_div_pow2 in * by lia.
  change (2 ^ 8) with 256 in *. change (2 ^ 16) with 65536 in *.
  change (2 ^ 24) with 16777216 in *. change (2 ^ 32) with 4294967296 in *.
  Z.div_mod_to_equations. lia.
Qed.

Lemma lxor_neq_0 a b : a <> b -> Z.lxor a b <> 0.
Proof. intros Hne Hz. apply Hne, Z.lxor_eq, Hz. Qed.

Lemma edcStep_inj_acc a1 a2 b :
  0 <= a1 < 2 ^ 32 -> 0 <= a2 < 2 ^ 32 -> is_byte b ->
  a1 <> a2 -> edcStep a1 b <> edcStep a2 b.
Proof.
  intros H1 H2 Hb Hne Heq.
  assert (Hx : 0 <= Z.lxor a1 a2 < 2 ^ 32) by (apply (lxor_bound 32); lia).
  apply (edcStep_0_nonzero (Z.lxor a1 a2) Hx (lxor_neq_0 _ _ Hne)).
  pose proof (edcStep_lxor a1 a2 b b H1 H2 Hb Hb) as H.
  rewrite Heq, !Z.lxor_nilpotent in H. exact H.
Qed.

Lemma edcStep_inj_byte acc x y :
  0 <= acc < 2 ^ 32 -> is_byte x -> is_byte y ->
  x <> y -> edcStep acc x <> edcStep acc y.
Proof.
  intros Hacc Hx Hy Hne Heq.
  assert (Hxy : is_byte (Z.lxor x y)) by (apply lxor_byte; assumption).
  apply (edcLUTAt_nonzero (Z.lxor x y) Hxy (lxor_neq_0 _ _ Hne)).
  assert (H0 : edcStep 0 (Z.lxor x y) = edcLUTAt (Z.lxor x y)).
  { unfold edcStep, edcLUTAt. change (byte 0) with 0. change (Z.shiftr 0 8) with 0.
    rewrite !Z.lxor_0_l. reflexivity. }
  pose proof (edcStep_lxor acc acc x y Hacc Hacc Hx Hy) as H.
  rewrite Heq, !Z.lxor_nilpotent, H0 in H. exact H.
Qed.

Lemma edcAcc_inj_acc (data : list Z) : forall a1 a2,
  0 <= a1 < 2 ^ 32 -> 0 <= a2 < 2 ^ 32 -> Forall is_byte data ->
  a1 <> a2 -> foldl edcStep a1 data <> foldl edcStep a2 data.
Proof.
  induction data as [|b data IH]; intros a1 a2 H1 H2 Hall Hne; [exact Hne|].
  inversion Hall; subst. cbn [foldl].
  apply IH; try assumption; try (apply edcStep_range; assumption).
  apply edcStep_inj_acc; assumption.
Qed.

Lemma computeEDC_bytes data : Forall is_byte (computeEDC data).
Proof. unfold computeEDC. repeat constructor; apply byte_is_byte. Qed.

(** X7.  The EDC of a span followed by its own four EDC bytes is zero:
    running the accumulator over the bytes 16..2075 of a sector, the span
    and the EDC the encoder stores after it, leaves no remainder. *)
Theorem computeEDC_residue (data : list Z) :
  Forall is_byte data ->
  edcAcc (data ++ computeEDC data) = 0
  /\ computeEDC (data ++ computeEDC data) = [0; 0; 0; 0].
Proof.
  intros Hall.
  assert (H : edcAcc (data ++ computeEDC data) = 0).
  { unfold edcAcc, computeEDC. rewrite foldl_app. fold (edcAcc data).
    apply edcAcc_own_bytes. apply (edcAcc_range data 0); [lia|exact Hall]. }
  split; [exact H|]. unfold computeEDC at 1. rewrite H. reflexivity.
Qed.

(** A witness of X7 on the three bytes 1, 2, 3. *)
Lemma computeEDC_residue_witness :
  computeEDC ([1; 2; 3] ++ computeEDC [1; 2; 3]) = [0; 0; 0; 0].
Proof.
  apply (computeEDC_residue [1; 2; 3]).
  apply bytes_checked. vm_compute. reflexivity.
Defined.

(** X8.  The accumulator starts at 0 and the table holds 0 at index 0, so
    zero bytes in front of a span do not change its EDC, and a span of
    zeros of any length has the EDC 00 00 00 00. *)
Theorem computeEDC_leading_zeros (n : nat) (data : list Z) :
  computeEDC (replicate n 0 ++ data) = computeEDC data
  /\ computeEDC (replicate n 0) = [0; 0; 0; 0].
Proof.
  assert (H : forall l, edcAcc (replicate n 0 ++ l) = edcAcc l).
  { intros l. unfold edcAcc. rewrite foldl_app, edcAcc_zeros. reflexivity. }
  split.
  - unfold computeEDC. rewrite H. reflexivity.
  - rewrite <- (app_nil_r (replicate n 0)). unfold computeEDC. rewrite H. reflexivity.
Qed.

(** X9.  [computeEDC] is linear over XOR: the EDC of the bytewise XOR of
    two spans of the same length is the bytewise XOR of their EDCs. *)
Theorem computeEDC_linear (a b : list Z) :
  Forall is_byte a -> Forall is_byte b -> length a = length b ->
  computeEDC (zip_with Z.lxor a b) = zip_with Z.lxor (computeEDC a) (computeEDC b).
Proof.
  intros Ha Hb Hlen.
  assert (H : edcAcc (zip_with Z.lxor a b) = Z.lxor (edcAcc a) (edcAcc b)).
  { unfold edcAcc. rewrite <- (Z.lxor_0_r 0) at 1. apply edcAcc_lxor; auto; lia. }
  unfold computeEDC. rewrite H. cbn [zip_with].
  rewrite !Z.shiftr_lxor, !byte_lxor. reflexivity.
Qed.

(** A witness of X9 on two spans of three bytes. *)
Lemma computeEDC_linear_witness :
  computeEDC (zip_with Z.lxor [1; 2; 3] [7; 0; 255])
  = zip_with Z.lxor (computeEDC [1; 2; 3]) (computeEDC [7; 0; 255]).
Proof.
  apply (computeEDC_linear [1; 2; 3] [7; 0; 255]);
    [apply bytes_checked; vm_compute; reflexivity..|reflexivity].
Defined.

(** X10.  The EDC detects every error confined to one byte: two spans
    that differ in exactly one byte have different EDCs. *)
Theorem computeEDC_detects_byte_error (pre post : list Z) (x y : Z) :
  Forall is_byte pre -> Forall is_byte post -> is_byte x -> is_byte y ->
  x <> y ->
  computeEDC (pre ++ x :: post) <> computeEDC (pre ++ y :: post).
Proof.
  intros Hpre Hpost Hx Hy Hne Heq.
  assert (HE : 0 <= edcAcc pre < 2 ^ 32) by (apply (edcAcc_range pre 0); [lia|exact Hpre]).
  assert (HA : forall z, is_byte z -> 0 <= edcAcc (pre ++ z :: post) < 2 ^ 32).
  { intros z Hz. apply (edcAcc_range _ 0); [lia|].
    apply Forall_app. split; [exact Hpre|constructor; assumption]. }
  apply computeEDC_inj_acc in Heq; [|apply HA; assumption..].
  unfold edcAcc in Heq. rewrite !foldl_app in Heq. cbn [foldl] in Heq.
  fold (edcAcc pre) in Heq. revert Heq.
  apply edcAcc_inj_acc; try assumption; try (apply edcStep_range; assumption).
  apply edcStep_inj_byte; assumption.
Qed.

(** A witness of X10: the third of four bytes changed from 3 to 5. *)
Lemma computeEDC_detects_byte_error_witness :
  computeEDC ([1; 2] ++ 3 :: [4]) <> computeEDC ([1; 2] ++ 5 :: [4]).
Proof.
  apply (computeEDC_detects_byte_error [1; 2] [4] 3 5);
    [apply bytes_checked; vm_compute; reflexivity..
    |unfold is_byte; lia|unfold is_byte; lia|lia].
Defined.

(** ** Addresses: minute, second, frame and BCD *)

Lemma wrap64_byte z : byte (wrap64 z) = byte z.
Proof.
  unfold byte. pose proof (wrap64_mod z) as H.
  assert (Hd : (256 | 2 ^ 64)) by (exists (2 ^ 56); reflexivity).
  rewrite <- (Z.mod_mod_divide (wrap64 z) (2 ^ 64) 256 Hd), H.
  apply Z.mod_mod_divide, Hd.
Qed.

Lemma byte_lor a b : byte (Z.lor a b) = Z.lor (byte a) (byte b).
Proof. rewrite !byte_land. apply Z.land_lor_distr_l. Qed.

Lemma lor_nibbles k d : 0 <= k -> 0 <= d < 16 -> Z.lor (16 * k) d = 16 * k + d.
Proof.
  intros Hk Hd.
  assert (Hland : Z.land (16 * k) d = 0).
  { apply Z.bits_inj'. intros n Hn. rewrite Z.land_spec, Z.bits_0.
    replace (16 * k) with (Z.shiftl k 4) by (rewrite Z.shiftl_mul_pow2; lia).
    destruct (Z.lt_ge_cases n 4) as [Hlt|Hge].
    - rewrite Z.shiftl_spec_low by lia. reflexivity.
    - destruct (Z.eq_dec d 0) as [->|Hd0]; [rewrite Z.bits_0; apply andb_false_r|].
      rewrite (Z.bits_above_log2 d n); [apply andb_false_r|lia|].
      assert (Z.log2 d < 4) by (apply Z.log2_lt_pow2; lia). lia. }
  rewrite <- (Z.lxor_lor _ _ Hland). symmetry. apply Z.add_nocarry_lxor, Hland.
Qed.

(** The closed form of [toBCD] on the non-negative values. *)
Lemma toBCD_closed v : 0 <= v -> toBCD v = 16 * ((v / 10) mod 16) + v mod 10.
Proof.
  intros Hv. unfold toBCD.
  rewrite Z.quot_div_nonneg, Z.rem_mod_nonneg by lia.
  rewrite byte_lor, wrap64_byte, Z.shiftl_mul_pow2 by lia.
  pose proof (Z.mod_pos_bound v 10 ltac:(lia)) as Hu.
  rewrite (byte_small (v mod 10)) by (unfold is_byte; lia).
  assert (Hhi : byte (v / 10 * 2 ^ 4) = 16 * ((v / 10) mod 16)).
  { unfold byte. change (2 ^ 4) with 16. Z.div_mod_to_equations. lia. }
  rewrite Hhi. apply lor_nibbles; [|lia].
  apply Z.mod_pos_bound. lia.
Qed.

Lemma lbaToMSF_nonneg (lba : Z) :
  0 <= lba ->
  msfToLBA (lbaToMSF lba) = lba
  /\ 0 <= (lbaToMSF lba).1.1 /\ 0 <= (lbaToMSF lba).1.2 < 60
  /\ 0 <= (lbaToMSF lba).2 < 75.
Proof.
  intros Hpos. unfold msfToLBA, lbaToMSF. cbn [fst snd].
  change (60 * 75) with 4500.
  assert (Hq : Z.quot lba 4500 = Z.quot (Z.quot lba 75) 60).
  { rewrite Z.quot_quot by lia. reflexivity. }
  rewrite Hq.
  pose proof (Z.quot_rem' lba 75) as H1.
  pose proof (Z.quot_rem' (Z.quot lba 75) 60) as H2.
  pose proof (Z.rem_bound_pos lba 75 Hpos ltac:(lia)).
  assert (0 <= Z.quot lba 75) by (apply Z.quot_pos; lia).
  pose proof (Z.rem_bound_pos (Z.quot lba 75) 60 ltac:(lia) ltac:(lia)).
  assert (0 <= Z.quot (Z.quot lba 75) 60) by (apply Z.quot_pos; lia).
  lia.
Qed.

Lemma toBCD_small v : 0 <= v < 100 -> isBCD (toBCD v) /\ fromBCD (toBCD v) = v.
Proof.
  intros Hv. rewrite toBCD_closed by lia. unfold isBCD, fromBCD.
  Z.div_mod_to_equations. lia.
Qed.

(** The header bytes against the BCD of the specification. *)
Lemma toBCD_bcd v : 0 <= v -> toBCD v = Spec.bcd v mod 256.
Proof.
  intros Hv. unfold toBCD, Spec.bcd.
  rewrite Z.quot_div_nonneg, Z.rem_mod_nonneg by lia.
  fold (byte (Z.lor (Z.shiftl (v / 10) 4) (v mod 10))).
  rewrite !byte_lor, wrap64_byte. reflexivity.
Qed.

Lemma bcd_small v : 0 <= v < 160 -> Spec.bcd v mod 256 = Spec.bcd v.
Proof.
  intros Hv. apply Z.mod_small. unfold Spec.bcd.
  rewrite Z.shiftl_mul_pow2 by lia. change (2 ^ 4) with 16.
  pose proof (Z.mod_pos_bound v 10 ltac:(lia)).
  rewrite (Z.mul_comm _ 16), lor_nibbles by (try apply Z.div_pos; lia).
  Z.div_mod_to_equations. lia.
Qed.

Lemma header_address t lba :
  0 <= lba <= maxInt ->
  take 3 (header t lba)
  = [Spec.bcd (lba / 4500) mod 256; Spec.bcd (lba / 75 mod 60); Spec.bcd (lba mod 75)].
Proof.
  intros Hl. unfold header, lbaToMSF. cbn [take fst snd].
  change (60 * 75) with 4500.
  rewrite !Z.quot_div_nonneg, !Z.rem_mod_nonneg by (try apply Z.div_pos; lia).
  pose proof (Z.mod_pos_bound (lba / 75) 60 ltac:(lia)).
  pose proof (Z.mod_pos_bound lba 75 ltac:(lia)).
  rewrite !toBCD_bcd by (try apply Z.div_pos; lia).
  rewrite (bcd_small (lba / 75 mod 60)), (bcd_small (lba mod 75)) by lia.
  reflexivity.
Qed.

Lemma header_decodes t lba :
  0 <= lba < 450000 ->
  exists bm bs bf,
    take 3 (header t lba) = [bm; bs; bf]
    /\ isBCD bm /\ isBCD bs /\ isBCD bf
    /\ fromBCD bm = lba / 4500 /\ fromBCD bs = lba / 75 mod 60 /\ fromBCD bf = lba mod 75
    /\ msfToLBA (fromBCD bm, fromBCD bs, fromBCD bf) = lba.
Proof.
  intros Hl. unfold header. cbn [take].
  destruct (lbaToMSF_nonneg lba ltac:(lia)) as (Hback & Hm & Hs & Hf).
  assert (Hm' : (lbaToMSF lba).1.1 < 100).
  { unfold lbaToMSF. cbn [fst]. rewrite Z.quot_div_nonneg by lia.
    apply Z.div_lt_upper_bound; lia. }
  destruct (toBCD_small (lbaToMSF lba).1.1 ltac:(lia)) as [B1 F1].
  destruct (toBCD_small (lbaToMSF lba).1.2 ltac:(lia)) as [B2 F2].
  destruct (toBCD_small (lbaToMSF lba).2 ltac:(lia)) as [B3 F3].
  eexists _, _, _. split; [reflexivity|].
  split; [exact B1|]. split; [exact B2|]. split; [exact B3|].
  rewrite F1, F2, F3.
  assert (E : lbaToMSF lba = (lba / 4500, lba / 75 mod 60, lba mod 75)).
  { unfold lbaToMSF. change (60 * 75) with 4500.
    rewrite !Z.quot_div_nonneg, !Z.rem_mod_nonneg by (try apply Z.div_pos; lia).
    reflexivity. }
  rewrite E in *. cbn [fst snd] in *. auto.
Qed.

(** X11.  [lbaToMSF] splits a block number without loss: minute * 4500 +
    second * 75 + frame gives the number back, for every [int].  For a
    non-negative number the second is below 60 and the frame below 75; for
    a negative one, division truncating toward zero, no part is
    positive. *)
Theorem lbaToMSF_roundtrip (lba : Z) :
  msfToLBA (lbaToMSF lba) = lba
  /\ (0 <= lba ->
      0 <= (lbaToMSF lba).1.1 /\ 0 <= (lbaToMSF lba).1.2 < 60
      /\ 0 <= (lbaToMSF lba).2 < 75)
  /\ (lba <= 0 ->
      (lbaToMSF lba).1.1 <= 0 /\ -60 < (lbaToMSF lba).1.2 <= 0
      /\ -75 < (lbaToMSF lba).2 <= 0).
Proof.
  split; [|split].
  - unfold msfToLBA, lbaToMSF. cbn [fst snd]. change (60 * 75) with 4500.
    assert (Hq : Z.quot lba 4500 = Z.quot (Z.quot lba 75) 60).
    { rewrite Z.quot_quot by lia. reflexivity. }
    rewrite Hq.
    pose proof (Z.quot_rem' lba 75) as H1.
    pose proof (Z.quot_rem' (Z.quot lba 75) 60) as H2. lia.
  - intros Hpos. apply lbaToMSF_nonneg, Hpos.
  - intros Hneg. unfold lbaToMSF. cbn [fst snd]. change (60 * 75) with 4500.
    assert (Hq : Z.quot lba 4500 = Z.quot (Z.quot lba 75) 60).
    { rewrite Z.quot_quot by lia. reflexivity. }
    rewrite Hq.
    pose proof (Z.rem_opp_l lba 75 ltac:(lia)) as R1.
    pose proof (Z.rem_bound_pos (- lba) 75 ltac:(lia) ltac:(lia)) as B1.
    pose proof (Z.quot_opp_l lba 75 ltac:(lia)) as O1.
    assert (Q1 : 0 <= Z.quot (- lba) 75) by (apply Z.quot_pos; lia).
    pose proof (Z.rem_opp_l (Z.quot lba 75) 60 ltac:(lia)) as R2.
    pose proof (Z.rem_bound_pos (- Z.quot lba 75) 60 ltac:(lia) ltac:(lia)) as B2.
    pose proof (Z.quot_opp_l (Z.quot lba 75) 60 ltac:(lia)) as O2.
    assert (Q2 : 0 <= Z.quot (- Z.quot lba 75) 60) by (apply Z.quot_pos; lia).
    lia.
Qed.

(** A witness of X11: block 4575 is 01:01:00. *)
Lemma lbaToMSF_roundtrip_witness :
  0 <= (lbaToMSF 4575).1.1 /\ 0 <= (lbaToMSF 4575).1.2 < 60 /\ 0 <= (lbaToMSF 4575).2 < 75.
Proof.
  destruct (lbaToMSF_roundtrip 4575) as (_ & H & _). apply H. lia.
Defined.

(** X12.  [toBCD] of a non-negative value holds the units in the low
    nibble and the tens, modulo 16, in the high nibble.  Below 100 both
    nibbles are decimal digits and give the value back; from 100 to 159
    the high nibble is not a decimal digit; and values 160 apart have the
    same byte. *)
Theorem toBCD_roundtrip (v : Z) :
  0 <= v ->
  toBCD v = 16 * ((v / 10) mod 16) + v mod 10
  /\ (v < 100 -> isBCD (toBCD v) /\ fromBCD (toBCD v) = v)
  /\ (100 <= v < 160 -> ~ isBCD (toBCD v))
  /\ toBCD (v + 160) = toBCD v.
Proof.
  intros Hv. pose proof (toBCD_closed v Hv) as Hc.
  split; [exact Hc|]. split; [|split].
  - intros Hlt. apply toBCD_small. lia.
  - intros Hr. rewrite Hc. unfold isBCD.
    Z.div_mod_to_equations. lia.
  - rewrite Hc, toBCD_closed by lia.
    Z.div_mod_to_equations. lia.
Qed.

(** A witness of X12 at 59, whose byte is 0x59. *)
Lemma toBCD_roundtrip_witness : toBCD 59 = 0x59 /\ fromBCD (toBCD 59) = 59.
Proof.
  destruct (toBCD_roundtrip 59 ltac:(lia)) as (H1 & H2 & _).
  split; [rewrite H1; reflexivity|apply H2; lia].
Defined.

(** X13.  The address in a header can be read back.  For a block number
    below 100 minutes (450000 blocks), the bytes 12..14 that
    [writeHeader] stores are BCD bytes, and their digits give the block
    number back. *)
Theorem header_roundtrip (t : Track) (lba : Z) (sec : list Z) :
  0 <= lba < 100 * 60 * 75 -> (16 <= length sec)%nat ->
  exists bm bs bf,
    take 3 (drop 12 (writeHeader t lba sec)) = [bm; bs; bf]
    /\ isBCD bm /\ isBCD bs /\ isBCD bf
    /\ msfToLBA (fromBCD bm, fromBCD bs, fromBCD bf) = lba.
Proof.
  intros Hlba Hlen.
  rewrite (writeHeader_eq t lba sec Hlen).
  destruct (lbaToMSF_nonneg lba ltac:(lia)) as (Hrt & Hm & Hs & Hf).
  assert (Hm' : (lbaToMSF lba).1.1 < 100).
  { unfold msfToLBA in Hrt. lia. }
  destruct (toBCD_small (lbaToMSF lba).1.1 ltac:(lia)) as [Bm Rm].
  destruct (toBCD_small (lbaToMSF lba).1.2 ltac:(lia)) as [Bs Rs].
  destruct (toBCD_small (lbaToMSF lba).2 ltac:(lia)) as [Bf Rf].
  eexists _, _, _. split; [reflexivity|].
  split; [exact Bm|]. split; [exact Bs|]. split; [exact Bf|].
  rewrite Rm, Rs, Rf. exact Hrt.
Qed.

(** A witness of X13: the header of block 449999 is 99:59:74. *)
Lemma header_roundtrip_witness :
  exists bm bs bf,
    take 3 (drop 12 (writeHeader lateStartTrack 449999 empty)) = [bm; bs; bf]
    /\ msfToLBA (fromBCD bm, fromBCD bs, fromBCD bf) = 449999.
Proof.
  destruct (header_roundtrip lateStartTrack 449999 empty)
    as (bm & bs & bf & H1 & _ & _ & _ & H2);
    [lia|vm_compute; lia|].
  exists bm, bs, bf. split; assumption.
Defined.

(** ** The sectors of a data track pass the checks of a reader *)

Lemma header_bytes t lba : Forall is_byte (header t lba).
Proof. unfold header, toBCD. repeat constructor; apply byte_is_byte. Qed.

Lemma sector_checks_parts (h raw edc P Q : list Z) :
  length h = 4%nat -> length raw = 2056%nat -> length edc = 4%nat ->
  length P = 172%nat -> length Q = 104%nat ->
  Forall is_byte h -> Forall is_byte raw -> Forall is_byte edc ->
  edcAcc (raw ++ edc) = 0 ->
  pParityLFSR (h ++ raw ++ edc) = Ok P ->
  qParityLFSR (h ++ raw ++ edc ++ P) = Ok Q ->
  sectorChecks (syncPattern ++ h ++ raw ++ edc ++ P ++ Q).
Proof.
  intros Lh Lraw Ledc LP LQ Bh Braw Bedc Hedc HP HQ.
  assert (Lsync : length syncPattern = 12%nat) by reflexivity.
  set (sec := syncPattern ++ h ++ raw ++ edc ++ P ++ Q).
  assert (S1 : take 2060 (drop 16 sec) = raw ++ edc).
  { apply (slice_at 16 2060 (syncPattern ++ h) (raw ++ edc) (P ++ Q));
      [subst sec; rewrite <- !app_assoc; reflexivity|len_lia|len_lia]. }
  assert (S2 : take 2064 (drop 12 sec) = h ++ raw ++ edc).
  { apply (slice_at 12 2064 syncPattern (h ++ raw ++ edc) (P ++ Q));
      [subst sec; rewrite <- !app_assoc; reflexivity|len_lia|len_lia]. }
  assert (S3 : take 172 (drop 2076 sec) = P).
  { apply (slice_at 2076 172 (syncPattern ++ h ++ raw ++ edc) P Q);
      [subst sec; rewrite <- !app_assoc; reflexivity|len_lia|len_lia]. }
  assert (S4 : take 2236 (drop 12 sec) = h ++ raw ++ edc ++ P).
  { apply (slice_at 12 2236 syncPattern (h ++ raw ++ edc ++ P) Q);
      [subst sec; rewrite <- !app_assoc; reflexivity|len_lia|len_lia]. }
  assert (S5 : take 104 (drop 2248 sec) = Q).
  { apply (slice_at 2248 104 (syncPattern ++ h ++ raw ++ edc ++ P) Q []);
      [subst sec; rewrite <- !app_assoc, app_nil_r; reflexivity|len_lia|len_lia]. }
  unfold sectorChecks. rewrite S1, S2, S3, S4, S5.
  split; [exact Hedc|]. split.
  - intros col b Hcol Hb.
    apply (pParityLFSR_codeword (h ++ raw ++ edc) P col b); try assumption.
    repeat (apply Forall_app; split); assumption.
  - intros diag b Hd Hb.
    apply (qParityLFSR_codeword (h ++ raw ++ edc ++ P) Q diag b); try assumption.
    repeat (apply Forall_app; split); try assumption.
    apply (pParityLFSR_bytes _ _ HP).
Qed.

Lemma sectorBytes_checks msb t s (chunk : list Z) :
  Mode t <> 4 -> length chunk = 2056%nat -> Forall is_byte chunk ->
  sectorChecks (Spec.sectorBytes msb t s chunk).
Proof.
  intros Hm Hlen Hb. unfold Spec.sectorBytes.
  replace (Mode t =? 4) with false by lia.
  destruct (assembleData_eq t (add64 s 150) chunk empty Hlen length_empty)
    as (P & Q & HP & LP & HQ & LQ & ->).
  apply sector_checks_parts; try assumption; try reflexivity.
  - apply header_bytes.
  - apply computeEDC_bytes.
  - unfold edcAcc, computeEDC. rewrite foldl_app. fold (edcAcc chunk).
    apply edcAcc_own_bytes. apply (edcAcc_range chunk 0); [lia|exact Hb].
Qed.

Lemma pParityLFSR_zeros : pParityLFSR (replicate 2064 0) = Ok (replicate 172 0).
Proof. vm_compute. reflexivity. Qed.

Lemma qParityLFSR_zeros : qParityLFSR (replicate 2236 0) = Ok (replicate 104 0).
Proof. vm_compute. reflexivity. Qed.

Lemma zeros_bytes (n : nat) : Forall is_byte (replicate n 0).
Proof. apply Forall_replicate. unfold is_byte. lia. Qed.

Lemma pregapBytes_data t s :
  Mode t = 2 ->
  Spec.pregapBytes t s
  = syncPattern ++ header t (add64 (add64 (sub64 (Start t) (Pregap t)) s) 150)
    ++ replicate 2056 0 ++ replicate 4 0 ++ replicate 172 0 ++ replicate 104 0.
Proof.
  intros Hm. unfold Spec.pregapBytes. replace (Mode t =? 2) with true by lia.
  rewrite writeHeader_eq by (rewrite length_empty; lia).
  unfold empty. rewrite drop_replicate.
  change (2352 - 16)%nat with (2056 + (4 + (172 + 104)))%nat.
  rewrite !replicate_add. reflexivity.
Qed.

Lemma pregapBytes_checks t s : Mode t = 2 -> sectorChecks (Spec.pregapBytes t s).
Proof.
  intros Hm. rewrite (pregapBytes_data t s Hm).
  set (h := header t _).
  apply sector_checks_parts.
  - reflexivity.
  - apply length_replicate.
  - apply length_replicate.
  - apply length_replicate.
  - apply length_replicate.
  - apply header_bytes.
  - apply zeros_bytes.
  - apply zeros_bytes.
  - rewrite <- replicate_add. apply edcAcc_zeros.
  - rewrite <- replicate_add.
    rewrite (pParityLFSR_ext (h ++ replicate (2056 + 4) 0) (replicate 2064 0)).
    + exact pParityLFSR_zeros.
    + rewrite length_app, !length_replicate. reflexivity.
    + rewrite (drop_app_length' h _ 4) by reflexivity. rewrite drop_replicate. reflexivity.
  - rewrite <- !replicate_add.
    rewrite (qParityLFSR_ext (h ++ replicate (2056 + (4 + 172)) 0) (replicate 2236 0)).
    + exact qParityLFSR_zeros.
    + rewrite length_app, !length_replicate. reflexivity.
    + rewrite (drop_app_length' h _ 4) by reflexivity. rewrite drop_replicate. reflexivity.
Qed.

(** C1.  A payload sector of a data track (mode 2).  In a state whose
    cursor leaves at least 2056 bytes of payload, the encoder takes the
    2056 bytes [raw] at the cursor, moves the cursor past them without
    writing to the buffer, and appends one sector [sec] of 2352 bytes to
    the output, in which: bytes 0..11 are the sync pattern 00 FF*10 00;
    bytes 12..14 are the BCD of the minute, second and frame of [s + 150];
    byte 15 is 2; bytes 16..23 are the first 8 bytes of [raw] (the
    subheader); bytes 24..2071 are its other 2048 bytes (the user data);
    bytes 2072..2075 are the checksum of the specification over bytes
    16..2071, least significant byte first; bytes 2076..2247 are the
    P-parity of bytes 12..2075 and bytes 2248..2351 the Q-parity of bytes
    12..2247, so that the sector passes the checks of a reader: the EDC
    leaves no remainder and every P column and Q diagonal is a code word.

    The address bytes are [(v/10) << 4 | v % 10] of the minute
    [(s + 150) / 4500] (its low eight bits, from 160 minutes on), of the
    second [(s + 150) / 75 mod 60] and of the frame [(s + 150) mod 75]
    whenever [s + 150] is a non-negative [int]; below 100 minutes each of
    them holds two decimal digits, which give [s + 150] back.  For every
    [s] they are [toBCD] of [lbaToMSF] of the 64-bit sum. *)
Theorem data_sector_layout (audioMSB : bool) (t : Track) (s : Z) (st : Enc) :
  Mode t = 2 ->
  length (sector st) = 2352%nat -> payload_fits (pmf st) ->
  0 <= offset st -> offset st + 2056 <= len (pmf st) ->
  Forall is_byte (pmf st) ->
  let raw := take 2056 (drop (Z.to_nat (offset st)) (pmf st)) in
  let lba := add64 s 150 in
  exists sec st',
    payloadSector audioMSB t s st = (st', None)
    /\ offset st' = offset st + 2056
    /\ pmf st' = pmf st
    /\ out st' = out st ++ sec
    /\ length raw = 2056%nat
    /\ length sec = 2352%nat
    /\ take 12 sec = [0; 255; 255; 255; 255; 255; 255; 255; 255; 255; 255; 0]
    /\ take 3 (drop 12 sec)
       = [toBCD (lbaToMSF lba).1.1; toBCD (lbaToMSF lba).1.2; toBCD (lbaToMSF lba).2]
    /\ (0 <= s + 150 <= maxInt ->
        take 3 (drop 12 sec)
        = [Spec.bcd ((s + 150) / 4500) mod 256;
           Spec.bcd ((s + 150) / 75 mod 60);
           Spec.bcd ((s + 150) mod 75)])
    /\ (0 <= s + 150 < 450000 ->
        exists bm bs bf,
          take 3 (drop 12 sec) = [bm; bs; bf]
          /\ isBCD bm /\ isBCD bs /\ isBCD bf
          /\ fromBCD bm = (s + 150) / 4500
          /\ fromBCD bs = (s + 150) / 75 mod 60
          /\ fromBCD bf = (s + 150) mod 75
          /\ msfToLBA (fromBCD bm, fromBCD bs, fromBCD bf) = s + 150)
    /\ sec !! 15%nat = Some 2
    /\ take 8 (drop 16 sec) = take 8 raw
    /\ take 2048 (drop 24 sec) = drop 8 raw
    /\ take 4 (drop 2072 sec) = computeEDC (take 2056 (drop 16 sec))
    /\ take 4 (drop 2072 sec) = Spec.littleEndian32 (Spec.checksum (take 2056 (drop 16 sec)))
    /\ pParityLFSR (take 2064 (drop 12 sec)) = Ok (take 172 (drop 2076 sec))
    /\ qParityLFSR (take 2236 (drop 12 sec)) = Ok (take 104 (drop 2248 sec))
    /\ sectorChecks sec.
Proof.
  intros Hmode Hsec Hfit Hoff Hroom Hbytes raw lba.
  assert (HInv : Inv (pmf st) st) by (unfold Inv; repeat split; auto; lia).
  assert (Hu : Spec.unitSize t = 2056) by (unfold Spec.unitSize; rewrite Hmode; reflexivity).
  destruct (payloadSector_ok audioMSB (pmf st) Hfit t s st HInv ltac:(lia))
    as (st' & E & HInv' & Hoff' & Hout' & Hlen' & Hpmf').
  rewrite Hu in *. change (Z.to_nat 2056) with 2056%nat in *. fold raw in Hout', Hlen'.
  assert (Hraw : length raw = 2056%nat).
  { subst raw. rewrite length_take, length_drop. unfold len in *. lia. }
  assert (Braw : Forall is_byte raw) by (apply Forall_take, Forall_drop, Hbytes).
  pose proof (sectorBytes_checks audioMSB t s raw ltac:(lia) Hraw Braw) as Hchk.
  unfold Spec.sectorBytes in Hout', Hlen', Hchk. rewrite Hmode in Hout', Hlen', Hchk.
  change (2 =? 4) with false in *. cbv iota in Hout', Hlen', Hchk.
  fold lba in Hout', Hlen', Hchk.
  destruct (assembleData_eq t lba raw empty Hraw length_empty)
    as (P & Q & HP & LP & HQ & LQ & Heq).
  rewrite Heq in Hout', Hlen', Hchk.
  set (hdr := header t lba) in *.
  set (edc := computeEDC raw) in *.
  assert (Lhdr : length hdr = 4%nat) by reflexivity.
  assert (Ledc : length edc = 4%nat) by reflexivity.
  assert (Lsync : length syncPattern = 12%nat) by reflexivity.
  set (sec := syncPattern ++ hdr ++ raw ++ edc ++ P ++ Q) in *.
  assert (Hsplit : raw = take 8 raw ++ drop 8 raw) by (symmetry; apply take_drop).
  assert (E16 : take 2056 (drop 16 sec) = raw).
  { apply (slice_at 16 2056 (syncPattern ++ hdr) raw (edc ++ P ++ Q));
      [subst sec; rewrite <- !app_assoc; reflexivity|rewrite length_app; lia|exact Hraw]. }
  assert (E12 : take 3 (drop 12 sec) = take 3 hdr).
  { subst sec. rewrite drop_app_length' by reflexivity. reflexivity. }
  assert (Eedc : take 4 (drop 2072 sec) = edc).
  { apply (slice_at 2072 4 (syncPattern ++ hdr ++ raw) edc (P ++ Q));
      [subst sec; rewrite <- !app_assoc; reflexivity|len_lia|exact Ledc]. }
  exists sec, st'.
  split; [exact E|]. split; [exact Hoff'|]. split; [apply Hpmf'; right; lia|].
  split; [exact Hout'|]. split; [exact Hraw|]. split; [exact Hlen'|].
  split. { subst sec. apply take_app_length'. reflexivity. }
  split; [exact E12|].
  split.
  { intros Hs. rewrite E12. subst hdr lba. unfold add64.
    rewrite wrap64_id by (unfold is_int, minInt, maxInt in *; lia).
    apply header_address, Hs. }
  split.
  { intros Hs. rewrite E12. subst hdr lba. unfold add64.
    rewrite wrap64_id
      by (unfold is_int, minInt, maxInt; change (2 ^ 63) with 9223372036854775808; lia).
    apply header_decodes, Hs. }
  split.
  { subst sec. rewrite lookup_app_r by (rewrite Lsync; lia).
    rewrite Lsync. change (15 - 12)%nat with 3%nat.
    subst hdr. unfold header. simpl. rewrite Hmode. reflexivity. }
  split.
  { rewrite <- E16 at 1. rewrite take_take. reflexivity. }
  split.
  { apply (slice_at 24 2048 (syncPattern ++ hdr ++ take 8 raw) (drop 8 raw) (edc ++ P ++ Q)).
    - subst sec. rewrite <- !app_assoc. do 2 f_equal.
      rewrite (app_assoc (take 8 raw)), take_drop. reflexivity.
    - rewrite !length_app, length_take. lia.
    - rewrite length_drop. lia. }
  split; [rewrite E16; exact Eedc|].
  split.
  { rewrite E16, Eedc. subst edc.
    destruct (edcAcc_checksumFrom raw 0 ltac:(lia) Braw) as [Hacc Hbound].
    fold (edcAcc raw) in Hacc. fold (Spec.checksum raw) in Hacc, Hbound.
    unfold computeEDC, Spec.littleEndian32, byte. rewrite Hacc.
    rewrite !Z.shiftr_div_pow2 by lia. reflexivity. }
  split.
  { rewrite (slice_at 12 2064 syncPattern (hdr ++ raw ++ edc) (P ++ Q) sec);
      [|subst sec; rewrite <- !app_assoc; reflexivity|exact Lsync|len_lia].
    rewrite (slice_at 2076 172 (syncPattern ++ hdr ++ raw ++ edc) P Q sec);
      [exact HP|subst sec; rewrite <- !app_assoc; reflexivity|rewrite !length_app; lia|exact LP]. }
  split; [|exact Hchk].
  rewrite (slice_at 12 2236 syncPattern (hdr ++ raw ++ edc ++ P) Q sec);
    [|subst sec; rewrite <- !app_assoc; reflexivity|exact Lsync|len_lia].
  rewrite (slice_at 2248 104 (syncPattern ++ hdr ++ raw ++ edc ++ P) Q [] sec);
    [|subst sec; rewrite <- !app_assoc, app_nil_r; reflexivity
    |rewrite !length_app; lia|exact LQ].
  exact HQ.
Qed.

(** A witness of C1: the sector of block 5 made of a ramp of 2056
    bytes, at the address 00:02:05. *)
Lemma data_sector_layout_witness :
  exists sec st',
    payloadSector false lateStartTrack 5 (initEnc (rampPayload 2056)) = (st', None)
    /\ offset st' = 2056
    /\ length sec = 2352%nat
    /\ take 3 (drop 12 sec) = [0; 2; 5]
    /\ sec !! 15%nat = Some 2
    /\ take 4 (drop 2072 sec)
       = Spec.littleEndian32 (Spec.checksum (take 2056 (drop 16 sec)))
    /\ sectorChecks sec.
Proof.
  destruct (data_sector_layout false lateStartTrack 5 (initEnc (rampPayload 2056)))
    as (sec & st' & H1 & H2 & _ & _ & _ & H6 & _ & H8 & _ & _ & H9 & _ & _ & _ & H10 & _ & _
        & H11).
  - reflexivity.
  - vm_compute. reflexivity.
  - vm_compute. discriminate.
  - vm_compute. discriminate.
  - vm_compute. discriminate.
  - apply bytes_checked. vm_compute. reflexivity.
  - exists sec, st'.
    split; [exact H1|]. split; [exact H2|]. split; [exact H6|].
    split; [rewrite H8; vm_compute; reflexivity|].
    split; [exact H9|]. split; [exact H10|exact H11].
Defined.

(** X14.  A payload sector of a data track verifies.  The sector the
    encoder appends for a mode-2 track, made of payload bytes, passes the
    three checks of a reader: the EDC accumulator run over its bytes
    16..2075 ends at 0, each of the 43 P columns with its two parity bytes
    is a code word, and so is each of the 26 Q diagonals, in both byte
    lanes, the header counting as zeros. *)
Theorem data_sector_verifies (audioMSB : bool) (t : Track) (s : Z) (st : Enc) :
  Mode t = 2 -> length (sector st) = 2352%nat -> payload_fits (pmf st) ->
  0 <= offset st -> offset st + 2056 <= len (pmf st) ->
  Forall is_byte (pmf st) ->
  exists sec st',
    payloadSector audioMSB t s st = (st', None)
    /\ out st' = out st ++ sec
    /\ length sec = 2352%nat
    /\ sectorChecks sec.
Proof.
  intros Hm Hsec Hfit Hoff Hroom Hb.
  assert (Hu : Spec.unitSize t = 2056).
  { unfold Spec.unitSize. replace (Mode t =? 4) with false by lia. reflexivity. }
  destruct (payloadSector_ok audioMSB (pmf st) Hfit t s st (Inv_self st Hsec ltac:(lia))
              ltac:(lia)) as (st' & E & _ & _ & Hout & Hlen & _).
  rewrite Hu in Hout, Hlen.
  eexists _, st'. split; [exact E|]. split; [exact Hout|]. split; [exact Hlen|].
  apply sectorBytes_checks; [lia| |apply Forall_take, Forall_drop, Hb].
  rewrite length_take, length_drop. unfold len in *. lia.
Qed.

(** A witness of X14: the first sector of a ramp of 2056 bytes. *)
Lemma data_sector_verifies_witness :
  exists sec st',
    payloadSector false lateStartTrack 5 (initEnc (rampPayload 2056)) = (st', None)
    /\ length sec = 2352%nat /\ sectorChecks sec.
Proof.
  destruct (data_sector_verifies false lateStartTrack 5 (initEnc (rampPayload 2056)))
    as (sec & st' & H1 & _ & H2 & H3).
  - reflexivity.
  - vm_compute. reflexivity.
  - vm_compute. discriminate.
  - vm_compute. discriminate.
  - vm_compute. discriminate.
  - apply bytes_checked. vm_compute. reflexivity.
  - exists sec, st'. split; [exact H1|]. split; assumption.
Defined.

(** X15.  A pregap sector.  One pass of the pregap loop appends one
    sector of 2352 bytes and leaves the buffer and the cursor alone.  For
    a mode-2 track the sector holds the sync pattern, the header of its
    address, and 2336 zero bytes, and it passes the checks of a reader:
    zero is the EDC of the zero span and the parity of a sector that is
    zero after its header.  For any other track the sector is all
    zeros. *)
Theorem pregap_sector_layout (t : Track) (st : Enc) (s : Z) :
  length (sector st) = 2352%nat ->
  exists sec,
    pregapSector t st s = mkEnc (pmf st) sec (offset st) (out st ++ sec)
    /\ length sec = 2352%nat
    /\ (Mode t = 2 ->
        take 16 sec
        = syncPattern ++ header t (add64 (add64 (sub64 (Start t) (Pregap t)) s) 150)
        /\ drop 16 sec = replicate 2336 0
        /\ sectorChecks sec)
    /\ (Mode t <> 2 -> sec = replicate 2352 0).
Proof.
  intros Hsec. exists (Spec.pregapBytes t s).
  split; [apply pregapSector_bytes, Hsec|].
  split; [apply length_pregapBytes|]. split.
  - intros Hm. split; [|split; [|apply pregapBytes_checks, Hm]].
    + rewrite (pregapBytes_data t s Hm), app_assoc.
      apply take_app_length'. reflexivity.
    + rewrite (pregapBytes_data t s Hm), app_assoc.
      rewrite drop_app_length' by reflexivity.
      rewrite <- !replicate_add. reflexivity.
  - intros Hm. unfold Spec.pregapBytes.
    replace (Mode t =? 2) with false by lia. reflexivity.
Qed.

(** A witness of X15: the pregap sector of the audio track of the gap
    scenario. *)
Lemma pregap_sector_layout_witness :
  exists sec,
    pregapSector gapTrack2 (initEnc []) 0 = mkEnc [] sec 0 sec
    /\ sec = replicate 2352 0.
Proof.
  destruct (pregap_sector_layout gapTrack2 (initEnc []) 0) as (sec & H1 & _ & _ & H2).
  - vm_compute. reflexivity.
  - exists sec. split; [exact H1|]. apply H2. vm_compute. discriminate.
Defined.

(** ** The image: reading it back, whole sectors, blocks and the buffer *)

Lemma swapPairs_involutive_aux (l : list Z) :
  swapPairs (swapPairs l) = l
  /\ forall a, swapPairs (swapPairs (a :: l)) = a :: l.
Proof.
  induction l as [|b l [IH1 IH2]].
  - split; reflexivity.
  - split; [apply IH2|]. intros a. simpl. rewrite IH1. reflexivity.
Qed.

Lemma swapPairs_involutive (l : list Z) : swapPairs (swapPairs l) = l.
Proof. apply swapPairs_involutive_aux. Qed.

Lemma unsector_sectorBytes msb t s (chunk : list Z) :
  length chunk = Z.to_nat (Spec.unitSize t) ->
  unsector msb t (Spec.sectorBytes msb t s chunk) = chunk.
Proof.
  intros Hlen. unfold unsector, Spec.sectorBytes.
  destruct (unitSize_cases t) as [[Hm Hu]|[Hm Hu]]; rewrite Hu in Hlen.
  - replace (Mode t =? 4) with true by lia.
    destruct msb; [apply swapPairs_involutive|reflexivity].
  - replace (Mode t =? 4) with false by lia.
    destruct (assembleData_eq t (add64 s 150) chunk empty) as (P & Q & _ & LP & _ & LQ & ->).
    { rewrite Hlen. reflexivity. }
    { apply length_empty. }
    replace (syncPattern ++ header t (add64 s 150) ++ chunk ++ computeEDC chunk ++ P ++ Q)
      with ((syncPattern ++ header t (add64 s 150)) ++ chunk ++ computeEDC chunk ++ P ++ Q)
      by (rewrite <- app_assoc; reflexivity).
    apply slice_mid; [reflexivity|]. rewrite Hlen. reflexivity.
Qed.

Lemma unpayload_payloadImage msb t (n : nat) : forall s (data more : list Z),
  Z.of_nat n * Spec.unitSize t <= len data ->
  unpayload n msb t (Spec.payloadImage n msb t s data ++ more)
  = take (Z.to_nat (Z.of_nat n * Spec.unitSize t)) data.
Proof.
  induction n as [|n IH]; intros s data more Hlen; [reflexivity|].
  cbn [unpayload Spec.payloadImage].
  pose proof (unitSize_pos t) as Hu.
  assert (Hchunk : length (take (Z.to_nat (Spec.unitSize t)) data)
                   = Z.to_nat (Spec.unitSize t)).
  { rewrite length_take. unfold len in Hlen. lia. }
  pose proof (length_sectorBytes msb t s _ Hchunk) as Hsb.
  rewrite <- app_assoc.
  rewrite take_app_length' by (symmetry; exact Hsb).
  rewrite drop_app_length' by (symmetry; exact Hsb).
  rewrite unsector_sectorBytes by exact Hchunk.
  rewrite IH by (unfold len in *; rewrite length_drop; lia).
  rewrite take_take_drop. f_equal. lia.
Qed.

Lemma unimage_image msb tracks : forall (data more : list Z),
  payloadBytes tracks <= len data ->
  unimage msb tracks (Spec.image msb tracks data ++ more)
  = take (Z.to_nat (payloadBytes tracks)) data.
Proof.
  induction tracks as [|t rest IH]; intros data more Hlen; [reflexivity|].
  rewrite payloadBytes_cons in *.
  pose proof (payloadBytes_nonneg rest) as Hnn.
  pose proof (unitSize_pos t) as Hu.
  cbn [unimage Spec.image].
  set (n := Z.to_nat (Spec.sectorCount t)).
  assert (Hn : Z.of_nat n = Z.max 0 (Spec.sectorCount t)) by (subst n; lia).
  assert (Hprod : 0 <= Z.max 0 (Spec.sectorCount t) * Spec.unitSize t) by nia.
  assert (Hcnt : Z.to_nat (Spec.sectorCount t * Spec.unitSize t)
                 = Z.to_nat (Z.of_nat n * Spec.unitSize t)).
  { rewrite Hn. destruct (Z.max_spec 0 (Spec.sectorCount t)) as [[Hc ->]|[Hc ->]];
      [reflexivity|]. assert (Spec.sectorCount t * Spec.unitSize t <= 0) by nia. lia. }
  rewrite <- !app_assoc.
  rewrite drop_app_length'
    by (pose proof (length_pregapImage t) as L; unfold len in L; lia).
  rewrite unpayload_payloadImage by lia.
  rewrite drop_app_length'.
  2: { pose proof (length_payloadImage msb t n (Start t) data ltac:(lia)) as L.
       unfold len in L. lia. }
  rewrite Hcnt, IH.
  2: { unfold len in *. rewrite length_drop. lia. }
  rewrite take_take_drop. f_equal. lia.
Qed.

(** X16.  The conversion loses nothing.  After a pass that ends without
    error, reading the image back track by track (skipping the pregap
    sectors, taking an audio sector as it is, swapped back under the MSB
    flag, and the bytes 16..2071 of a data sector) gives the payload the
    pass started from; so two payloads with the same image under the same
    table and flag are equal. *)
Theorem image_decodes (audioMSB : bool) (pmf0 : list Z) (tracks : list Track) (st : Enc) :
  payload_fits pmf0 -> Forall track_int tracks ->
  buildBin audioMSB pmf0 tracks = (st, None) ->
  unimage audioMSB tracks (out st) = pmf0
  /\ (forall pmf1 st1,
        payload_fits pmf1 -> buildBin audioMSB pmf1 tracks = (st1, None) ->
        out st1 = out st -> pmf1 = pmf0).
Proof.
  intros Hfit Hint E.
  assert (Hdec : forall p s, payload_fits p -> buildBin audioMSB p tracks = (s, None) ->
                             unimage audioMSB tracks (out s) = p).
  { intros p s Hp Es.
    destruct (buildBin_spec audioMSB p Hp tracks Hint) as (s' & e & E' & _ & He).
    rewrite Es in E'. injection E' as <- <-.
    destruct He as (Hbytes & _ & Hout).
    rewrite Hout, <- (app_nil_r (Spec.image audioMSB tracks p)).
    rewrite unimage_image by lia.
    rewrite Hbytes. apply take_ge. unfold len. lia. }
  split; [apply Hdec; assumption|].
  intros pmf1 st1 Hfit1 E1 Hout.
  rewrite <- (Hdec pmf1 st1 Hfit1 E1), Hout. apply Hdec; assumption.
Qed.

(** A witness of X16: one data sector at block 5, made of a ramp. *)
Lemma image_decodes_witness :
  unimage false [lateStartTrack] (out (buildBin false (rampPayload 2056) [lateStartTrack]).1)
  = rampPayload 2056.
Proof.
  assert (E : (buildBin false (rampPayload 2056) [lateStartTrack]).2 = None)
    by (vm_compute; reflexivity).
  destruct (buildBin false (rampPayload 2056) [lateStartTrack]) as [st e] eqn:Eb.
  cbn [fst snd] in *. subst e.
  apply (image_decodes false (rampPayload 2056) [lateStartTrack] st).
  - vm_compute. discriminate.
  - repeat constructor; vm_compute; discriminate.
  - exact Eb.
Defined.

Section Whole.

Variable audioMSB : bool.
Variable pmf0 : list Z.
Hypothesis Hfit : payload_fits pmf0.

Lemma whole_app (st st' : Enc) (sec : list Z) :
  whole st -> out st' = out st ++ sec -> (2352 | len sec) -> whole st'.
Proof.
  unfold whole, len. intros H -> Hs. rewrite length_app, Nat2Z.inj_add.
  apply Z.divide_add_r; assumption.
Qed.

Lemma payloadLoop_whole t (fuel : nat) : forall s st,
  Inv pmf0 st -> whole st ->
  Inv pmf0 (payloadLoop fuel audioMSB t s st).1
  /\ whole (payloadLoop fuel audioMSB t s st).1.
Proof.
  induction fuel as [|fuel IH]; intros s st HInv Hw; cbn [payloadLoop]; [auto|].
  destruct (s <=? End t); [|auto].
  destruct (Z_le_gt_dec (offset st + Spec.unitSize t) (len pmf0)) as [Hroom|Hroom].
  - destruct (payloadSector_ok audioMSB pmf0 Hfit t s st HInv Hroom)
      as (st1 & E1 & HInv1 & _ & Hout1 & Hlen1 & _).
    rewrite E1. apply IH; [exact HInv1|].
    eapply whole_app; [exact Hw|exact Hout1|].
    unfold len. rewrite Hlen1. exists 1. reflexivity.
  - destruct (payloadSector_truncated audioMSB pmf0 Hfit t s st HInv ltac:(lia))
      as (st1 & E1 & HInv1 & _ & Hout1 & _).
    rewrite E1. cbn [fst]. split; [exact HInv1|].
    unfold whole. rewrite Hout1. exact Hw.
Qed.

Lemma encodeTrack_whole t st :
  Inv pmf0 st -> whole st ->
  Inv pmf0 (encodeTrack audioMSB t st).1 /\ whole (encodeTrack audioMSB t st).1.
Proof.
  intros HInv Hw. unfold encodeTrack.
  destruct (pregapLoop_spec pmf0 t st HInv) as (HInv1 & _ & _ & Hout1).
  apply payloadLoop_whole; [exact HInv1|].
  eapply whole_app; [exact Hw|exact Hout1|].
  rewrite length_pregapImage. exists (Z.max 0 (Pregap t)). lia.
Qed.

Lemma encodeTracks_whole tracks : forall st,
  Inv pmf0 st -> whole st ->
  Inv pmf0 (encodeTracks audioMSB tracks st).1 /\ whole (encodeTracks audioMSB tracks st).1.
Proof.
  induction tracks as [|t rest IH]; intros st HInv Hw; cbn [encodeTracks]; [auto|].
  destruct (encodeTrack_whole t st HInv Hw) as [HInv1 Hw1].
  destruct (encodeTrack audioMSB t st) as [st1 [e|]]; cbn [fst] in *; [auto|].
  apply IH; assumption.
Qed.

End Whole.

(** X17.  Whatever the table and however the pass ends, also with the
    truncation error in the middle of a track, the bytes handed to the
    buffered writer ([bw.Write]) are a whole number of sectors of 2352
    bytes.  (They are the stream the writer is given; the return with the
    truncation error comes before [bw.Flush], so the file need not hold
    all of them then.) *)
Theorem buildBin_whole_sectors (audioMSB : bool) (pmf0 : list Z) (tracks : list Track) :
  payload_fits pmf0 ->
  exists k, 0 <= k /\ len (out (buildBin audioMSB pmf0 tracks).1) = 2352 * k.
Proof.
  intros Hfit.
  destruct (encodeTracks_whole audioMSB pmf0 Hfit tracks (initEnc pmf0)) as [_ [k Hk]].
  - apply Inv_initEnc.
  - exists 0. reflexivity.
  - rewrite buildBin_state. exists k. unfold len in *. split; lia.
Qed.

(** A witness of X17: a track of two data sectors and a payload of 3000
    bytes; one sector is handed to the writer before the truncation
    error. *)
Lemma buildBin_whole_sectors_witness :
  (buildBin false (rampPayload 3000) [mkTrack 1 2 0 1 0]).2
  = Some (ErrTruncated 4112 3000)
  /\ len (out (buildBin false (rampPayload 3000) [mkTrack 1 2 0 1 0]).1) = 2352
  /\ exists k, 0 <= k
       /\ len (out (buildBin false (rampPayload 3000) [mkTrack 1 2 0 1 0]).1) = 2352 * k.
Proof.
  split; [vm_compute; reflexivity|]. split; [vm_compute; reflexivity|].
  apply (buildBin_whole_sectors false (rampPayload 3000) [mkTrack 1 2 0 1 0]).
  vm_compute. discriminate.
Defined.

Lemma to_nat_count_bytes t :
  Z.to_nat (Spec.sectorCount t * Spec.unitSize t)
  = Z.to_nat (Z.max 0 (Spec.sectorCount t) * Spec.unitSize t).
Proof.
  pose proof (unitSize_pos t).
  destruct (Z.max_spec 0 (Spec.sectorCount t)) as [[Hc ->]|[Hc ->]]; [reflexivity|].
  assert (Spec.sectorCount t * Spec.unitSize t <= 0) by nia. lia.
Qed.

Lemma image_app msb (l1 l2 : list Track) : forall data : list Z,
  Spec.image msb (l1 ++ l2) data
  = Spec.image msb l1 data
    ++ Spec.image msb l2 (drop (Z.to_nat (payloadBytes l1)) data).
Proof.
  induction l1 as [|t l1 IH]; intros data; [reflexivity|].
  cbn [app Spec.image]. rewrite IH, <- !app_assoc. do 3 f_equal.
  rewrite drop_drop, payloadBytes_cons, to_nat_count_bytes. f_equal.
  pose proof (payloadBytes_nonneg l1). pose proof (unitSize_pos t).
  assert (0 <= Z.max 0 (Spec.sectorCount t) * Spec.unitSize t) by nia.
  rewrite Z2Nat.inj_add by assumption. reflexivity.
Qed.

Lemma payloadImage_nth msb t (n : nat) : forall (j : nat) s (data more : list Z),
  (j < n)%nat -> Z.of_nat n * Spec.unitSize t <= len data ->
  take 2352 (drop (2352 * j) (Spec.payloadImage n msb t s data ++ more))
  = Spec.sectorBytes msb t (s + Z.of_nat j)
      (take (Z.to_nat (Spec.unitSize t)) (drop (j * Z.to_nat (Spec.unitSize t)) data)).
Proof.
  induction n as [|n IH]; intros j s data more Hj Hlen; [lia|].
  pose proof (unitSize_pos t) as Hu.
  cbn [Spec.payloadImage].
  assert (Hchunk : length (take (Z.to_nat (Spec.unitSize t)) data)
                   = Z.to_nat (Spec.unitSize t)).
  { rewrite length_take. unfold len in Hlen. lia. }
  pose proof (length_sectorBytes msb t s _ Hchunk) as Hsb.
  rewrite <- app_assoc.
  destruct j as [|j].
  - rewrite Nat.mul_0_r, drop_0, Z.add_0_r.
    rewrite take_app_length' by (symmetry; exact Hsb). reflexivity.
  - replace (2352 * S j)%nat with (2352 + 2352 * j)%nat by lia.
    rewrite <- drop_drop, drop_app_length' by (symmetry; exact Hsb).
    rewrite IH by (unfold len in *; rewrite ?length_drop; lia).
    replace (s + 1 + Z.of_nat j) with (s + Z.of_nat (S j)) by lia.
    rewrite drop_drop. reflexivity.
Qed.

Lemma concat_nth_block {A} (f : Z -> list A) (n : nat) : forall (lo : Z) (j : nat) more,
  (forall i, length (f i) = 2352%nat) -> (j < n)%nat ->
  take 2352 (drop (2352 * j) (concat (f <$> seqZ lo (Z.of_nat n)) ++ more))
  = f (lo + Z.of_nat j).
Proof.
  induction n as [|n IH]; intros lo j more Hlen Hj; [lia|].
  rewrite seqZ_cons by lia.
  replace (Z.pred (Z.of_nat (S n))) with (Z.of_nat n) by lia.
  cbn [fmap list_fmap concat]. rewrite <- app_assoc.
  destruct j as [|j].
  - rewrite Nat.mul_0_r, drop_0, Z.add_0_r.
    apply take_app_length'. symmetry. apply Hlen.
  - replace (2352 * S j)%nat with (2352 + 2352 * j)%nat by lia.
    rewrite <- drop_drop, drop_app_length' by (symmetry; apply Hlen).
    rewrite IH by (assumption || lia). f_equal. lia.
Qed.

Lemma pregapImage_nth t (j : nat) (more : list Z) :
  Z.of_nat j < Pregap t ->
  take 2352 (drop (2352 * j) (Spec.pregapImage t ++ more))
  = Spec.pregapBytes t (Z.of_nat j).
Proof.
  intros Hj. unfold Spec.pregapImage.
  replace (Pregap t) with (Z.of_nat (Z.to_nat (Pregap t))) at 1 by lia.
  rewrite concat_nth_block; [f_equal; lia|apply length_pregapBytes|lia].
Qed.

(** The tracks before a track of a chained table. *)
Lemma chained_prefix (pre : list Track) : forall prev t post,
  chained prev (pre ++ t :: post) ->
  Forall (fun u => Start u <= End u) pre ->
  chained prev pre
  /\ match last pre with
     | Some p => Start t > End p /\ Pregap t = Start t - End p - 1 /\ Pregap t >= 0
     | None => match prev with
               | Some p => Start t > End p /\ Pregap t = Start t - End p - 1 /\ Pregap t >= 0
               | None => Pregap t = 0
               end
     end.
Proof.
  induction pre as [|u pre IH]; intros prev t post Hch HF.
  - destruct Hch as [Ht _]. split; [exact I|exact Ht].
  - destruct Hch as [Hu Hch]. inversion HF; subst.
    destruct (IH (Some u) t post Hch) as [Hpre Hlast]; [assumption|].
    split; [split; assumption|].
    destruct pre as [|v pre]; [exact Hlast|].
    change (last (u :: v :: pre)) with (last (v :: pre)).
    destruct (last (v :: pre)) as [p|] eqn:Hl; [exact Hlast|].
    apply last_None in Hl. discriminate.
Qed.

Lemma sectors_before (pre : list Track) (t : Track) (post : list Track) (t0 : Track) :
  chained None (pre ++ t :: post) ->
  Forall (fun u => Start u <= End u) pre ->
  head (pre ++ t :: post) = Some t0 ->
  imageSectors pre + Pregap t = Start t - Start t0 /\ 0 <= Pregap t.
Proof.
  intros Hch HF Hhd.
  destruct (chained_prefix pre None t post Hch HF) as [Hpre Hlast].
  destruct pre as [|u pre].
  - injection Hhd as <-. cbn in Hlast. unfold imageSectors. simpl. lia.
  - injection Hhd as <-.
    destruct (last (u :: pre)) as [p|] eqn:Hl.
    2: { apply last_None in Hl. discriminate. }
    rewrite (chained_span (u :: pre) None Hpre HF u p eq_refl Hl). lia.
Qed.

Lemma payloadBytes_app (l1 l2 : list Track) :
  payloadBytes (l1 ++ l2) = payloadBytes l1 + payloadBytes l2.
Proof.
  induction l1 as [|t l1 IH]; [reflexivity|].
  cbn [app]. rewrite !payloadBytes_cons, IH. lia.
Qed.

Lemma drop_blocks {A} (a b : list A) (n k : Z) :
  len a = 2352 * n -> 0 <= n -> 0 <= k ->
  drop (Z.to_nat (2352 * (n + k))) (a ++ b) = drop (Z.to_nat (2352 * k)) b.
Proof.
  intros Ha Hn Hk. unfold len in Ha.
  replace (Z.to_nat (2352 * (n + k))) with (length a + Z.to_nat (2352 * k))%nat by lia.
  rewrite <- drop_drop, drop_app_length. reflexivity.
Qed.

Lemma imageSectors_nonneg tracks : 0 <= imageSectors tracks.
Proof.
  induction tracks as [|t rest IH]; [unfold imageSectors; simpl; lia|].
  unfold imageSectors in *. cbn [foldr]. lia.
Qed.

Lemma image_sector (msb : bool) (pre : list Track) (t : Track) (post : list Track)
    (data : list Z) :
  payloadBytes (pre ++ t :: post) <= len data ->
  (forall j : Z, 0 <= j < Pregap t ->
     take 2352 (drop (Z.to_nat (2352 * (imageSectors pre + j)))
                     (Spec.image msb (pre ++ t :: post) data))
     = Spec.pregapBytes t j)
  /\ (forall j : Z, 0 <= j < Spec.sectorCount t ->
     take 2352 (drop (Z.to_nat (2352 * (imageSectors pre + Z.max 0 (Pregap t) + j)))
                     (Spec.image msb (pre ++ t :: post) data))
     = Spec.sectorBytes msb t (Start t + j)
         (take (Z.to_nat (Spec.unitSize t))
               (drop (Z.to_nat (payloadBytes pre + j * Spec.unitSize t)) data))).
Proof.
  intros Hlen.
  rewrite payloadBytes_app, payloadBytes_cons in Hlen.
  pose proof (payloadBytes_nonneg pre) as Hpre.
  pose proof (payloadBytes_nonneg post) as Hpost.
  pose proof (unitSize_pos t) as Hu.
  pose proof (imageSectors_nonneg pre) as Hsec.
  assert (Hprod : 0 <= Z.max 0 (Spec.sectorCount t) * Spec.unitSize t) by nia.
  pose proof (length_image msb pre data ltac:(lia)) as Lpre.
  rewrite image_app. cbn [Spec.image].
  set (D := drop (Z.to_nat (payloadBytes pre)) data).
  assert (HD : len D = len data - payloadBytes pre).
  { subst D. unfold len in *. rewrite length_drop. lia. }
  split.
  - intros j Hj.
    rewrite (drop_blocks _ _ _ _ Lpre Hsec) by lia.
    replace (Z.to_nat (2352 * j)) with (2352 * Z.to_nat j)%nat by lia.
    rewrite pregapImage_nth by lia. f_equal. lia.
  - intros j Hj.
    rewrite <- Z.add_assoc, (drop_blocks _ _ _ _ Lpre Hsec) by lia.
    rewrite (drop_blocks _ _ _ _ (length_pregapImage t)) by lia.
    replace (Z.to_nat (2352 * j)) with (2352 * Z.to_nat j)%nat by lia.
    rewrite payloadImage_nth by lia.
    rewrite Z2Nat.id by lia. f_equal. f_equal. subst D.
    rewrite drop_drop. f_equal.
    rewrite Z2Nat.inj_add, Z2Nat.inj_mul by nia. reflexivity.
Qed.

Lemma sectorBytes_header msb t s (chunk : list Z) :
  Mode t = 2 -> length chunk = 2056%nat -> is_int (s + 150) ->
  take 16 (Spec.sectorBytes msb t s chunk) = syncPattern ++ header t (s + 150).
Proof.
  intros Hm Hlen Hs. unfold Spec.sectorBytes.
  replace (Mode t =? 4) with false by lia.
  destruct (assembleData_eq t (add64 s 150) chunk empty Hlen length_empty)
    as (P & Q & _ & _ & _ & _ & ->).
  unfold add64. rewrite (wrap64_id _ Hs).
  rewrite app_assoc. apply take_app_length'. reflexivity.
Qed.

Lemma pregapBytes_header t j :
  Mode t = 2 -> is_int (Start t - Pregap t) -> is_int (Start t - Pregap t + j) ->
  is_int (Start t - Pregap t + j + 150) ->
  take 16 (Spec.pregapBytes t j)
  = syncPattern ++ header t (Start t - Pregap t + j + 150).
Proof.
  intros Hm H1 H2 H3. unfold Spec.pregapBytes.
  replace (Mode t =? 2) with true by lia.
  unfold add64, sub64. rewrite (wrap64_id _ H1), (wrap64_id _ H2), (wrap64_id _ H3).
  rewrite writeHeader_eq by (rewrite length_empty; lia).
  rewrite app_assoc. apply take_app_length'. reflexivity.
Qed.

(** X18.  The image is laid out by block number.  After a successful
    parse and a pass without error, with [t0] the first track: for every
    track [t], the sector of a block [s] of the track is sector number
    [s - Start t0] of the image, made of the chunk of the payload that
    lies behind the chunks of the earlier tracks and of the earlier
    sectors of [t]; the blocks of the gap before [t] are its pregap
    sectors, at their numbers minus [Start t0]; and in a data track every
    one of these sectors begins with the sync pattern and the header of
    the address [s + 150].  Addresses run on without a break from the
    first block of the table to the last. *)
Theorem image_block_addressed (msb0 audioMSB : bool) (lines : list Line)
    (readErr : bool) (pmf0 : list Z) (tracks pre post : list Track) (t t0 : Track)
    (st : Enc) :
  snd (parseFF msb0 lines readErr (len pmf0)) = Ok tracks ->
  payload_fits pmf0 ->
  buildBin audioMSB pmf0 tracks = (st, None) ->
  tracks = pre ++ t :: post -> head tracks = Some t0 ->
  (forall s, Start t <= s <= End t ->
     take 2352 (drop (Z.to_nat (2352 * (s - Start t0))) (out st))
     = Spec.sectorBytes audioMSB t s
         (take (Z.to_nat (Spec.unitSize t))
               (drop (Z.to_nat (payloadBytes pre + (s - Start t) * Spec.unitSize t)) pmf0)))
  /\ (forall s, Start t - Pregap t <= s < Start t ->
     take 2352 (drop (Z.to_nat (2352 * (s - Start t0))) (out st))
     = Spec.pregapBytes t (s - (Start t - Pregap t)))
  /\ (forall s, Start t - Pregap t <= s <= End t -> Mode t = 2 -> s + 150 <= maxInt ->
     take 16 (drop (Z.to_nat (2352 * (s - Start t0))) (out st))
     = syncPattern ++ header t (s + 150)).
Proof.
  intros Hv Hfit E -> Hhd.
  destruct (parse_tracks_facts _ _ _ _ _ Hv) as (Hint & Hch & HF & _).
  destruct (buildBin_spec audioMSB pmf0 Hfit _ Hint) as (st' & e & E' & _ & He).
  rewrite E in E'. injection E' as <- <-.
  destruct He as (Hbytes & _ & Hout).
  pose proof HF as HF'. apply Forall_app in HF' as [HFpre HFt].
  destruct (sectors_before pre t post t0 Hch HFpre Hhd) as [Hbefore Hpg].
  destruct (image_sector audioMSB pre t post pmf0 ltac:(lia)) as [Hgap Hpay].
  rewrite Hout.
  assert (Hpayload : forall s, Start t <= s <= End t ->
            take 2352 (drop (Z.to_nat (2352 * (s - Start t0)))
                            (Spec.image audioMSB (pre ++ t :: post) pmf0))
            = Spec.sectorBytes audioMSB t s
                (take (Z.to_nat (Spec.unitSize t))
                   (drop (Z.to_nat (payloadBytes pre + (s - Start t) * Spec.unitSize t))
                         pmf0))).
  { intros s Hs.
    specialize (Hpay (s - Start t) ltac:(unfold Spec.sectorCount; lia)).
    rewrite Z.max_r in Hpay by lia.
    replace (imageSectors pre + Pregap t + (s - Start t)) with (s - Start t0) in Hpay by lia.
    replace (Start t + (s - Start t)) with s in Hpay by lia.
    exact Hpay. }
  assert (Hpregap : forall s, Start t - Pregap t <= s < Start t ->
            take 2352 (drop (Z.to_nat (2352 * (s - Start t0)))
                            (Spec.image audioMSB (pre ++ t :: post) pmf0))
            = Spec.pregapBytes t (s - (Start t - Pregap t))).
  { intros s Hs.
    specialize (Hgap (s - (Start t - Pregap t)) ltac:(lia)).
    replace (imageSectors pre + (s - (Start t - Pregap t))) with (s - Start t0) in Hgap by lia.
    exact Hgap. }
  split; [exact Hpayload|]. split; [exact Hpregap|].
  intros s Hs Hm Hmax.
  assert (Ht0 : is_int (Start t0)).
  { destruct pre as [|u pre]; injection Hhd as <-;
      inversion Hint as [|? ? Hu _]; subst; apply Hu. }
  assert (Ht : track_int t).
  { apply Forall_app in Hint as [_ Hint]. inversion Hint; assumption. }
  destruct Ht as (_ & _ & HtS & HtE).
  pose proof (imageSectors_nonneg pre) as Hsec.
  inversion HFt as [|? ? Hse _]; subst.
  replace 16%nat with (Nat.min 16 2352) by reflexivity. rewrite <- take_take.
  destruct (Z_lt_ge_dec s (Start t)) as [Hlt|Hge].
  - rewrite Hpregap by lia.
    rewrite pregapBytes_header;
      [f_equal; f_equal; lia|exact Hm|int_lia..].
  - rewrite Hpayload by lia.
    apply sectorBytes_header; [exact Hm| |int_lia].
    assert (Hu : Spec.unitSize t = 2056).
    { unfold Spec.unitSize. replace (Mode t =? 4) with false by lia. reflexivity. }
    rewrite Hu, length_take, length_drop.
    rewrite payloadBytes_app, payloadBytes_cons, Hu in Hbytes.
    pose proof (payloadBytes_nonneg pre). pose proof (payloadBytes_nonneg post).
    unfold Spec.sectorCount in Hbytes. rewrite Z.max_r in Hbytes by lia.
    unfold len in *. lia.
Qed.

(** A witness of X18: the table of one data sector at block 5. *)
Lemma image_block_addressed_witness :
  take 16 (out (buildBin false (rampPayload 2056) [lateStartTrack]).1)
  = syncPattern ++ header lateStartTrack 155.
Proof.
  assert (E : (buildBin false (rampPayload 2056) [lateStartTrack]).2 = None)
    by (vm_compute; reflexivity).
  destruct (buildBin false (rampPayload 2056) [lateStartTrack]) as [st e] eqn:Eb.
  cbn [fst snd] in *. subst e.
  destruct (image_block_addressed false false lateStartDescriptor false (rampPayload 2056)
              [lateStartTrack] [] [] lateStartTrack lateStartTrack st)
    as (_ & _ & H).
  - vm_compute. reflexivity.
  - vm_compute. discriminate.
  - exact Eb.
  - reflexivity.
  - reflexivity.
  - apply (H 5); [vm_compute; intuition discriminate|reflexivity|vm_compute; discriminate].
Defined.

Section Buffer.

Variable audioMSB : bool.
Variable pmf0 : list Z.
Hypothesis Hfit : payload_fits pmf0.

Lemma payloadSector_buffer t s st :
  Inv pmf0 st -> offset st + Spec.unitSize t <= len pmf0 ->
  take (Z.to_nat (offset (payloadSector audioMSB t s st).1))
       (pmf (payloadSector audioMSB t s st).1)
  = take (Z.to_nat (offset st)) (pmf st)
    ++ kept audioMSB t (take (Z.to_nat (Spec.unitSize t)) (drop (Z.to_nat (offset st)) pmf0)).
Proof.
  intros HInv Hroom.
  pose proof HInv as (Hsec & Hoff & Hlen & Hdrop).
  pose proof Hfit as Hf. unfold payload_fits, binSector in Hf.
  pose proof (unitSize_pos t) as Hu.
  destruct (payloadSector_ok audioMSB pmf0 Hfit t s st HInv Hroom)
    as (st1 & E1 & HInv1 & Hoff1 & _ & _ & Hpmf1).
  destruct (Z.eq_dec (Mode t) 4) as [Hm|Hm]; [destruct audioMSB eqn:Hmsb|].
  - (* the swap *)
    clear E1 HInv1 Hoff1 Hpmf1 st1.
    unfold payloadSector, kept.
    rewrite (copy_all 2352 empty (sector st)) by (apply length_empty || exact Hsec).
    assert (Hl : len (pmf st) = len pmf0) by (unfold len; rewrite Hlen; reflexivity).
    assert (HU : Spec.unitSize t = 2352) by (unfold Spec.unitSize; rewrite Hm; reflexivity).
    rewrite HU in *. rewrite Hm. cbn [Z.eqb Pos.eqb andb].
    unfold audioSector, binSector.
    rewrite add64_small by lia. rewrite Hl.
    replace (offset st + 2352 >? len pmf0) with false by lia.
    rewrite slice_ok by lia.
    replace (offset st + 2352 - offset st) with 2352 by lia.
    rewrite Hdrop. cbn [fst offset pmf].
    set (chunk := take (Z.to_nat 2352) (drop (Z.to_nat (offset st)) pmf0)).
    assert (Hchunk : length (swapPairs chunk) = 2352%nat).
    { rewrite length_swapPairs. subst chunk.
      rewrite length_take, length_drop. unfold len in *. lia. }
    unfold writeBack. rewrite app_assoc.
    rewrite take_app_length'; [reflexivity|].
    rewrite length_app, length_take, Hchunk. unfold len in *. lia.
  - rewrite E1. cbn [fst]. rewrite (Hpmf1 ltac:(left; reflexivity)), Hoff1.
    unfold kept. rewrite andb_false_r. rewrite <- Hdrop.
    rewrite take_take_drop. f_equal. lia.
  - rewrite E1. cbn [fst]. rewrite (Hpmf1 ltac:(right; exact Hm)), Hoff1.
    unfold kept. replace (Mode t =? 4) with false by lia. cbn [andb].
    rewrite <- Hdrop. rewrite take_take_drop. f_equal. lia.
Qed.

Lemma payloadLoop_buffer t (fuel : nat) : forall s st,
  Inv pmf0 st ->
  exists k : nat,
    offset (payloadLoop fuel audioMSB t s st).1 = offset st + Z.of_nat k * Spec.unitSize t
    /\ take (Z.to_nat (offset (payloadLoop fuel audioMSB t s st).1))
            (pmf (payloadLoop fuel audioMSB t s st).1)
       = take (Z.to_nat (offset st)) (pmf st)
         ++ keptPayload k audioMSB t (drop (Z.to_nat (offset st)) pmf0).
Proof.
  induction fuel as [|fuel IH]; intros s st HInv; cbn [payloadLoop].
  { exists 0%nat. cbn [fst keptPayload]. rewrite app_nil_r. split; [lia|reflexivity]. }
  destruct (s <=? End t).
  2: { exists 0%nat. cbn [fst keptPayload]. rewrite app_nil_r. split; [lia|reflexivity]. }
  pose proof (unitSize_pos t) as Hu.
  pose proof HInv as (_ & Hoff & _).
  destruct (Z_le_gt_dec (offset st + Spec.unitSize t) (len pmf0)) as [Hroom|Hroom].
  - pose proof (payloadSector_buffer t s st HInv Hroom) as Hbuf.
    destruct (payloadSector_ok audioMSB pmf0 Hfit t s st HInv Hroom)
      as (st1 & E1 & HInv1 & Hoff1 & _).
    rewrite E1 in *. cbn [fst] in Hbuf.
    destruct (IH (add64 s 1) st1 HInv1) as (k & Hk1 & Hk2).
    exists (S k). split; [rewrite Hk1, Hoff1; lia|].
    rewrite Hk2, Hbuf, <- app_assoc. f_equal. cbn [keptPayload]. f_equal. f_equal.
    rewrite drop_drop, Hoff1. f_equal. lia.
  - destruct (payloadSector_truncated audioMSB pmf0 Hfit t s st HInv ltac:(lia))
      as (st1 & E1 & _ & Hoff1 & _ & Hpmf1).
    rewrite E1. cbn [fst]. exists 0%nat. cbn [keptPayload].
    rewrite app_nil_r, Hoff1, Hpmf1. split; [lia|reflexivity].
Qed.

Lemma encodeTracks_buffer tracks : forall st st',
  Forall track_int tracks -> Inv pmf0 st ->
  encodeTracks audioMSB tracks st = (st', None) ->
  take (Z.to_nat (offset st')) (pmf st')
  = take (Z.to_nat (offset st)) (pmf st)
    ++ keptImage audioMSB tracks (drop (Z.to_nat (offset st)) pmf0).
Proof.
  induction tracks as [|t rest IH]; intros st st' Hint HInv E.
  - injection E as <-. cbn [keptImage]. rewrite app_nil_r. reflexivity.
  - inversion Hint as [|? ? Ht Hrest]; subst. cbn [encodeTracks] in E.
    destruct (encodeTrack_spec audioMSB pmf0 Hfit t st Ht HInv)
      as (st1 & e1 & E1 & HInv1 & _ & _ & He1).
    rewrite E1 in E. destruct e1 as [e1|]; [discriminate|].
    destruct He1 as [Hoff1 _].
    rewrite (IH st1 st' Hrest HInv1 E). cbn [keptImage].
    rewrite app_assoc. f_equal.
    + (* the track itself *)
      unfold encodeTrack in E1.
      destruct (pregapLoop_spec pmf0 t st HInv) as (HInvp & Hoffp & Hpmfp & _).
      destruct (payloadLoop_buffer t (S (length (pmf (pregapLoop t st)))) (Start t)
                  (pregapLoop t st) HInvp) as (k & Hk1 & Hk2).
      rewrite E1 in Hk1, Hk2. cbn [fst] in Hk1, Hk2.
      rewrite Hoffp, Hpmfp in *.
      pose proof (unitSize_pos t) as Hu.
      assert (Hk' : Z.of_nat k * Spec.unitSize t
                    = Z.max 0 (Spec.sectorCount t) * Spec.unitSize t).
      { rewrite Hoff1 in Hk1. apply Z.add_cancel_l in Hk1. symmetry. exact Hk1. }
      apply Z.mul_cancel_r in Hk'; [|lia].
      assert (Hk : k = Z.to_nat (Spec.sectorCount t)) by lia.
      rewrite Hk2, Hk. reflexivity.
    + pose proof HInv as (_ & Hoff & _). pose proof (unitSize_pos t) as Hu.
      rewrite drop_drop. f_equal. rewrite Hoff1.
      destruct (Z.max_spec 0 (Spec.sectorCount t)) as [[Hc ->]|[Hc ->]].
      * rewrite Z2Nat.inj_add by nia. reflexivity.
      * assert (Spec.sectorCount t * Spec.unitSize t <= 0) by nia.
        rewrite Z.mul_0_l, Z.add_0_r.
        generalize dependent (Spec.sectorCount t * Spec.unitSize t). intros.
        f_equal. lia.
Qed.

End Buffer.

Lemma unsector_plain_sectorBytes msb t s (chunk : list Z) :
  length chunk = Z.to_nat (Spec.unitSize t) ->
  unsector false t (Spec.sectorBytes msb t s chunk) = kept msb t chunk.
Proof.
  intros Hlen. unfold kept.
  destruct (Z.eqb_spec (Mode t) 4) as [Hm|Hm]; cbn [andb].
  - unfold unsector, Spec.sectorBytes.
    replace (Mode t =? 4) with true by lia. reflexivity.
  - pose proof (unsector_sectorBytes msb t s chunk Hlen) as H.
    unfold unsector in *. replace (Mode t =? 4) with false in * by lia. exact H.
Qed.

Lemma unpayload_plain msb t (n : nat) : forall s (data more : list Z),
  Z.of_nat n * Spec.unitSize t <= len data ->
  unpayload n false t (Spec.payloadImage n msb t s data ++ more)
  = keptPayload n msb t data.
Proof.
  induction n as [|n IH]; intros s data more Hlen; [reflexivity|].
  cbn [unpayload Spec.payloadImage keptPayload].
  pose proof (unitSize_pos t) as Hu.
  assert (Hchunk : length (take (Z.to_nat (Spec.unitSize t)) data)
                   = Z.to_nat (Spec.unitSize t)).
  { rewrite length_take. unfold len in Hlen. lia. }
  pose proof (length_sectorBytes msb t s _ Hchunk) as Hsb.
  rewrite <- app_assoc.
  rewrite take_app_length' by (symmetry; exact Hsb).
  rewrite drop_app_length' by (symmetry; exact Hsb).
  rewrite unsector_plain_sectorBytes by exact Hchunk.
  rewrite IH by (unfold len in *; rewrite length_drop; lia).
  reflexivity.
Qed.

Lemma unimage_plain msb tracks : forall (data more : list Z),
  payloadBytes tracks <= len data ->
  unimage false tracks (Spec.image msb tracks data ++ more) = keptImage msb tracks data.
Proof.
  induction tracks as [|t rest IH]; intros data more Hlen; [reflexivity|].
  rewrite payloadBytes_cons in *.
  pose proof (payloadBytes_nonneg rest) as Hnn.
  pose proof (unitSize_pos t) as Hu.
  cbn [unimage Spec.image keptImage].
  set (n := Z.to_nat (Spec.sectorCount t)).
  assert (Hn : Z.of_nat n = Z.max 0 (Spec.sectorCount t)) by (subst n; lia).
  assert (Hprod : 0 <= Z.max 0 (Spec.sectorCount t) * Spec.unitSize t) by nia.
  rewrite <- !app_assoc.
  rewrite drop_app_length'
    by (pose proof (length_pregapImage t) as L; unfold len in L; lia).
  rewrite unpayload_plain by lia.
  rewrite drop_app_length'.
  2: { pose proof (length_payloadImage msb t n (Start t) data ltac:(lia)) as L.
       unfold len in L. lia. }
  rewrite IH; [reflexivity|].
  unfold len in *. rewrite length_drop.
  destruct (Z.max_spec 0 (Spec.sectorCount t)) as [[Hc Hmx]|[Hc Hmx]]; rewrite Hmx in *.
  - generalize dependent (Spec.sectorCount t * Spec.unitSize t). intros. lia.
  - assert (Spec.sectorCount t * Spec.unitSize t <= 0) by nia.
    generalize dependent (Spec.sectorCount t * Spec.unitSize t). intros. lia.
Qed.

(** X19.  The buffer after a pass.  The audio sector of an MSB
    descriptor is swapped in the payload buffer itself, so after a pass
    that ends without error the buffer holds, chunk by chunk, what was
    written: the swapped bytes of each audio sector under the flag, the
    bytes it had everywhere else.  It is what one reads back from the
    image without swapping, and it has the length it had. *)
Theorem buffer_after_pass (audioMSB : bool) (pmf0 : list Z) (tracks : list Track)
    (st : Enc) :
  payload_fits pmf0 -> Forall track_int tracks ->
  buildBin audioMSB pmf0 tracks = (st, None) ->
  pmf st = keptImage audioMSB tracks pmf0
  /\ pmf st = unimage false tracks (out st)
  /\ length (pmf st) = length pmf0.
Proof.
  intros Hfit Hint E.
  destruct (buildBin_spec audioMSB pmf0 Hfit tracks Hint) as (st' & e & E' & HInv & He).
  rewrite E in E'. injection E' as <- <-.
  destruct He as (Hbytes & Hoff & Hout).
  destruct HInv as (_ & _ & Hlen & _).
  assert (Henc : encodeTracks audioMSB tracks (initEnc pmf0) = (st, None)).
  { unfold buildBin in E.
    destruct (encodeTracks audioMSB tracks (initEnc pmf0)) as [s1 [e1|]]; [discriminate|].
    destruct (negb (offset s1 =? len (pmf s1))); [discriminate|].
    injection E as ->. reflexivity. }
  pose proof (encodeTracks_buffer audioMSB pmf0 Hfit tracks _ _ Hint (Inv_initEnc pmf0) Henc)
    as Hbuf.
  change (offset (initEnc pmf0)) with 0 in Hbuf.
  change (Z.to_nat 0) with 0%nat in Hbuf. rewrite take_0, drop_0, app_nil_l in Hbuf.
  rewrite take_ge in Hbuf by (unfold len in *; lia).
  split; [exact Hbuf|]. split; [|exact Hlen].
  rewrite Hbuf, Hout, <- (app_nil_r (Spec.image audioMSB tracks pmf0)).
  symmetry. apply unimage_plain. lia.
Qed.

(** A witness of X19: the audio sector of the MSB descriptor, whose first
    two bytes 1, 0 are 0, 1 in the buffer after the pass. *)
Lemma buffer_after_pass_witness :
  pmf (buildBin true swapPayload [mkTrack 1 4 0 0 0]).1
  = swapPairs swapPayload.
Proof.
  assert (E : (buildBin true swapPayload [mkTrack 1 4 0 0 0]).2 = None)
    by (vm_compute; reflexivity).
  destruct (buildBin true swapPayload [mkTrack 1 4 0 0 0]) as [st e] eqn:Eb.
  cbn [fst snd] in *. subst e.
  destruct (buffer_after_pass true swapPayload [mkTrack 1 4 0 0 0] st) as (H & _).
  - vm_compute. discriminate.
  - repeat constructor; vm_compute; discriminate.
  - exact Eb.
  - rewrite H. vm_compute. reflexivity.
Defined.

(** The steps of a pass and the buffer: the audio step under the flag,
    and a step that fails. *)
Lemma audioSector_swaps t s st :
  Mode t = 4 -> payload_fits (pmf st) ->
  0 <= offset st -> offset st + 2352 <= len (pmf st) ->
  payloadSector true t s st
  = (mkEnc (take (Z.to_nat (offset st)) (pmf st)
            ++ swapPairs (take 2352 (drop (Z.to_nat (offset st)) (pmf st)))
            ++ drop (Z.to_nat (offset st) + 2352) (pmf st))
           (copy 0 2352 empty (sector st))
           (offset st + 2352)
           (out st ++ swapPairs (take 2352 (drop (Z.to_nat (offset st)) (pmf st)))),
     None).
Proof.
  intros Hm Hfit Hoff Hroom.
  unfold payload_fits, binSector in Hfit.
  unfold payloadSector. replace (Mode t =? 4) with true by lia.
  unfold audioSector, binSector.
  rewrite add64_small by lia.
  replace (offset st + 2352 >? len (pmf st)) with false by lia.
  rewrite slice_ok by lia.
  replace (Z.to_nat (offset st + 2352 - offset st)) with 2352%nat by lia.
  unfold writeBack. rewrite length_swapPairs, length_take, length_drop.
  replace (2352 `min` (length (pmf st) - Z.to_nat (offset st)))%nat with 2352%nat
    by (unfold len in *; lia).
  reflexivity.
Qed.

Lemma payloadSector_keeps_on_error msb t s st :
  (payloadSector msb t s st).2 <> None -> pmf (payloadSector msb t s st).1 = pmf st.
Proof.
  unfold payloadSector.
  destruct (Mode t =? 4).
  - unfold audioSector.
    destruct (add64 (offset st) binSector >? len (pmf st)); [reflexivity|].
    destruct (slice (pmf st) (offset st) (add64 (offset st) binSector)); [|reflexivity].
    destruct msb; cbn [snd]; intros H; contradiction.
  - unfold dataSector.
    destruct (add64 (offset st) pmfSector >? len (pmf st)); [reflexivity|].
    destruct (do raw <- slice (pmf st) (offset st) (add64 (offset st) pmfSector);
              assembleData t (add64 s 150) raw (copy 0 2352 empty (sector st)));
      reflexivity.
Qed.

(** C6, as amended.  One encode pass leaves the payload buffer unchanged
    when the audio byte-order flag is not MSB, and also when no track of
    the table is an audio track.  With the MSB flag, the step for an audio
    sector swaps the 2352 bytes it reads in pairs in the buffer itself, at
    the cursor, and writes the swapped bytes; every other step (a data
    sector, a pregap sector, a step that fails) leaves the buffer as it
    is.  So after any pass the buffer has its length and, from the cursor
    on, its bytes; and after a pass without error it holds the swapped
    bytes of every audio sector and its own bytes elsewhere. *)
Theorem payload_unchanged_without_swap (audioMSB : bool) (pmf0 : list Z)
    (tracks : list Track) :
  (audioMSB = false \/ Forall (fun t => Mode t <> 4) tracks ->
   pmf (buildBin audioMSB pmf0 tracks).1 = pmf0)
  /\ (forall t s st,
        Mode t = 4 -> payload_fits (pmf st) ->
        0 <= offset st -> offset st + 2352 <= len (pmf st) ->
        let chunk := take 2352 (drop (Z.to_nat (offset st)) (pmf st)) in
        let st' := (payloadSector true t s st).1 in
        (payloadSector true t s st).2 = None
        /\ pmf st' = take (Z.to_nat (offset st)) (pmf st)
                     ++ swapPairs chunk
                     ++ drop (Z.to_nat (offset st) + 2352) (pmf st)
        /\ out st' = out st ++ swapPairs chunk
        /\ offset st' = offset st + 2352)
  /\ (forall msb t s st,
        msb = false \/ Mode t <> 4 \/ (payloadSector msb t s st).2 <> None ->
        pmf (payloadSector msb t s st).1 = pmf st)
  /\ (forall t st s, pmf (pregapSector t st s) = pmf st)
  /\ (payload_fits pmf0 -> Forall track_int tracks ->
      let st := (buildBin audioMSB pmf0 tracks).1 in
      length (pmf st) = length pmf0
      /\ drop (Z.to_nat (offset st)) (pmf st) = drop (Z.to_nat (offset st)) pmf0
      /\ ((buildBin audioMSB pmf0 tracks).2 = None ->
          pmf st = keptImage audioMSB tracks pmf0)).
Proof.
  split; [apply buildBin_keeps|].
  split.
  { intros t s st Hm Hfit Hoff Hroom chunk st'. subst chunk st'.
    rewrite (audioSector_swaps t s st Hm Hfit Hoff Hroom). cbn [fst snd pmf out offset].
    auto. }
  split.
  { intros msb t s st [H|[H|H]].
    - apply payloadSector_keeps. left. exact H.
    - apply payloadSector_keeps. right. exact H.
    - apply payloadSector_keeps_on_error, H. }
  split; [reflexivity|].
  intros Hfit Hint st.
  destruct (buildBin_spec audioMSB pmf0 Hfit tracks Hint) as (st' & e & E & HInv & He).
  subst st. rewrite E. cbn [fst snd].
  pose proof HInv as (_ & Hoff & Hlen & Hdrop).
  split; [exact Hlen|]. split; [exact Hdrop|].
  intros ->. destruct He as (Hbytes & Hoff' & Hout).
  assert (Henc : encodeTracks audioMSB tracks (initEnc pmf0) = (st', None)).
  { unfold buildBin in E.
    destruct (encodeTracks audioMSB tracks (initEnc pmf0)) as [s1 [e1|]]; [discriminate|].
    destruct (negb (offset s1 =? len (pmf s1))); [discriminate|].
    injection E as ->. reflexivity. }
  pose proof (encodeTracks_buffer audioMSB pmf0 Hfit tracks _ _ Hint (Inv_initEnc pmf0) Henc)
    as Hbuf.
  change (offset (initEnc pmf0)) with 0 in Hbuf.
  change (Z.to_nat 0) with 0%nat in Hbuf. rewrite take_0, drop_0, app_nil_l in Hbuf.
  rewrite take_ge in Hbuf by (unfold len in *; lia).
  exact Hbuf.
Qed.

(** A witness of C6: the payload of one audio sector, flag off and flag
    on. *)
Lemma payload_unchanged_without_swap_witness :
  pmf (buildBin false swapPayload [mkTrack 1 4 0 0 0]).1 = swapPayload
  /\ pmf (buildBin true swapPayload [mkTrack 1 4 0 0 0]).1 = swapPairs swapPayload.
Proof.
  destruct (payload_unchanged_without_swap false swapPayload [mkTrack 1 4 0 0 0])
    as (H1 & _).
  destruct (payload_unchanged_without_swap true swapPayload [mkTrack 1 4 0 0 0])
    as (_ & _ & _ & _ & H2).
  split; [apply H1; left; reflexivity|].
  destruct H2 as (_ & _ & H2).
  - vm_compute. discriminate.
  - repeat constructor; vm_compute; discriminate.
  - rewrite H2 by (vm_compute; reflexivity). vm_compute. reflexivity.
Defined.

(** ** The scanner and the errors of the validator *)

Lemma scanLines_snoc msb lines l :
  scanLines msb (lines ++ [l]) = scanLine (scanLines msb lines) l.
Proof. unfold scanLines. apply foldl_snoc. Qed.

Lemma scan_inSection (lines : list Line) : forall sc,
  scInSection sc = true ->
  scTracks (foldl scanLine sc lines) = scTracks sc ++ trackLines lines
  /\ scInSection (foldl scanLine sc lines) = true.
Proof.
  induction lines as [|l lines IH]; intros sc Hin; cbn [foldl].
  - rewrite app_nil_r. auto.
  - assert (Hstep : scInSection (scanLine sc l) = true
                    /\ scTracks (scanLine sc l)
                       = scTracks sc ++ match trackOfLine l with
                                        | Some t => [t] | None => [] end).
    { destruct l as [|b|n| |fields]; cbn [scanLine trackOfLine scInSection scTracks];
        rewrite ?app_nil_r; auto.
      rewrite Hin. cbn [negb].
      destruct (scanFields fields) as [[[[num mode] start] end_]|];
        cbn [scInSection scTracks]; rewrite ?app_nil_r; auto. }
    destruct Hstep as [Hin' Htr].
    destruct (IH (scanLine sc l) Hin') as [H1 H2]. split; [|exact H2].
    rewrite H1, Htr, <- app_assoc. f_equal.
    unfold trackLines. cbn [omap list_omap].
    destruct (trackOfLine l); reflexivity.
Qed.

Lemma scan_tracks (lines : list Line) : forall sc,
  scInSection sc = false -> scTracks sc = [] ->
  scTracks (foldl scanLine sc lines) = trackLines (afterMarker lines).
Proof.
  induction lines as [|l lines IH]; intros sc Hin Hnil; cbn [foldl afterMarker].
  - exact Hnil.
  - destruct l as [|b|n| |fields]; cbn [isSectionStart];
      try (apply IH; cbn [scanLine scInSection scTracks]; assumption).
    + destruct (scan_inSection lines (scanLine sc LineSectionStart) eq_refl) as [H _].
      rewrite H. cbn [scanLine scTracks]. rewrite Hnil. reflexivity.
    + apply IH; cbn [scanLine]; rewrite Hin; assumption.
Qed.

Lemma scan_flags (lines : list Line) : forall sc,
  scAudioMSB (foldl scanLine sc lines) = byteOrderOf (scAudioMSB sc) lines
  /\ scNumExpected (foldl scanLine sc lines)
     = foldl (fun n l => match l with
                         | LineTrackCount c => default n (scanInt c)
                         | _ => n
                         end) (scNumExpected sc) lines.
Proof.
  induction lines as [|l lines IH]; intros sc; cbn [foldl byteOrderOf]; [auto|].
  destruct (IH (scanLine sc l)) as [H1 H2]. unfold byteOrderOf in *. rewrite H1, H2.
  destruct l as [|b|n| |fields]; cbn [scanLine scAudioMSB scNumExpected]; auto.
  destruct (negb (scInSection sc)); [auto|].
  destruct (scanFields fields) as [[[[num mode] start] end_]|]; auto.
Qed.

Lemma afterMarker_none (lines : list Line) :
  Forall (fun l => isSectionStart l = false) lines -> afterMarker lines = [].
Proof.
  induction 1 as [|l rest Hl _ IH]; [reflexivity|].
  cbn [afterMarker]. rewrite Hl. exact IH.
Qed.

(** X20.  What the scanner keeps.  The track table is made of the lines
    after the first section marker that scan as four numbers of type
    [int], in their order; lines before the marker add nothing, and later
    markers change nothing.  The byte-order flag is the one of the last
    byte-order line, wherever it stands, and the declared count the one of
    the last count line that scans.  When the scanner reports an error,
    [parseFF] returns the read error whatever lines were delivered, with
    the flag the lines before the error have set.  A descriptor read to
    its end without a section marker is rejected for having no tracks,
    whatever its lines. *)
Theorem scanLines_summary (audioMSB : bool) (lines : list Line) :
  scTracks (scanLines audioMSB lines) = trackLines (afterMarker lines)
  /\ scAudioMSB (scanLines audioMSB lines) = byteOrderOf audioMSB lines
  /\ scNumExpected (scanLines audioMSB lines) = countOf lines
  /\ (forall pmfLen,
        parseFF audioMSB lines true pmfLen = (byteOrderOf audioMSB lines, Err ErrRead))
  /\ (Forall (fun l => isSectionStart l = false) lines ->
      forall pmfLen, snd (parseFF audioMSB lines false pmfLen) = Err ErrNoTracks).
Proof.
  unfold scanLines.
  split; [apply scan_tracks; reflexivity|].
  destruct (scan_flags lines (mkScan [] 0 false audioMSB)) as [H1 H2].
  split; [exact H1|]. split; [exact H2|].
  split.
  { intros pmfLen. unfold parseFF, scanLines. cbv zeta. rewrite H1. reflexivity. }
  intros Hno pmfLen. unfold parseFF, scanLines. cbn [snd].
  rewrite (scan_tracks lines (mkScan [] 0 false audioMSB) eq_refl eq_refl).
  rewrite (afterMarker_none lines Hno). reflexivity.
Qed.

(** A witness of X20: a track line and a byte-order line, no marker. *)
Lemma scanLines_summary_witness :
  snd (parseFF false [LineOther (Some (1, 2, 0, 0)); LineByteOrder true] false 2056)
  = Err ErrNoTracks.
Proof.
  destruct (scanLines_summary false [LineOther (Some (1, 2, 0, 0)); LineByteOrder true])
    as (_ & _ & _ & _ & H).
  apply H. repeat constructor.
Defined.

Lemma validateTrack_fields i prev t t' :
  validateTrack i prev t = Ok t' -> t' = withPregap t (Pregap t').
Proof.
  unfold validateTrack. intros H.
  repeat match type of H with
         | (if ?c then _ else _) = _ => destruct c; try discriminate
         | match ?p with Some _ => _ | None => _ end = _ => destruct p; try discriminate
         end; injection H as <-; reflexivity.
Qed.

Lemma validateTrack_no_overlap i p t n s e :
  is_int (Start t) -> is_int (End p) -> 0 <= Start t ->
  validateTrack i (Some p) t <> Err (ErrOverlap n s e).
Proof.
  intros Hs He Hnn H. unfold validateTrack in H.
  destruct (negb (Mode t =? 2) && negb (Mode t =? 4)); [discriminate|].
  destruct (negb (Num t =? i + 1)); [discriminate|].
  destruct (Start t >? End t); [discriminate|].
  destruct (i =? 0); [discriminate|].
  destruct (Z.ltb_spec (sub64 (sub64 (Start t) (End p)) 1) 0) as [L|L]; [discriminate|].
  destruct (Z.leb_spec (Start t) (End p)) as [O|O]; [|discriminate].
  unfold sub64 in L. unfold is_int, minInt, maxInt in *.
  rewrite (wrap64_id (Start t - End p)) in L by (unfold is_int, minInt, maxInt; lia).
  rewrite wrap64_id in L by (unfold is_int, minInt, maxInt; lia). lia.
Qed.

Lemma validateFrom_no_overlap raw : forall i prev n s e,
  Forall track_int raw -> Forall (fun t => 0 <= Start t) raw ->
  (forall p, prev = Some p -> is_int (End p)) ->
  validateFrom i prev raw <> Err (ErrOverlap n s e).
Proof.
  induction raw as [|t rest IH]; intros i prev n s e Hint Hnn Hprev H; [discriminate|].
  inversion Hint as [|? ? Ht Hrest]; subst. inversion Hnn as [|? ? Hs Hnn']; subst.
  cbn [validateFrom] in H.
  destruct (validateTrack i prev t) as [t'|err] eqn:Ev; cbn [bind] in H.
  - destruct (validateFrom (i + 1) (Some t') rest) as [rest'|err] eqn:Er;
      cbn [bind] in H; [discriminate|].
    injection H as ->. revert Er. apply IH; [assumption..|].
    intros p [= <-]. rewrite (validateTrack_fields _ _ _ _ Ev). apply Ht.
  - injection H as ->. destruct prev as [p|].
    + revert Ev. apply validateTrack_no_overlap; [apply Ht|apply (Hprev p eq_refl)|exact Hs].
    + unfold validateTrack in Ev.
      repeat match type of Ev with
             | (if ?c then _ else _) = _ => destruct c; try discriminate
             end.
Qed.

(** X21.  The overlap error.  The validator computes the pregap
    [Start - End(prev) - 1] and reports a negative one before it compares
    [Start] with the end of the track before; for a table whose [Start]s
    are not negative the second test never fires, every overlap being
    reported as a negative pregap.  The overlap error is returned only
    when the subtraction wraps around, as for a second track at the
    smallest [int] after a first one that ends at the largest. *)
Theorem parseFF_overlap_error (audioMSB : bool) (lines : list Line) (readErr : bool)
    (pmfLen : Z) :
  (Forall (fun t => 0 <= Start t) (scTracks (scanLines audioMSB lines)) ->
   forall n s e, snd (parseFF audioMSB lines readErr pmfLen) <> Err (ErrOverlap n s e))
  /\ snd (parseFF audioMSB wrapDescriptor false pmfLen)
     = Err (ErrOverlap 2 (- 2 ^ 63) (2 ^ 63 - 1)).
Proof.
  split; [|reflexivity].
  intros Hnn n s e H. unfold parseFF in H. cbn [snd] in H.
  destruct readErr; [discriminate|].
  pose proof (scanLines_ints audioMSB lines) as Hint.
  unfold validate in H.
  destruct (len (scTracks (scanLines audioMSB lines)) =? 0); [discriminate|].
  destruct ((scNumExpected (scanLines audioMSB lines) >? 0)
            && negb (len (scTracks (scanLines audioMSB lines))
                     =? scNumExpected (scanLines audioMSB lines))); [discriminate|].
  destruct (validateFrom 0 None (scTracks (scanLines audioMSB lines))) as [tr|err] eqn:Ev;
    cbn [bind] in H.
  - destruct (negb (expectedSize tr =? pmfLen)); discriminate.
  - injection H as ->. revert Ev.
    apply validateFrom_no_overlap; [assumption..|discriminate].
Qed.

(** A witness of X21: the overlap scenario [1 4 0 5], [2 2 5 10] is
    reported as a negative pregap. *)
Lemma parseFF_overlap_error_witness :
  snd (parseFF false overlapDescriptor false 0) <> Err (ErrOverlap 2 5 5)
  /\ snd (parseFF false overlapDescriptor false 0) = Err (ErrNegativePregap 2 (-1)).
Proof.
  split; [|reflexivity].
  destruct (parseFF_overlap_error false overlapDescriptor false 0) as [H _].
  apply H. repeat constructor; vm_compute; discriminate.
Defined.

Lemma validateFrom_samePlace raw : forall i prev tracks,
  validateFrom i prev raw = Ok tracks -> Forall2 samePlace raw tracks.
Proof.
  induction raw as [|t rest IH]; intros i prev tracks V; cbn [validateFrom] in V.
  - injection V as <-. constructor.
  - destruct (validateTrack i prev t) as [t'|e] eqn:Ev; cbn [bind] in V; [|discriminate].
    destruct (validateFrom (i + 1) (Some t') rest) as [rest'|e] eqn:Er; cbn [bind] in V;
      [|discriminate].
    injection V as <-. constructor; [|eapply IH; eassumption].
    apply (validateTrack_fields _ _ _ _ Ev).
Qed.

(** X26.  The size test is a test modulo 2^64.  The expected size the
    validator adds up in [int] arithmetic is the total size of the table,
    sector counts times unit sizes, wrapped to 64 bits, whatever overflows
    on the way; it is the total size itself when that is an [int].  The
    length-mismatch error carries this wrapped value and the length of the
    payload, which differ. *)
Theorem size_check_modular (numExpected : Z) (tracks : list Track) (pmfLen : Z) :
  expectedSize tracks = wrap64 (Spec.totalSize tracks)
  /\ (is_int (Spec.totalSize tracks) -> expectedSize tracks = Spec.totalSize tracks)
  /\ (forall expected got,
        validate numExpected tracks pmfLen = Err (ErrLengthMismatch expected got) ->
        expected = wrap64 (Spec.totalSize tracks) /\ got = pmfLen /\ expected <> got).
Proof.
  split; [apply expectedSize_wrap|].
  split; [intros Hint; rewrite expectedSize_wrap; apply wrap64_id, Hint|].
  intros expected got H. unfold validate in H.
  destruct (len tracks =? 0); [discriminate|].
  destruct ((numExpected >? 0) && negb (len tracks =? numExpected)); [discriminate|].
  destruct (validateFrom 0 None tracks) as [tr|err] eqn:Ev; cbn [bind] in H.
  - destruct (Z.eqb_spec (expectedSize tr) pmfLen) as [Heq|Hne]; cbn [negb] in H;
      [discriminate|].
    injection H as <- <-.
    rewrite expectedSize_wrap in *.
    rewrite (samePlace_totalSize _ _ (validateFrom_samePlace _ _ _ _ Ev)) in *.
    auto.
  - exfalso. injection H as ->. revert Ev. clear.
    generalize 0 (@None Track).
    induction tracks as [|t rest IH]; intros i prev V; cbn [validateFrom] in V;
      [discriminate|].
    destruct (validateTrack i prev t) as [t'|e] eqn:Ev; cbn [bind] in V.
    + destruct (validateFrom (i + 1) (Some t') rest) as [rest'|e] eqn:Er; cbn [bind] in V;
        [discriminate|].
      injection V as ->. apply (IH _ _ Er).
    + injection V as ->. unfold validateTrack in Ev.
      repeat match type of Ev with
             | (if ?c then _ else _) = _ => destruct c; try discriminate
             | match ?p with Some _ => _ | None => _ end = _ => destruct p; try discriminate
             end.
Qed.

(** A witness of X26: the table of [2^60] audio sectors, whose total size
    [2^60 * 2352] wraps to 0. *)
Lemma size_check_modular_witness :
  expectedSize [mkTrack 1 4 0 (2 ^ 60 - 1) 0] = 0
  /\ expectedSize [lateStartTrack] = Spec.totalSize [lateStartTrack].
Proof.
  split; [reflexivity|].
  destruct (size_check_modular 0 [lateStartTrack] 0) as (_ & H & _).
  apply H. vm_compute. intuition discriminate.
Defined.

(** ** From the descriptor to the image *)

Lemma parse_size msb lines readErr pmfLen tracks :
  snd (parseFF msb lines readErr pmfLen) = Ok tracks ->
  wrap64 (Spec.totalSize tracks) = pmfLen /\ 0 < Spec.totalSize tracks.
Proof.
  intros Hv. apply parseFF_Ok in Hv as [_ Hv].
  pose proof (scanLines_ints msb lines) as Hint.
  destruct (validate_Ok _ _ _ _ Hv Hint) as (Hne & _ & HF & Hwf & _ & Hsize).
  rewrite (samePlace_totalSize _ _ HF). split; [exact Hsize|].
  rewrite <- (samePlace_totalSize _ _ HF).
  rewrite <- (samePlace_wellFormed _ _ HF) in Hwf.
  apply (wellFormed_totalSize_pos _ _ _ Hwf).
  intros ->. apply Forall2_nil_inv_r in HF. contradiction.
Qed.

(** The loop over the sectors of a track that ends at the largest [int]
    does not end without an error. *)
Lemma payloadLoop_maxInt msb t (fuel : nat) : forall s st,
  End t = maxInt -> is_int s -> snd (payloadLoop fuel msb t s st) <> None.
Proof.
  induction fuel as [|fuel IH]; intros s st HE Hs; cbn [payloadLoop]; [discriminate|].
  replace (s <=? End t) with true by (unfold is_int in Hs; lia).
  destruct (payloadSector msb t s st) as [st1 [e|]]; [discriminate|].
  apply IH; [exact HE|apply wrap64_is_int].
Qed.

Lemma encodeTracks_maxInt msb tracks : forall st,
  Forall track_int tracks -> Exists (fun t => End t = maxInt) tracks ->
  snd (encodeTracks msb tracks st) <> None.
Proof.
  induction tracks as [|t rest IH]; intros st Hint Hex; [inversion Hex|].
  inversion Hint as [|? ? Ht Hrest]; subst. cbn [encodeTracks].
  destruct (encodeTrack msb t st) as [st1 [e|]] eqn:E; [discriminate|].
  inversion Hex as [? ? HE|? ? Hex']; subst.
  - exfalso. unfold encodeTrack in E.
    destruct Ht as (_ & _ & HS & _).
    pose proof (payloadLoop_maxInt msb t (S (length (pmf (pregapLoop t st))))
                  (Start t) (pregapLoop t st) HE HS) as Hne.
    rewrite E in Hne. apply Hne. reflexivity.
  - apply IH; assumption.
Qed.

(** X22.  A validated table encodes.  When the parse succeeds, the total
    size of the table fits an [int] and no track ends at the largest
    [int], the pass over the payload cannot fail: [main] writes the image
    of the table, pregap sectors and payload sectors track by track, and
    reports no error; the image has one sector for every block from the
    first of the table to the last. *)
Theorem main_succeeds (lines : list Line) (readErr : bool) (pmf0 : list Z) (msb : bool)
    (tracks : list Track) :
  parseFF false lines readErr (len pmf0) = (msb, Ok tracks) ->
  payload_fits pmf0 ->
  Spec.totalSize tracks <= maxInt ->
  Forall (fun t => End t < maxInt) tracks ->
  main lines readErr pmf0 = (Some (Spec.image msb tracks pmf0), None)
  /\ len (Spec.image msb tracks pmf0) = 2352 * imageSectors tracks
  /\ (forall t0 tl, head tracks = Some t0 -> last tracks = Some tl ->
      imageSectors tracks = End tl - Start t0 + 1).
Proof.
  intros Hp Hfit Hsize Hend.
  assert (Hv : snd (parseFF false lines readErr (len pmf0)) = Ok tracks)
    by (rewrite Hp; reflexivity).
  destruct (parse_tracks_facts _ _ _ _ _ Hv) as (Hint & Hch & HF & Hne).
  destruct (parse_size _ _ _ _ _ Hv) as [Hw Hpos].
  rewrite wrap64_id in Hw by int_lia.
  pose proof (payloadBytes_totalSize tracks HF) as Hpb.
  destruct (buildBin_spec msb pmf0 Hfit tracks Hint) as (st & e & E & _ & He).
  unfold main. rewrite Hp, E.
  destruct e as [[]|]; try contradiction.
  - destruct He as (_ & _ & _ & Hlt & _). specialize (Hlt Hend). lia.
  - destruct He as (Hlt & _). lia.
  - destruct He as (_ & _ & Hout). rewrite Hout. split; [reflexivity|].
    split; [apply length_image; lia|].
    intros t0 tl Hhd Hlast.
    rewrite (chained_span tracks None Hch HF t0 tl Hhd Hlast). lia.
Qed.

(** A witness of X22: the descriptor [1 2 5 5] and a payload of 2056
    bytes. *)
Lemma main_succeeds_witness :
  main lateStartDescriptor false (rampPayload 2056)
  = (Some (Spec.image false [lateStartTrack] (rampPayload 2056)), None).
Proof.
  apply (main_succeeds lateStartDescriptor false (rampPayload 2056) false [lateStartTrack]).
  - vm_compute. reflexivity.
  - vm_compute. discriminate.
  - vm_compute. discriminate.
  - repeat constructor.
Defined.

(** X23.  The largest block number.  In a track whose [End] is the
    largest [int] the test [s <= t.End] of the sector loop holds for every
    [s], the counter wrapping around after the last block, so the loop
    ends only when the payload runs out: every pass over a table with such
    a track ends with the truncation error. *)
Theorem buildBin_largest_block (audioMSB : bool) (pmf0 : list Z) (tracks : list Track) :
  payload_fits pmf0 -> Forall track_int tracks ->
  Exists (fun t => End t = maxInt) tracks ->
  exists st need avail,
    buildBin audioMSB pmf0 tracks = (st, Some (ErrTruncated need avail)).
Proof.
  intros Hfit Hint Hex.
  pose proof (encodeTracks_maxInt audioMSB tracks (initEnc pmf0) Hint Hex) as Hne.
  destruct (buildBin_spec audioMSB pmf0 Hfit tracks Hint) as (st & e & E & _ & He).
  destruct e as [[]|]; try contradiction.
  - eauto.
  - destruct He as (_ & _ & _ & _ & E'). rewrite E' in Hne. contradiction.
  - exfalso. unfold buildBin in E.
    destruct (encodeTracks audioMSB tracks (initEnc pmf0)) as [st1 [e1|]]; [discriminate|].
    apply Hne. reflexivity.
Qed.

(** A witness of X23: one data block at the largest [int], and the 2056
    bytes of its sector: the table passes the validator, and the pass asks
    for a second chunk. *)
Lemma buildBin_largest_block_witness :
  snd (parseFF false [LineSectionStart; LineOther (Some (1, 2, maxInt, maxInt))] false 2056)
  = Ok [mkTrack 1 2 maxInt maxInt 0]
  /\ exists st need avail,
       buildBin false (rampPayload 2056) [mkTrack 1 2 maxInt maxInt 0]
       = (st, Some (ErrTruncated need avail)).
Proof.
  split; [vm_compute; reflexivity|].
  apply (buildBin_largest_block false (rampPayload 2056) [mkTrack 1 2 maxInt maxInt 0]).
  - vm_compute. discriminate.
  - repeat constructor; vm_compute; discriminate.
  - left. reflexivity.
Defined.

(** ** The cue sheet *)

Lemma cueTracks_chained (tracks : list Track) : forall prev,
  chained prev tracks -> Forall track_int tracks ->
  (forall p, prev = Some p -> is_int (End p)) ->
  concat (cueTrack <$> tracks) = cueAfter prev tracks.
Proof.
  induction tracks as [|t rest IH]; intros prev Hch Hint Hprev; [reflexivity|].
  destruct Hch as [Ht Hch]. inversion Hint as [|? ? Hti Hrest]; subst.
  cbn [fmap list_fmap concat cueAfter].
  rewrite (IH (Some t) Hch Hrest) by (intros p [= <-]; apply Hti).
  unfold cueTrack. rewrite <- !app_assoc. f_equal. f_equal.
  destruct prev as [p|].
  - destruct Ht as (Hgt & Hpg & Hnn).
    pose proof (Hprev p eq_refl) as Hp. destruct Hti as (_ & _ & Hs & _).
    assert (Hsub : sub64 (Start t) (Pregap t) = End p + 1).
    { unfold sub64. rewrite Hpg. replace (Start t - (Start t - End p - 1)) with (End p + 1) by lia.
      apply wrap64_id. unfold is_int, minInt, maxInt in *. lia. }
    rewrite Hsub.
    destruct (Z.gtb_spec (Pregap t) 0), (Z.ltb_spec (End p + 1) (Start t));
      try reflexivity; lia.
  - rewrite Ht. reflexivity.
Qed.

Lemma fmt02d_checked : forallb fmt02d_two_digits (seqZ 0 100) = true.
Proof. vm_compute. reflexivity. Qed.

Lemma fmt02d_small v : 0 <= v < 100 -> fmt02d v = twoDigits v.
Proof.
  intros Hv. pose proof (range_check _ 0 100 fmt02d_checked v ltac:(lia)) as H.
  unfold fmt02d_two_digits in H. apply bool_decide_eq_true in H. exact H.
Qed.

Lemma digitVal_digit d : 0 <= d < 10 -> digitVal (ascii_of_nat (Z.to_nat (48 + d))) = d.
Proof.
  intros Hd. unfold digitVal. rewrite nat_ascii_embedding by lia. lia.
Qed.

Lemma readMSF_fmtMSF m s f :
  0 <= m < 100 -> 0 <= s < 100 -> 0 <= f < 100 ->
  readMSF (fmtMSF (m, s, f)) = Some (m * (60 * 75) + s * 75 + f)
  /\ String.length (fmtMSF (m, s, f)) = 8%nat.
Proof.
  intros Hm Hs Hf. unfold fmtMSF.
  rewrite !fmt02d_small by assumption. unfold twoDigits.
  cbv [String.append readMSF String.length].
  rewrite !digitVal_digit by (Z.div_mod_to_equations; lia).
  split; [|reflexivity]. f_equal. Z.div_mod_to_equations. lia.
Qed.

(** X24.  The cue sheet of a validated table.  After the FILE line every
    track has its TRACK line and its INDEX 01 line at the time of its
    first block.  An INDEX 00 line stands between them exactly when the
    track does not begin at the block after the end of the track before
    it, and its time is that of this block; the first track never has
    one. *)
Theorem writeCue_parsed (audioMSB : bool) (lines : list Line) (readErr : bool)
    (pmfLen : Z) (tracks : list Track) (binBase : string) :
  snd (parseFF audioMSB lines readErr pmfLen) = Ok tracks ->
  writeCue tracks binBase
  = ("FILE " +:+ quote +:+ binBase +:+ quote +:+ " BINARY" +:+ newline)
    :: cueAfter None tracks.
Proof.
  intros Hv.
  destruct (parse_tracks_facts _ _ _ _ _ Hv) as (Hint & Hch & _ & _).
  unfold writeCue. f_equal.
  apply cueTracks_chained; [exact Hch|exact Hint|discriminate].
Qed.

(** A witness of X24: the gap scenario, whose second track has its
    INDEX 00 at block 11. *)
Lemma writeCue_parsed_witness :
  writeCue [gapTrack1; gapTrack2] "disc.bin"
  = ("FILE " +:+ quote +:+ "disc.bin" +:+ quote +:+ " BINARY" +:+ newline)
    :: cueAfter None [gapTrack1; gapTrack2].
Proof.
  apply (writeCue_parsed false gapDescriptor false (11 * 2056 + 9 * 2352)).
  vm_compute. reflexivity.
Defined.

(** X25.  The time stamps of the cue sheet can be read back.  For a block
    number below 100 minutes, [lbaToMSFFormatted] writes the eight
    characters [mm:ss:ff], and reading the three pairs of decimal digits
    gives the block number back. *)
Theorem cue_time_roundtrip (lba : Z) :
  0 <= lba < 100 * 60 * 75 ->
  readMSF (lbaToMSFFormatted lba) = Some lba
  /\ String.length (lbaToMSFFormatted lba) = 8%nat.
Proof.
  intros Hlba. unfold lbaToMSFFormatted.
  destruct (lbaToMSF_nonneg lba ltac:(lia)) as (Hrt & Hm & Hs & Hf).
  assert (Hm' : (lbaToMSF lba).1.1 < 100).
  { unfold msfToLBA in Hrt. lia. }
  destruct (lbaToMSF lba) as [[m s] f]. cbn [fst snd] in *.
  destruct (readMSF_fmtMSF m s f) as [H1 H2]; [lia..|].
  rewrite H1, H2. unfold msfToLBA in Hrt. cbn [fst snd] in Hrt.
  rewrite Hrt. split; reflexivity.
Qed.

(** A witness of X25: block 449999 is written 99:59:74. *)
Lemma cue_time_roundtrip_witness :
  readMSF (lbaToMSFFormatted 449999) = Some 449999
  /\ lbaToMSFFormatted 449999 = "99:59:74".
Proof.
  split; [|reflexivity].
  apply (cue_time_roundtrip 449999). lia.
Defined.
